(** * Operadic consistency: a shallow embedding of the core engine

    The development follows the Python sources of
    [operadic_consistency/core]: [toq_types.py] (trees of questions and their
    validation), [serialization.py] (the JSON form), [evaluate.py] (the
    leaves-to-root evaluator) and [consistency.py] (the orchestrator with its
    cross-plan cache).

    Conventions.
    - A Python [dict] is an insertion-ordered association list with pairwise
      distinct keys ([PyDict]); a Python [set] of node ids is a [gset Z]; the
      collapsed-question cache, whose order is never observed, is a [gmap].
    - A function that can raise returns a [result]; the exception carries the
      data its message is formatted from.
    - The recursive closures [dfs] recurse on a budget of calls.  The budget
      handed out by the callers is the number of nodes, and is shown to
      suffice; the interpreter's own recursion limit is not part of the model.
    - Oracles (answerer, collapser, normalizer) are state-passing functions, so
      that a recording test double such as the ones of the test-suite is an
      instance. *)

From stdpp Require Import base option list gmap sets strings sorting.
From Stdlib Require Import ZArith Lia Ascii DecimalString DecimalZ DecimalPos.

Local Open Scope Z_scope.
Local Open Scope string_scope.
Local Open Scope list_scope.

(** ** Outcomes *)

Inductive exn : Type :=
  | RootNotInNodes (root : Z)               (* "root_id {root} not in nodes" *)
  | KeyMismatch (nid nodeid : Z)            (* "Node key {nid} != node.id {id}" *)
  | MissingParent (nid p : Z)               (* "Node {nid} has missing parent {p}" *)
  | SelfParent (nid : Z)                    (* "Node {nid} cannot be its own parent" *)
  | RootHasParent (root : Z)                (* "root_id {root} must have parent=None" *)
  | NotOneRoot (roots : list Z)             (* "Expected exactly 1 root, found ..." *)
  | RootMismatch (root r0 : Z)              (* "root_id {root} != the unique root {r0}" *)
  | CycleDetected (u v : Z)                 (* "Cycle detected: edge {u} -> {v}" *)
  | Unreachable (root : Z) (l : list Z)     (* "Unreachable nodes from root ..." *)
  | JsonMissingKeys                         (* "Invalid ToQ JSON: missing root_id or nodes" *)
  | JsonNodesNotMapping                     (* "Invalid ToQ JSON: nodes must be a mapping" *)
  | JsonInvalidKey (k : string)             (* "Invalid node id key: {k!r}" *)
  | JsonInvalidEntry (nid : Z)              (* "Invalid node entry for id {nid}" *)
  | JsonMissingField (field : string) (nid : Z) (* "Missing field {e} in node {nid}" *)
  | KeyError (k : Z)                        (* a failed subscript [d[k]] *)
  | PlanRootCut                             (* "root_id cannot be a cut edge" *)
  | PlanNodeMissing (nid : Z)               (* "node {nid} not in ToQ" *)
  | PlanMissingQuestion (r : Z)             (* "Missing collapsed question for component root {r}" *)
  | OutOfBudget.                            (* the recursion budget of the model ran out *)

Inductive result (A : Type) : Type :=
  | Ok (a : A)
  | Raise (e : exn).
Arguments Ok {A} a.
Arguments Raise {A} e.

#[global] Instance result_ret : MRet result := fun A a => Ok a.
#[global] Instance result_bind : MBind result := fun A B f m =>
  match m with
  | Ok a => f a
  | Raise e => Raise e
  end.

Definition is_ok {A} (r : result A) : Prop :=
  match r with Ok _ => True | Raise _ => False end.

Definition raises {A} (r : result A) : Prop :=
  match r with Ok _ => False | Raise _ => True end.

(** ** Python dictionaries: insertion-ordered association lists *)

Module PyDict.
Section Dict.
Context {K V : Type} `{EqDecision K}.

(** [d.get(k)] *)
Fixpoint get (d : list (K * V)) (k : K) : option V :=
  match d with
  | [] => None
  | (k', v) :: d' => if decide (k' = k) then Some v else get d' k
  end.

(** [k in d] *)
Definition mem (d : list (K * V)) (k : K) : bool :=
  match get d k with Some _ => true | None => false end.

(** [d[k] = v]: an existing key keeps its position, a new one goes last. *)
Fixpoint set (d : list (K * V)) (k : K) (v : V) : list (K * V) :=
  match d with
  | [] => [(k, v)]
  | (k', v') :: d' =>
      if decide (k' = k) then (k, v) :: d' else (k', v') :: set d' k v
  end.

(** iteration over [d], [d.keys()] *)
Definition keys (d : list (K * V)) : list K := d.*1.

(** [{k: v for (k, v) in l}] *)
Definition of_list (l : list (K * V)) : list (K * V) :=
  fold_left (fun d kv => set d kv.1 kv.2) l [].

(** The invariant of every Python dictionary: no key occurs twice. *)
Definition wf (d : list (K * V)) : Prop := NoDup (keys d).
End Dict.
End PyDict.

(** ** [toq_types.py] *)

Abbreviation NodeId := Z (only parsing).

Record ToQNode : Type := mkToQNode {
  node_id : NodeId;
  node_text : string;
  node_parent : option NodeId;
}.

Record ToQ : Type := mkToQ {
  nodes : list (NodeId * ToQNode);
  root_id : NodeId;
}.

Record OpenToQ : Type := mkOpenToQ {
  open_toq : ToQ;
  open_inputs : list NodeId;
  open_root_id : NodeId;
}.

(** [ToQ.children]: adjacency, node -> list of child node ids. *)
Definition children_step (ch : list (NodeId * list NodeId))
    (item : NodeId * ToQNode) : list (NodeId * list NodeId) :=
  match node_parent item.2 with
  | Some p =>
      match PyDict.get ch p with
      | Some l => PyDict.set ch p (l ++ [item.1])
      | None => ch
      end
  | None => ch
  end.

Definition children (t : ToQ) : list (NodeId * list NodeId) :=
  fold_left children_step (nodes t)
    (PyDict.of_list ((fun nid => (nid, [])) <$> PyDict.keys (nodes t))).

(** [ch.get(u, [])] *)
Definition get_children (ch : list (NodeId * list NodeId)) (u : NodeId) : list NodeId :=
  default [] (PyDict.get ch u).

(** [ToQ.leaves] *)
Definition leaves (t : ToQ) : list NodeId :=
  let ch := children t in
  filter (fun nid => length (get_children ch nid) = 0%nat) (PyDict.keys (nodes t)).

(** The per-node loop of [validate]: ids, parent pointers, self-parents. *)
Fixpoint check_nodes (all items : list (NodeId * ToQNode)) : result unit :=
  match items with
  | [] => Ok tt
  | (nid, node) :: rest =>
      if negb (bool_decide (node_id node = nid)) then
        Raise (KeyMismatch nid (node_id node))
      else match node_parent node with
      | Some p =>
          if negb (PyDict.mem all p) then Raise (MissingParent nid p)
          else if bool_decide (p = nid) then Raise (SelfParent nid)
          else check_nodes all rest
      | None => check_nodes all rest
      end
  end.

(** The closure [dfs] of [validate], with its two captured sets threaded as
    state: [(visited, in_stack)].  [validate_dfs_loop] is the [for v in
    ch.get(u, [])] loop, given the recursive call. *)
Definition validate_dfs_loop (rec : NodeId → gset Z * gset Z → result (gset Z * gset Z))
    (u : NodeId) : list NodeId → gset Z * gset Z → result (gset Z * gset Z) :=
  fix loop vs st :=
    match vs with
    | [] => Ok st
    | v :: vs' =>
        if bool_decide (v ∈ st.2) then Raise (CycleDetected u v)
        else
          st' ← (if bool_decide (v ∈ st.1) then Ok st else rec v st);
          loop vs' st'
    end.

Fixpoint validate_dfs (budget : nat) (ch : list (NodeId * list NodeId))
    (u : NodeId) (st : gset Z * gset Z) : result (gset Z * gset Z) :=
  match budget with
  | O => Raise OutOfBudget
  | S budget' =>
      st2 ← validate_dfs_loop (validate_dfs budget' ch) u (get_children ch u)
              ({[u]} ∪ st.1, {[u]} ∪ st.2);
      Ok (st2.1, st2.2 ∖ {[u]})
  end.

(** [roots = [nid for nid, node in self.nodes.items() if node.parent is None]] *)
Definition parentless (d : list (NodeId * ToQNode)) : list NodeId :=
  (filter (fun item => node_parent item.2 = None) d).*1.

(** The last part of [validate]: the traversal from the root and the count of
    the visited nodes. *)
Definition validate_reachability (t : ToQ) : result unit :=
  let ch := children t in
  st ← validate_dfs (length (nodes t)) ch (root_id t) (∅, ∅);
  if negb (bool_decide (size st.1 = length (nodes t))) then
    Raise (Unreachable (root_id t)
             (merge_sort Z.le
                (elements (list_to_set (PyDict.keys (nodes t)) ∖ st.1))))
  else Ok tt.

(** [ToQ.validate] *)
Definition validate (t : ToQ) : result unit :=
  if negb (PyDict.mem (nodes t) (root_id t)) then Raise (RootNotInNodes (root_id t))
  else
    _ ← check_nodes (nodes t) (nodes t);
    match PyDict.get (nodes t) (root_id t) with
    | None => Raise (KeyError (root_id t))
    | Some root_node =>
        match node_parent root_node with
        | Some _ => Raise (RootHasParent (root_id t))
        | None =>
            let roots := parentless (nodes t) in
            match roots with
            | [r0] =>
                if negb (bool_decide (r0 = root_id t)) then
                  Raise (RootMismatch (root_id t) r0)
                else validate_reachability t
            | _ => Raise (NotOneRoot roots)
            end
        end
    end.

(** The trees of the test-suite. *)
Definition toq_single : ToQ :=
  mkToQ [(1, mkToQNode 1 "Root question?" None)] 1.

Definition toq_three : ToQ :=
  mkToQ [(1, mkToQNode 1 "Q1?" (Some 3));
         (2, mkToQNode 2 "Q2?" (Some 3));
         (3, mkToQNode 3 "Q3([A1],[A2])" None)] 3.

Definition toq_five : ToQ :=
  mkToQ [(1, mkToQNode 1 "Q1?" (Some 3));
         (2, mkToQNode 2 "Q2?" (Some 3));
         (3, mkToQNode 3 "Q3([A1],[A2])" (Some 5));
         (4, mkToQNode 4 "Q4?" (Some 5));
         (5, mkToQNode 5 "Q5([A3],[A4])" None)] 5.

Definition toq_cycle : ToQ :=
  mkToQ [(1, mkToQNode 1 "Q1?" (Some 2)); (2, mkToQNode 2 "Q2?" (Some 1))] 1.

Definition toq_orphan_cycle : ToQ :=
  mkToQ [(1, mkToQNode 1 "Root?" None);
         (2, mkToQNode 2 "A?" (Some 3));
         (3, mkToQNode 3 "B?" (Some 2))] 1.


(** ** [serialization.py] *)

(** [str(nid)] on an integer: the canonical decimal rendering. *)
Definition str_of_int (z : Z) : string := NilZero.string_of_int (Z.to_int z).

(** JSON documents, as far as the declared field types allow them: a value
    under ["id"] or ["root_id"] is an integer, under ["text"] a string, under
    ["parent"] an integer or [null]; keys may be absent, and the value under
    ["nodes"] or a node entry need not be a mapping.  Keys that the code never
    reads are left out. *)
Record JsonFields : Type := mkJsonFields {
  j_id : option Z;                 (* [None]: no key ["id"] *)
  j_text : option string;          (* [None]: no key ["text"] *)
  j_parent : option (option Z);    (* [None]: no key ["parent"]; [Some None]: null *)
}.

Inductive JsonEntry : Type :=
  | JEntryOther                    (* not a mapping *)
  | JEntry (fields : JsonFields).

Inductive JsonNodes : Type :=
  | JNodesOther                    (* not a mapping *)
  | JNodes (entries : list (string * JsonEntry)).

Record JsonToQ : Type := mkJsonToQ {
  j_root_id : option Z;            (* [None]: no key ["root_id"] *)
  j_nodes : option JsonNodes;      (* [None]: no key ["nodes"] *)
}.

(** The entry of one node: [str(nid): {"id": ..., "text": ..., "parent": ...}]. *)
Definition json_of_node (item : NodeId * ToQNode) : string * JsonEntry :=
  (str_of_int item.1,
   JEntry {| j_id := Some (node_id item.2);
             j_text := Some (node_text item.2);
             j_parent := Some (node_parent item.2) |}).

(** [toq_to_json] *)
Definition toq_to_json (t : ToQ) : JsonToQ :=
  {| j_root_id := Some (root_id t);
     j_nodes := Some (JNodes (PyDict.of_list (json_of_node <$> nodes t))) |}.

Section FromJson.
(** [int(k)] on a string is the interpreter's; it is a parameter here. *)
Variable int_of_str : string → option Z.

(** The loop [for k, v in nodes_raw.items()] of [toq_from_json]. *)
Fixpoint from_json_nodes (entries : list (string * JsonEntry))
    (acc : list (NodeId * ToQNode)) : result (list (NodeId * ToQNode)) :=
  match entries with
  | [] => Ok acc
  | (k, v) :: rest =>
      match int_of_str k with
      | None => Raise (JsonInvalidKey k)
      | Some nid =>
          match v with
          | JEntryOther => Raise (JsonInvalidEntry nid)
          | JEntry f =>
              match j_id f with
              | None => Raise (JsonMissingField "id" nid)
              | Some i =>
                  match j_text f with
                  | None => Raise (JsonMissingField "text" nid)
                  | Some tx =>
                      let node := mkToQNode i tx (mjoin (j_parent f)) in
                      from_json_nodes rest (PyDict.set acc nid node)
                  end
              end
          end
      end
  end.

(** [toq_from_json] *)
Definition toq_from_json (obj : JsonToQ) : result ToQ :=
  match j_root_id obj, j_nodes obj with
  | Some root, Some nodes_raw =>
      match nodes_raw with
      | JNodesOther => Raise JsonNodesNotMapping
      | JNodes entries =>
          ns ← from_json_nodes entries [];
          let toq := mkToQ ns root in
          _ ← validate toq;
          Ok toq
      end
  | _, _ => Raise JsonMissingKeys
  end.
End FromJson.

(** ** [interfaces.py] and [evaluate.py] *)

Record Answer : Type := mkAnswer {
  answer_text : string;
  answer_meta : option (list (string * string));
}.

Record EvalTrace : Type := mkEvalTrace {
  rendered_question : list (NodeId * string);
  answer : list (NodeId * Answer);
}.

(** Computations that call oracles: the oracles' state is threaded, and is
    kept when an exception is raised. *)
Definition M (W A : Type) : Type := W → result A * W.

#[global] Instance M_ret {W} : MRet (M W) := fun A a w => (Ok a, w).
#[global] Instance M_bind {W} : MBind (M W) := fun A B f m w =>
  match m w with
  | (Ok a, w') => f a w'
  | (Raise e, w') => (Raise e, w')
  end.

Definition lift {W A} (r : result A) : M W A := fun w => (r, w).
Definition call {W A} (f : W → A * W) : M W A := fun w => let (a, w') := f w in (Ok a, w').

(** [d[k]] *)
Definition subscript {V} (d : list (NodeId * V)) (k : NodeId) : result V :=
  match PyDict.get d k with
  | Some v => Ok v
  | None => Raise (KeyError k)
  end.

(** [s.replace(old, new)]: the occurrences of [old] are replaced from left to
    right, the scan resuming after each replaced occurrence.  [skip] counts
    the characters of a replaced occurrence still to be passed over. *)
Fixpoint replace_from (old new : string) (skip : nat) (s : string) : string :=
  match s with
  | EmptyString => EmptyString
  | String c s' =>
      match skip with
      | S k => replace_from old new k s'
      | O =>
          if String.prefix old s then
            new ++ replace_from old new (Nat.pred (String.length old)) s'
          else String c (replace_from old new 0 s')
      end
  end.

(** An empty [old] matches before every character and at the end. *)
Fixpoint intersperse (new s : string) : string :=
  match s with
  | EmptyString => new
  | String c s' => new ++ String c (intersperse new s')
  end.

Definition replace (old new s : string) : string :=
  match old with
  | EmptyString => intersperse new s
  | _ => replace_from old new 0 s
  end.

(** [f"[A{cid}]"] *)
Definition placeholder (cid : NodeId) : string := "[A" ++ str_of_int cid ++ "]".

(** [default_substituter] *)
Definition default_substituter (template : string)
    (child_answers : list (NodeId * string)) : string :=
  fold_left (fun out item => replace (placeholder item.1) item.2 out)
    child_answers template.

(** The closure [dfs] of [_postorder]; the state is [(visited, order)]. *)
Definition postorder_dfs_loop
    (rec : NodeId → gset Z * list NodeId → result (gset Z * list NodeId))
    : list NodeId → gset Z * list NodeId → result (gset Z * list NodeId) :=
  fix loop cs st :=
    match cs with
    | [] => Ok st
    | c :: cs' => st' ← rec c st; loop cs' st'
    end.

Fixpoint postorder_dfs (budget : nat) (ch : list (NodeId * list NodeId))
    (n : NodeId) (st : gset Z * list NodeId) : result (gset Z * list NodeId) :=
  if bool_decide (n ∈ st.1) then Ok st
  else
    match budget with
    | O => Raise OutOfBudget
    | S budget' =>
        st2 ← postorder_dfs_loop (postorder_dfs budget' ch) (get_children ch n)
                ({[n]} ∪ st.1, st.2);
        Ok (st2.1, st2.2 ++ [n])
    end.

(** [_postorder] *)
Definition postorder (t : ToQ) : result (list NodeId) :=
  st ← postorder_dfs (length (nodes t)) (children t) (root_id t) (∅, []);
  Ok st.2.

(** [{cid: answers[cid].text for cid in child_ids}] *)
Fixpoint child_answer_texts (answers : list (NodeId * Answer))
    (child_ids : list NodeId) (acc : list (NodeId * string))
    : result (list (NodeId * string)) :=
  match child_ids with
  | [] => Ok acc
  | cid :: rest =>
      a ← subscript answers cid;
      child_answer_texts answers rest (PyDict.set acc cid (answer_text a))
  end.

Section Evaluate.
Context {W : Type}.
Variable answerer : string → option string → W → Answer * W.
Variable substituter : option (string → list (NodeId * string) → string).
Variable context : option string.

(** The body of the loop [for nid in order], on the two dictionaries under
    construction. *)
Definition evaluate_node (t : ToQ) (ch : list (NodeId * list NodeId))
    (sub : string → list (NodeId * string) → string)
    (tr : EvalTrace) (nid : NodeId) : M W EvalTrace :=
  node ← lift (subscript (nodes t) nid);
  let template := node_text node in
  let child_ids := get_children ch nid in
  child_ans_text ← lift (child_answer_texts (answer tr) child_ids []);
  let q := if bool_decide (length child_ids = 0%nat) then template
           else sub template child_ans_text in
  a ← call (answerer q context);
  mret (mkEvalTrace (PyDict.set (rendered_question tr) nid q)
                    (PyDict.set (answer tr) nid a)).

Fixpoint evaluate_loop (t : ToQ) (ch : list (NodeId * list NodeId))
    (sub : string → list (NodeId * string) → string)
    (order : list NodeId) (tr : EvalTrace) : M W EvalTrace :=
  match order with
  | [] => mret tr
  | nid :: rest =>
      tr' ← evaluate_node t ch sub tr nid;
      evaluate_loop t ch sub rest tr'
  end.

(** [evaluate_toq] *)
Definition evaluate_toq (t : ToQ) : M W EvalTrace :=
  _ ← lift (validate t);
  let sub := default default_substituter substituter in
  let ch := children t in
  order ← lift (postorder t);
  evaluate_loop t ch sub order (mkEvalTrace [] []).
End Evaluate.

(** The recording answerer of the test-suite: it wraps an answerer and appends
    every [(question, context)] it is called with to a log. *)
Definition recording_answerer {W} (answerer : string → option string → W → Answer * W)
    : string → option string → W * list (string * option string)
      → Answer * (W * list (string * option string)) :=
  fun q ctx w =>
    let (a, w') := answerer q ctx w.1 in
    (a, (w', w.2 ++ [(q, ctx)])).

(** ** [transforms.py]

    The module is imported by [consistency.py] and by the tests, but is not
    part of the sources at hand.  The records are read off their uses
    ([CollapsePlan(cut_edges=...)] in the tests, the keyword arguments of
    [CollapsedToQ(...)] in [run_consistency_check]); the four functions are
    modelled from the specification. *)

Record CollapsePlan : Type := mkCollapsePlan {
  cut_edges : list NodeId;
}.

Record CollapsedToQ : Type := mkCollapsedToQ {
  collapsed_toq : ToQ;
  collapsed_plan : CollapsePlan;
  removed_nodes : gset Z;
  collapsed_question_by_root : list (NodeId * string);
  collapsed_component_roots : list NodeId;
  open_toq_by_root : option (list (NodeId * OpenToQ));
}.

(** The parent link of [w] in [t]: [t.nodes[w].parent], if any. *)
Definition parent_of (t : ToQ) (w : NodeId) : option NodeId :=
  node ← PyDict.get (nodes t) w; node_parent node.

(** The subsets of a list, as sub-lists, in ascending lexicographic order. *)
Fixpoint lex_subsets (l : list NodeId) : list (list NodeId) :=
  match l with
  | [] => [[]]
  | x :: r => [] :: ((cons x <$> lex_subsets r) ++ tail (lex_subsets r))
  end.

(** The non-root node ids, in the order the plans are built from. *)
Definition non_root_ids (t : ToQ) : list NodeId :=
  merge_sort Z.le (filter (fun nid => nid ≠ root_id t) (PyDict.keys (nodes t))).

(** Modelled from the spec: [enumerate_collapse_plans] (section 4.2), absent
    from the sources.  "Returns every subset of the tree's non-root node
    identifiers, each wrapped as a CollapsePlan, in a fixed deterministic
    order (ascending by the sorted tuple of cut ids ...); when
    [include_empty] is false, the plan with an empty cut set is omitted." *)
Definition enumerate_collapse_plans (t : ToQ) (include_empty : bool) : list CollapsePlan :=
  let subsets := lex_subsets (non_root_ids t) in
  mkCollapsePlan <$>
    (if include_empty then subsets else filter (fun s => s ≠ []) subsets).

(** Modelled from the spec: [component_roots] (section 4.3), absent from the
    sources.  "[component_roots(tree, plan)] = {tree.root} ∪ plan.cut_ids;
    fails with a PlanError 'root id cannot be a cut edge' if the root id
    appears in the plan's cut set, and 'node X not in tree' if any cut id is
    absent from the tree."  The set is handed over in the order it iterates. *)
Definition component_roots (t : ToQ) (plan : CollapsePlan) : result (list NodeId) :=
  if bool_decide (root_id t ∈ cut_edges plan) then Raise PlanRootCut
  else
    match filter (fun c => PyDict.mem (nodes t) c = false) (cut_edges plan) with
    | c :: _ => Raise (PlanNodeMissing c)
    | [] => Ok (elements ({[root_id t]} ∪ list_to_set (cut_edges plan) : gset Z))
    end.

(** The downward traversal of [extract_open_toq]; the state is
    [(included, inputs)]. *)
Definition component_walk_loop
    (rec : NodeId → list NodeId * list NodeId → result (list NodeId * list NodeId))
    (cuts : list NodeId)
    : list NodeId → list NodeId * list NodeId → result (list NodeId * list NodeId) :=
  fix loop cs st :=
    match cs with
    | [] => Ok st
    | c :: cs' =>
        if bool_decide (c ∈ cuts) then loop cs' (st.1, st.2 ++ [c])
        else st' ← rec c st; loop cs' st'
    end.

Fixpoint component_walk (budget : nat) (ch : list (NodeId * list NodeId))
    (cuts : list NodeId) (u : NodeId) (st : list NodeId * list NodeId)
    : result (list NodeId * list NodeId) :=
  match budget with
  | O => Raise OutOfBudget
  | S budget' =>
      component_walk_loop (component_walk budget' ch cuts) cuts
        (get_children ch u) (st.1 ++ [u], st.2)
  end.

(** Modelled from the spec: [extract_open_toq] (section 4.3), absent from the
    sources.  "Computes the component owned by [root] via downward traversal
    from [root], including a node iff every node on the path from [root] to it
    (exclusive of [root]) is not itself a cut id; a child that is a cut id is
    excluded from the component and instead recorded as one of the component's
    input ids (sorted ascending).  The returned OpenToQ's internal tree retains
    only the included nodes' original texts and intra-component parent links;
    its [root_id] equals [root]." *)
Definition extract_open_toq (t : ToQ) (plan : CollapsePlan) (root : NodeId)
    : result OpenToQ :=
  st ← component_walk (length (nodes t)) (children t) (cut_edges plan) root ([], []);
  let included := st.1 in
  let restrict (item : NodeId * ToQNode) :=
    (item.1,
     mkToQNode (node_id item.2) (node_text item.2)
       (p ← node_parent item.2;
        if bool_decide (item.1 ≠ root ∧ p ∈ included) then Some p else None)) in
  let sub := restrict <$> filter (fun item => item.1 ∈ included) (nodes t) in
  Ok (mkOpenToQ (mkToQ sub root) (merge_sort Z.le st.2) root).

(** Walking from [w] toward the root: the first component root met, [w]
    included. *)
Fixpoint nearest_component_root (budget : nat) (t : ToQ) (roots : list NodeId)
    (w : NodeId) : option NodeId :=
  if bool_decide (w ∈ roots) then Some w
  else
    match budget with
    | O => None
    | S budget' => p ← parent_of t w; nearest_component_root budget' t roots p
    end.

(** The parent of a component root in the quotient: "the nearest ancestor of
    its original parent that is itself a component root, or none if the node
    is the tree's root". *)
Definition quotient_parent (t : ToQ) (roots : list NodeId) (r : NodeId) : option NodeId :=
  if bool_decide (r = root_id t) then None
  else p ← parent_of t r; nearest_component_root (length (nodes t)) t roots p.

(** The loop of [apply_collapse_plan] that builds the quotient's nodes. *)
Fixpoint quotient_nodes (t : ToQ) (all_roots : list NodeId)
    (cq : list (NodeId * string)) (rs : list NodeId)
    (acc : list (NodeId * ToQNode)) : result (list (NodeId * ToQNode)) :=
  match rs with
  | [] => Ok acc
  | r :: rest =>
      match PyDict.get cq r with
      | None => Raise (PlanMissingQuestion r)
      | Some q =>
          quotient_nodes t all_roots cq rest
            (PyDict.set acc r (mkToQNode r q (quotient_parent t all_roots r)))
      end
  end.

(** Modelled from the spec: [apply_collapse_plan] (section 4.4), absent from
    the sources.  "Node set = [component_roots(tree, plan)]; each node's text =
    [collapsed_question_by_root[r]], failing with PlanError 'missing collapsed
    question for component root R' if any required root is absent from the
    mapping; each node's parent = the nearest ancestor of its original parent
    that is itself a component root, or none if the node is the tree's root;
    [removed_nodes] = all node ids minus the component-root set." *)
Definition apply_collapse_plan (t : ToQ) (plan : CollapsePlan)
    (cq : list (NodeId * string)) : result CollapsedToQ :=
  roots ← component_roots t plan;
  ns ← quotient_nodes t roots cq roots [];
  Ok {| collapsed_toq := mkToQ ns (root_id t);
        collapsed_plan := plan;
        removed_nodes := list_to_set (PyDict.keys (nodes t)) ∖ list_to_set roots;
        collapsed_question_by_root := cq;
        collapsed_component_roots := roots;
        open_toq_by_root := None |}.

(** ** [consistency.py] *)

Record RunRecord : Type := mkRunRecord {
  rec_plan : CollapsePlan;
  rec_collapsed : CollapsedToQ;
  rec_trace : EvalTrace;
  rec_root_answer : Answer;
  rec_normalized_root : option string;
}.

Record ConsistencyReport : Type := mkConsistencyReport {
  base_trace : EvalTrace;
  base_root_answer : Answer;
  runs : list RunRecord;
  summary : list (string * string);
}.

(** The keys of the cache: [("collapsed_question_open_toq", r, inputs)]. *)
Abbreviation CacheKey := (string * NodeId * list NodeId)%type (only parsing).

Definition cache_key (r : NodeId) (o : OpenToQ) : CacheKey :=
  ("collapsed_question_open_toq", r, open_inputs o).

(** An oracle acting on the world, seen from a computation that also carries
    the cache. *)
Definition on_world {W C A} (f : W → A * W) : W * C → A * (W * C) :=
  fun st => let (a, w') := f st.1 in (a, (w', st.2)).

Section Consistency.
Context {W : Type}.
(** The functions of [transforms.py]. *)
Variable enumerate_plans : ToQ → bool → list CollapsePlan.
Variable comp_roots : ToQ → CollapsePlan → result (list NodeId).
Variable extract_open : ToQ → CollapsePlan → NodeId → result OpenToQ.
Variable apply_plan : ToQ → CollapsePlan → list (NodeId * string) → result CollapsedToQ.
(** The oracles. *)
Variable answerer : string → option string → W → Answer * W.
Variable collapser : OpenToQ → option string → W → string * W.
Variable normalizer : option (string → W → string * W).
Variable substituter : option (string → list (NodeId * string) → string).
Variable context : option string.

Definition RunState : Type := W * gmap CacheKey string.

(** The cache lookup of the inner loop: the collapser is called on a miss
    only, and its result stored. *)
Definition cached_collapse (r : NodeId) (o : OpenToQ) : M RunState string :=
  fun st =>
    match st.2 !! cache_key r o with
    | Some cq => (Ok cq, st)
    | None =>
        let (cq, w') := collapser o context st.1 in
        (Ok cq, (w', <[cache_key r o := cq]> st.2))
    end.

(** The body of [for r in roots], on the two per-plan dictionaries. *)
Definition collapse_component (t : ToQ) (plan : CollapsePlan)
    (acc : list (NodeId * OpenToQ) * list (NodeId * string)) (r : NodeId)
    : M RunState (list (NodeId * OpenToQ) * list (NodeId * string)) :=
  o ← lift (extract_open t plan r);
  cq ← cached_collapse r o;
  mret (PyDict.set acc.1 r o, PyDict.set acc.2 r cq).

Fixpoint collapse_components (t : ToQ) (plan : CollapsePlan) (rs : list NodeId)
    (acc : list (NodeId * OpenToQ) * list (NodeId * string))
    : M RunState (list (NodeId * OpenToQ) * list (NodeId * string)) :=
  match rs with
  | [] => mret acc
  | r :: rest =>
      acc' ← collapse_component t plan acc r;
      collapse_components t plan rest acc'
  end.

(** The body of [for plan in plans]. *)
Definition run_plan (t : ToQ) (plan : CollapsePlan) : M RunState RunRecord :=
  roots ← lift (comp_roots t plan);
  by_root ← collapse_components t plan roots ([], []);
  collapsed ← lift (apply_plan t plan by_root.2);
  (* provenance: the record declares [open_toq_by_root] *)
  let collapsed :=
    mkCollapsedToQ (collapsed_toq collapsed) (collapsed_plan collapsed)
      (removed_nodes collapsed) (collapsed_question_by_root collapsed)
      (collapsed_component_roots collapsed) (Some by_root.1) in
  trace ← evaluate_toq (fun q c => on_world (answerer q c)) substituter context (collapsed_toq collapsed);
  root_answer ← lift (subscript (answer trace) (root_id (collapsed_toq collapsed)));
  normalized ← match normalizer with
                | Some f => n ← call (on_world (f (answer_text root_answer))); mret (Some n)
                | None => mret None
                end;
  mret (mkRunRecord plan collapsed trace root_answer normalized).

Fixpoint run_plans (t : ToQ) (plans : list CollapsePlan) (acc : list RunRecord)
    : M RunState (list RunRecord) :=
  match plans with
  | [] => mret acc
  | plan :: rest =>
      r ← run_plan t plan;
      run_plans t rest (acc ++ [r])
  end.

(** [run_consistency_check].  A supplied cache is updated in place: the
    final state holds the world and the cache as the call leaves them. *)
Definition run_consistency_check (t : ToQ)
    (plan_opts : option (list (string * bool)))
    (cache : option (gmap CacheKey string))
    (w : W) : result ConsistencyReport * RunState :=
  (_ ← lift (validate t);
   base ← evaluate_toq (fun q c => on_world (answerer q c)) substituter context t;
   base_root ← lift (subscript (answer base) (root_id t));
   let include_empty :=
     match plan_opts with
     | Some opts => default true (PyDict.get opts "include_empty")
     | None => true
     end in
   let plans := enumerate_plans t include_empty in
   rs ← run_plans t plans [];
   mret (mkConsistencyReport base base_root rs []))
  (w, default ∅ cache).
End Consistency.

(** The recording collapser of the test-suite: it wraps a collapser and appends
    every open sub-tree it is called with to a log. *)
Definition recording_collapser {W} (collapser : OpenToQ → option string → W → string * W)
    : OpenToQ → option string → W * list OpenToQ → string * (W * list OpenToQ) :=
  fun o ctx w =>
    let (cq, w') := collapser o ctx w.1 in
    (cq, (w', w.2 ++ [o])).

(** ** Vocabulary of the statements *)

(** [ancestor t k w]: the node reached from [w] after [k] parent links. *)
Fixpoint ancestor (t : ToQ) (k : nat) (w : NodeId) : option NodeId :=
  match k with
  | O => Some w
  | S k' => p ← parent_of t w; ancestor t k' p
  end.

(** [u] is [w] or one of its ancestors: [w] lies in the sub-tree below [u]. *)
Definition descends (t : ToQ) (u w : NodeId) : Prop :=
  ∃ k, ancestor t k w = Some u.

Definition node_ids (t : ToQ) : list NodeId := PyDict.keys (nodes t).

(** The structural violations that [validate] looks for. *)
Definition root_absent (t : ToQ) : Prop := root_id t ∉ node_ids t.

Definition key_mismatch (t : ToQ) : Prop :=
  ∃ nid node, (nid, node) ∈ nodes t ∧ node_id node ≠ nid.

Definition self_parent (t : ToQ) : Prop :=
  ∃ nid node, (nid, node) ∈ nodes t ∧ node_parent node = Some nid.

Definition dangling_parent (t : ToQ) : Prop :=
  ∃ nid node p, (nid, node) ∈ nodes t ∧ node_parent node = Some p ∧ p ∉ node_ids t.

(** More than one node has no parent, or the designated root is not the
    unique parentless node. *)
Definition bad_root (t : ToQ) : Prop :=
  (∃ nid node, (nid, node) ∈ nodes t ∧ node_parent node = None ∧ nid ≠ root_id t)
  ∨ (∃ node p, (root_id t, node) ∈ nodes t ∧ node_parent node = Some p).

Definition parent_cycle (t : ToQ) : Prop :=
  ∃ w k, w ∈ node_ids t ∧ (0 < k)%nat ∧ ancestor t k w = Some w.

Definition unreachable_node (t : ToQ) : Prop :=
  ∃ w, w ∈ node_ids t ∧ ¬ descends t (root_id t) w.

Definition violation (t : ToQ) : Prop :=
  root_absent t ∨ key_mismatch t ∨ self_parent t ∨ dangling_parent t
  ∨ bad_root t ∨ parent_cycle t ∨ unreachable_node t.

(** What the per-node loop and the root checks of [validate] establish,
    before the traversal starts. *)
Record checked (t : ToQ) : Prop := mkChecked {
  ck_root_in : root_id t ∈ node_ids t;
  ck_ids : ∀ nid node, (nid, node) ∈ nodes t → node_id node = nid;
  ck_parent_in : ∀ w p, parent_of t w = Some p → p ∈ node_ids t;
  ck_no_self : ∀ w, parent_of t w ≠ Some w;
  ck_root : parent_of t (root_id t) = None;
  ck_one_root : ∀ w, w ∈ node_ids t → parent_of t w = None → w = root_id t;
}.

(** A well-formed tree: the checks hold and every node reaches the root by
    following parent links. *)
Definition well_formed (t : ToQ) : Prop :=
  checked t ∧ ∀ w, w ∈ node_ids t → descends t (root_id t) w.

(** The violation that an exception of [validate] reports. *)
Definition reported (t : ToQ) (e : exn) : Prop :=
  match e with
  | RootNotInNodes r => r = root_id t ∧ root_absent t
  | KeyMismatch nid i =>
      ∃ node, (nid, node) ∈ nodes t ∧ node_id node = i ∧ i ≠ nid
  | MissingParent nid p =>
      ∃ node, (nid, node) ∈ nodes t ∧ node_parent node = Some p ∧ p ∉ node_ids t
  | SelfParent nid => ∃ node, (nid, node) ∈ nodes t ∧ node_parent node = Some nid
  | RootHasParent r =>
      r = root_id t ∧ ∃ node p, (r, node) ∈ nodes t ∧ node_parent node = Some p
  | NotOneRoot roots =>
      roots = parentless (nodes t) ∧ ∃ nid, nid ∈ roots ∧ nid ≠ root_id t
  | Unreachable r l =>
      r = root_id t ∧ unreachable_node t ∧
      ∀ w, w ∈ l ↔ w ∈ node_ids t ∧ ¬ descends t (root_id t) w
  | _ => False
  end.


(** ** Auxiliary definitions of the proofs *)

(** The children of [u], read off the dictionary of nodes. *)
Definition kids_of (items : list (NodeId * ToQNode)) (u : NodeId) : list NodeId :=
  (filter (fun item : NodeId * ToQNode => node_parent item.2 = Some u) items).*1.

(** The node ids as a set. *)
Definition node_set (t : ToQ) : gset Z := list_to_set (node_ids t).

(** When [validate]'s [dfs(u)] is entered with the sets [V] (visited) and [S]
    (on the stack): [u] lies below the root, nothing below [u] has been
    visited, and the budget covers the nodes not yet visited. *)
Definition dfs_pre (t : ToQ) (u : NodeId) (V S : gset Z) (b : nat) : Prop :=
  descends t (root_id t) u ∧ (∀ w, descends t u w → w ∉ V) ∧ S ⊆ V
  ∧ (size (node_set t ∖ V) ≤ b)%nat.

(** When it returns: the sub-tree below [u] has been added to [V]. *)
Definition dfs_post (t : ToQ) (u : NodeId) (V V' : gset Z) : Prop :=
  ∀ w, w ∈ V' ↔ w ∈ V ∨ descends t u w.

(** [int()] on the canonical decimal numerals; the statements about
    [toq_from_json] are made for an arbitrary reading of [int()], and
    instantiated with this one. *)
Definition int_of_decimal (s : string) : option Z :=
  Z.of_int <$> NilZero.int_of_string s.

(** The node that a well-formed entry of the JSON form stands for. *)
Definition decode_entry (int_of_str : string → option Z)
    (kv : string * JsonEntry) : option (NodeId * ToQNode) :=
  nid ← int_of_str kv.1;
  match kv.2 with
  | JEntryOther => None
  | JEntry f =>
      i ← j_id f; tx ← j_text f;
      Some (nid, mkToQNode i tx (mjoin (j_parent f)))
  end.

(** The tree that a document stands for, when all its parts are there. *)
Definition resulting_tree (int_of_str : string → option Z) (obj : JsonToQ) : option ToQ :=
  root ← j_root_id obj;
  match j_nodes obj with
  | Some (JNodes entries) =>
      ns ← mapM (decode_entry int_of_str) entries;
      Some (mkToQ (PyDict.of_list ns) root)
  | _ => None
  end.

(** The grounds on which [toq_from_json] rejects a document. *)
Definition json_missing_keys (obj : JsonToQ) : Prop :=
  j_root_id obj = None ∨ j_nodes obj = None.

Definition json_nodes_not_mapping (obj : JsonToQ) : Prop :=
  j_nodes obj = Some JNodesOther.

Definition json_bad_key (int_of_str : string → option Z) (obj : JsonToQ) : Prop :=
  ∃ entries k v, j_nodes obj = Some (JNodes entries) ∧ (k, v) ∈ entries
                 ∧ int_of_str k = None.

Definition json_entry_not_mapping (obj : JsonToQ) : Prop :=
  ∃ entries k, j_nodes obj = Some (JNodes entries) ∧ (k, JEntryOther) ∈ entries.

Definition json_missing_field (obj : JsonToQ) : Prop :=
  ∃ entries k f, j_nodes obj = Some (JNodes entries) ∧ (k, JEntry f) ∈ entries
                 ∧ (j_id f = None ∨ j_text f = None).

Definition json_fails_validation (int_of_str : string → option Z) (obj : JsonToQ) : Prop :=
  ∃ t, resulting_tree int_of_str obj = Some t ∧ raises (validate t).

(** The grounds of rejection that section 6 of the specification lists. *)
Definition json_rejected_as_listed (int_of_str : string → option Z) (obj : JsonToQ) : Prop :=
  json_missing_keys obj ∨ json_nodes_not_mapping obj ∨ json_bad_key int_of_str obj
  ∨ json_missing_field obj ∨ json_fails_validation int_of_str obj.

(** The document [{"root_id": 1, "nodes": {"1": 5}}], as far as it is read. *)
Definition json_entry_is_number : JsonToQ :=
  mkJsonToQ (Some 1) (Some (JNodes [("1", JEntryOther)])).

(** The document [{"nodes": {}}]. *)
Definition json_no_root : JsonToQ := mkJsonToQ None (Some (JNodes [])).

(** Templates cut into pieces: literal text and placeholders. *)
Inductive piece : Type :=
  | Lit (s : string)
  | Hole (cid : NodeId).

(** The template that a list of pieces spells. *)
Fixpoint render (ps : list piece) : string :=
  match ps with
  | [] => EmptyString
  | Lit s :: r => s ++ render r
  | Hole c :: r => placeholder c ++ render r
  end.

(** The pieces spelled with every placeholder of a child of the mapping
    replaced by that child's answer, all at once. *)
Fixpoint fill (m : list (NodeId * string)) (ps : list piece) : string :=
  match ps with
  | [] => EmptyString
  | Lit s :: r => s ++ fill m r
  | Hole c :: r => default (placeholder c) (PyDict.get m c) ++ fill m r
  end.

(** [c in s] for a character. *)
Fixpoint occurs (c : Ascii.ascii) (s : string) : bool :=
  match s with
  | EmptyString => false
  | String c' s' => if Ascii.eqb c' c then true else occurs c s'
  end.

(** A text without an opening bracket. *)
Definition plain (s : string) : Prop := occurs "["%char s = false.

Definition plain_piece (p : piece) : Prop :=
  match p with Lit s => plain s | Hole _ => True end.

(** One step of [default_substituter], on pieces: the placeholders of [c]
    become the literal [a]. *)
Definition fill_one (c : NodeId) (a : string) (p : piece) : piece :=
  match p with
  | Hole d => if bool_decide (d = c) then Lit a else Hole d
  | Lit s => Lit s
  end.

(** [x] occurs before [y] in [l]. *)
Definition before (l : list NodeId) (x y : NodeId) : Prop :=
  ∃ l1 l2 l3, l = l1 ++ x :: l2 ++ y :: l3.

(** A post-order listing of the sub-tree below [u]: each node of the sub-tree
    once, every child before its parent, [u] last. *)
Definition postorder_of (t : ToQ) (u : NodeId) (l : list NodeId) : Prop :=
  NoDup l ∧ (∀ w, w ∈ l ↔ descends t u w)
  ∧ (∀ c p, parent_of t c = Some p → c ∈ l → p ∈ l → before l c p)
  ∧ ∃ l', l = l' ++ [u].

(** The same for the sub-trees below a list of siblings, one after the other. *)
Definition postorder_of_all (t : ToQ) (vs : list NodeId) (l : list NodeId) : Prop :=
  NoDup l ∧ (∀ w, w ∈ l ↔ ∃ v, v ∈ vs ∧ descends t v w)
  ∧ (∀ c p, parent_of t c = Some p → c ∈ l → p ∈ l → before l c p).

(** The answers to a list of questions asked one after the other. *)
Fixpoint answer_all {W} (answerer : string → option string → W → Answer * W)
    (context : option string) (qs : list string) (w : W) : list Answer * W :=
  match qs with
  | [] => ([], w)
  | q :: qs' =>
      let (a, w1) := answerer q context w in
      let (rest, w2) := answer_all answerer context qs' w1 in
      (a :: rest, w2)
  end.

(** The mapping from child id to child answer text, for the children [cs]. *)
Definition child_answers_of (answers : list (NodeId * Answer)) (cs : list NodeId)
    : list (NodeId * string) :=
  omap (fun c => a ← PyDict.get answers c; Some (c, answer_text a)) cs.

(** The question of node [n]: its template if it is a leaf, else the
    substituter applied to the template and its children's answers. *)
Definition question_at (t : ToQ) (sub : string → list (NodeId * string) → string)
    (answers : list (NodeId * Answer)) (n : NodeId) : option string :=
  node ← PyDict.get (nodes t) n;
  let cs := get_children (children t) n in
  Some (if bool_decide (length cs = 0%nat) then node_text node
        else sub (node_text node) (child_answers_of answers cs)).

(** The toy oracles of the test-suite. *)
Definition toy_answerer : string → option string → unit → Answer * unit :=
  fun q _ w => (mkAnswer ("ANS(" ++ q ++ ")") None, w).

Definition toy_collapser : OpenToQ → option string → unit → string * unit :=
  fun o _ w => (String.append "COLLAPSED(" (str_of_int (open_root_id o) ++ ")"), w).

(** [w] lies in the component of [r]: [r] is reached from [w] through parent
    links, and no node on the way, [r] apart, is a cut id. *)
Definition in_component (t : ToQ) (cuts : list NodeId) (r w : NodeId) : Prop :=
  ∃ k, ancestor t k w = Some r
       ∧ ∀ j x, (j < k)%nat → ancestor t j w = Some x → x ∉ cuts.

(** [r] is the first component root met walking from [w] toward the root,
    [w] included. *)
Definition first_component_root (t : ToQ) (roots : list NodeId) (w r : NodeId) : Prop :=
  ∃ k, ancestor t k w = Some r ∧ r ∈ roots
       ∧ ∀ j x, (j < k)%nat → ancestor t j w = Some x → x ∉ roots.

(** The nodes met walking [d] parent links up from [u]. *)
Fixpoint chain (t : ToQ) (d : nat) (u : NodeId) : list NodeId :=
  u :: match d with
       | O => []
       | S d' => match parent_of t u with Some p => chain t d' p | None => [] end
       end.

(** A plan that cuts edges of the tree: its cut ids are non-root nodes. *)
Definition plan_of_tree (t : ToQ) (plan : CollapsePlan) : Prop :=
  ∀ c, c ∈ cut_edges plan → c ∈ node_ids t ∧ c ≠ root_id t.


(** The quotient tree built from the collapsed questions [texts], one per
    component root. *)
Definition quotient_of (t : ToQ) (roots : list NodeId)
    (texts : list (NodeId * string)) : ToQ :=
  mkToQ ((fun rq : NodeId * string =>
            (rq.1, mkToQNode rq.1 rq.2 (quotient_parent t roots rq.1))) <$> texts)
        (root_id t).

(** The state of an orchestrator run whose collapser records its calls: the
    world, the log of open sub-trees the collapser was called with, the
    cache. *)
Abbreviation LoggedState W := ((W * list OpenToQ) * gmap CacheKey string)%type (only parsing).

(** The key under which the collapsed question of an open sub-tree is cached. *)
Definition call_key (o : OpenToQ) : CacheKey := cache_key (open_root_id o) o.

(** [st'] comes after [st] in a run: the collapser was called on [new], each
    time for a key that the cache did not hold, no key twice, and the cache
    has only grown, by these keys. *)
Definition extends {W} (st st' : LoggedState W) : Prop :=
  ∃ new, st'.1.2 = st.1.2 ++ new
         ∧ st.2 ⊆ st'.2
         ∧ NoDup (call_key <$> new)
         ∧ (∀ o, o ∈ new → st.2 !! call_key o = None)
         ∧ (∀ k, is_Some (st'.2 !! k) ↔ is_Some (st.2 !! k) ∨ k ∈ call_key <$> new).

(** Every state that a computation leaves is related to the one it started
    from. *)
Definition steps {St A} (R : St → St → Prop) (m : M St A) : Prop :=
  ∀ st, R st (m st).2.

(** The oracles of an instrumented run, over a world extended with the log. *)
Definition logged_answerer {W} (answerer : string → option string → W → Answer * W)
    : string → option string → W * list OpenToQ → Answer * (W * list OpenToQ) :=
  fun q c => on_world (answerer q c).

Definition logged_normalizer {W} (normalizer : option (string → W → string * W))
    : option (string → W * list OpenToQ → string * (W * list OpenToQ)) :=
  (fun f s => on_world (f s)) <$> normalizer.

(** The two-node chain of the examples: node 1 below the root 2. *)
Definition toq_chain : ToQ :=
  mkToQ [(1, mkToQNode 1 "When did WW2 end?" (Some 2));
         (2, mkToQNode 2 "Who was President at time [A1]?" None)] 2.

(** The custom substituter of the evaluator's tests, for one child. *)
Definition summary_substituter (template : string)
    (child_answers : list (NodeId * string)) : string :=
  String.append template
    (String.append " CHILDREN: "
       (String.concat "; "
          ((fun item : NodeId * string =>
              String.append (str_of_int item.1) (String.append "=" item.2))
           <$> child_answers))).

(** The three checks of the per-node loop of [validate], on one item. *)
Definition node_checks_pass (all : list (NodeId * ToQNode))
    (item : NodeId * ToQNode) : Prop :=
  node_id item.2 = item.1
  ∧ ∀ p, node_parent item.2 = Some p → p ∈ PyDict.keys all ∧ p ≠ item.1.

(** The exception of [validate] is for the first check that fails, in the
    order in which the checks are made: root id, then node after node in the
    order of the dictionary (id, parent present, self-parent), then the parent
    of the root, the count of parentless nodes, and last the traversal. *)
Definition first_found (t : ToQ) (e : exn) : Prop :=
  match e with
  | RootNotInNodes _ => True
  | KeyMismatch nid _ =>
      ¬ root_absent t
      ∧ ∃ pre node post, nodes t = pre ++ (nid, node) :: post
                         ∧ Forall (node_checks_pass (nodes t)) pre
  | MissingParent nid _ =>
      ¬ root_absent t
      ∧ ∃ pre node post, nodes t = pre ++ (nid, node) :: post
                         ∧ Forall (node_checks_pass (nodes t)) pre
                         ∧ node_id node = nid
  | SelfParent nid =>
      ¬ root_absent t
      ∧ ∃ pre node post, nodes t = pre ++ (nid, node) :: post
                         ∧ Forall (node_checks_pass (nodes t)) pre
                         ∧ node_id node = nid
  | RootHasParent _ =>
      ¬ root_absent t ∧ Forall (node_checks_pass (nodes t)) (nodes t)
  | NotOneRoot _ =>
      ¬ root_absent t ∧ Forall (node_checks_pass (nodes t)) (nodes t)
      ∧ parent_of t (root_id t) = None
  | Unreachable _ _ => checked t
  | _ => True
  end.

(** Goals that a computation decides. *)
Ltac by_compute := apply (bool_decide_unpack _); vm_compute; reflexivity.


(** * The entry point from a question, the collapsers and the loaders *)

(** A computation returned a value. *)
Definition returned {A} (r : result A) : bool :=
  match r with Ok _ => true | Raise _ => false end.

(** ** [consistency.py], continued *)

(** [include_empty], as [run_consistency_check] reads it off [plan_opts]. *)
Definition include_empty_of (plan_opts : option (list (string * bool))) : bool :=
  match plan_opts with
  | Some opts => default true (PyDict.get opts "include_empty")
  | None => true
  end.

Section FromQuestion.
Context {W : Type}.
(** The functions of [transforms.py]. *)
Variable enumerate_plans : ToQ → bool → list CollapsePlan.
Variable comp_roots : ToQ → CollapsePlan → result (list NodeId).
Variable extract_open : ToQ → CollapsePlan → NodeId → result OpenToQ.
Variable apply_plan : ToQ → CollapsePlan → list (NodeId * string) → result CollapsedToQ.
(** The oracles, the decomposer among them. *)
Variable decomposer : string → option string → W → ToQ * W.
Variable answerer : string → option string → W → Answer * W.
Variable collapser : OpenToQ → option string → W → string * W.
Variable normalizer : option (string → W → string * W).
Variable substituter : option (string → list (NodeId * string) → string).
Variable context : option string.

(** [run_consistency_check_from_question] *)
Definition run_consistency_check_from_question (question : string)
    (plan_opts : option (list (string * bool)))
    (cache : option (gmap CacheKey string))
    (w : W) : result ConsistencyReport * RunState (W:=W) :=
  let (toq, w1) := decomposer question context w in
  match validate toq with
  | Raise e => (Raise e, (w1, default ∅ cache))
  | Ok _ =>
      run_consistency_check enumerate_plans comp_roots extract_open apply_plan
        answerer collapser normalizer substituter context toq plan_opts cache w1
  end.
End FromQuestion.

(** ** Instrumented oracles

    The recording doubles of the test-suite, all three at once: the world of
    the oracles, with the questions the answerer was asked, the open sub-trees
    the collapser was called with, and the texts the normalizer was given. *)
Record Probe (W : Type) : Type := mkProbe {
  probe_world : W;
  asked : list (string * option string);
  collapsed_calls : list OpenToQ;
  normalized_calls : list string;
}.
Arguments mkProbe {W} _ _ _ _.
Arguments probe_world {W} _.
Arguments asked {W} _.
Arguments collapsed_calls {W} _.
Arguments normalized_calls {W} _.

Definition probe_answerer {W} (answerer : string → option string → W → Answer * W)
    : string → option string → Probe W → Answer * Probe W :=
  fun q c p =>
    let (a, w') := answerer q c (probe_world p) in
    (a, mkProbe w' (asked p ++ [(q, c)]) (collapsed_calls p) (normalized_calls p)).

Definition probe_collapser {W} (collapser : OpenToQ → option string → W → string * W)
    : OpenToQ → option string → Probe W → string * Probe W :=
  fun o c p =>
    let (cq, w') := collapser o c (probe_world p) in
    (cq, mkProbe w' (asked p) (collapsed_calls p ++ [o]) (normalized_calls p)).

Definition probe_normalizer {W} (normalizer : option (string → W → string * W))
    : option (string → Probe W → string * Probe W) :=
  (fun (f : string → W → string * W) (s : string) (p : Probe W) =>
     let (n, w') := f s (probe_world p) in
     (n, mkProbe w' (asked p) (collapsed_calls p) (normalized_calls p ++ [s])))
  <$> normalizer.

(** The cache holds an entry for every (component root, inputs) pair that the
    enumerated plans induce on the tree. *)
Definition cache_covers (enumerate_plans : ToQ → bool → list CollapsePlan)
    (comp_roots : ToQ → CollapsePlan → result (list NodeId))
    (extract_open : ToQ → CollapsePlan → NodeId → result OpenToQ)
    (t : ToQ) (include_empty : bool) (cache : gmap CacheKey string) : Prop :=
  ∀ plan roots r o,
    plan ∈ enumerate_plans t include_empty → comp_roots t plan = Ok roots →
    r ∈ roots → extract_open t plan r = Ok o →
    is_Some (cache !! cache_key r o).

(** Two computations do the same from every state that satisfies [P], and
    leave a state that satisfies [P]. *)
Definition agree {St A} (P : St → Prop) (m1 m2 : M St A) : Prop :=
  ∀ st, P st → m1 st = m2 st ∧ P (m1 st).2.

(** An instrumented run left the cache and the log of the collapser alone. *)
Definition cache_and_calls_kept {W} (st st' : Probe W * gmap CacheKey string) : Prop :=
  st'.2 = st.2 ∧ collapsed_calls st'.1 = collapsed_calls st.1.

(** The cache has only grown. *)
Definition cache_grown {W} (st st' : W * gmap CacheKey string) : Prop :=
  st.2 ⊆ st'.2.

(** The record that [apply_collapse_plan] returned, with the open sub-trees
    of the components attached, as [run_consistency_check] rebuilds it. *)
Definition with_open_toqs (c : CollapsedToQ) (opens : list (NodeId * OpenToQ))
    : CollapsedToQ :=
  mkCollapsedToQ (collapsed_toq c) (collapsed_plan c) (removed_nodes c)
    (collapsed_question_by_root c) (collapsed_component_roots c) (Some opens).

(** What the record [r] of a run is made of, given the cache that the whole
    invocation leaves: the quotient is the one [apply_collapse_plan] builds
    from the mapping [cqs], which holds, for each component root of the plan,
    the entry of the cache for the component's key; the open sub-trees
    attached are those of the components. *)
Definition run_made_of
    (comp_roots : ToQ → CollapsePlan → result (list NodeId))
    (extract_open : ToQ → CollapsePlan → NodeId → result OpenToQ)
    (apply_plan : ToQ → CollapsePlan → list (NodeId * string) → result CollapsedToQ)
    (t : ToQ) (cache' : gmap CacheKey string) (r : RunRecord) : Prop :=
  ∃ roots opens cqs c,
    comp_roots t (rec_plan r) = Ok roots
    ∧ apply_plan t (rec_plan r) cqs = Ok c
    ∧ rec_collapsed r = with_open_toqs c opens
    ∧ (∀ x, x ∈ PyDict.keys cqs ↔ x ∈ roots)
    ∧ ∀ root, root ∈ roots →
        ∃ o cq, extract_open t (rec_plan r) root = Ok o
                ∧ cache' !! cache_key root o = Some cq
                ∧ PyDict.get cqs root = Some cq
                ∧ PyDict.get opens root = Some o.

(** ** Text primitives of the interpreter

    A text is a sequence of characters with code points below 256.  [strip],
    [rstrip], [startswith], [split] and the character classes [\s] and [\d]
    are the interpreter's, on that alphabet. *)

(** [c.isspace()], which is also the class [\s]: the code points 9 to 13, 28
    to 32, 133 and 160. *)
Definition is_space (c : ascii) : bool :=
  let n := nat_of_ascii c in
  ((9 <=? n) && (n <=? 13) || (28 <=? n) && (n <=? 32)
   || (n =? 133) || (n =? 160))%nat.

(** [c] is a decimal digit, the class [\d]. *)
Definition is_digit (c : ascii) : bool :=
  let n := nat_of_ascii c in ((48 <=? n) && (n <=? 57))%nat.

(** [s.lstrip(chars)], for the characters that [f] accepts. *)
Fixpoint lstrip_with (f : ascii → bool) (s : string) : string :=
  match s with
  | EmptyString => EmptyString
  | String c s' => if f c then lstrip_with f s' else s
  end.

(** [s.rstrip(chars)], for the characters that [f] accepts. *)
Fixpoint rstrip_with (f : ascii → bool) (s : string) : string :=
  match s with
  | EmptyString => EmptyString
  | String c s' =>
      match rstrip_with f s' with
      | EmptyString => if f c then EmptyString else String c EmptyString
      | r => String c r
      end
  end.

(** [s.strip()] *)
Definition strip (s : string) : string :=
  rstrip_with is_space (lstrip_with is_space s).

(** ** [hotpot_collapser.py] *)

(** [HotpotCollapser.__call__], for the collapser built on
    [original_question]. *)
Definition hotpot_collapser (original_question : string) (o : OpenToQ)
    (context : option string) : result string :=
  match open_inputs o with
  | [] =>
      root_node ← subscript (nodes (open_toq o)) (open_root_id o);
      if bool_decide (1 < length (nodes (open_toq o)))%nat then Ok original_question
      else Ok (node_text root_node)
  | _ :: _ =>
      root_node ← subscript (nodes (open_toq o)) (open_root_id o);
      Ok (node_text root_node)
  end.

(** ** [hotpot_collapser_3step.py] *)

(** [_strip_q]: [text.rstrip("?").strip()] *)
Definition strip_q (text : string) : string :=
  strip (rstrip_with (Ascii.eqb "?") text).

(** The closure [post_order] of [_compose_open_toq]; the state is
    [(visited2, topo)]. *)
Definition post_order_loop
    (rec : NodeId → gset Z * list NodeId → result (gset Z * list NodeId))
    : list NodeId → gset Z * list NodeId → result (gset Z * list NodeId) :=
  fix loop vs st :=
    match vs with
    | [] => Ok st
    | v :: vs' =>
        st' ← (if bool_decide (v ∈ st.1) then Ok st else rec v st);
        loop vs' st'
    end.

Fixpoint post_order (budget : nat) (ch : list (NodeId * list NodeId))
    (u : NodeId) (st : gset Z * list NodeId) : result (gset Z * list NodeId) :=
  match budget with
  | O => Raise OutOfBudget
  | S budget' =>
      st2 ← post_order_loop (post_order budget' ch) (get_children ch u)
              ({[u]} ∪ st.1, st.2);
      Ok (st2.1, st2.2 ++ [u])
  end.

(** The loop [for ch_id in children.get(nid, [])] of [_compose_open_toq]: the
    resolved texts of the internal children are put into [text]. *)
Fixpoint compose_inline (external_ids : list NodeId)
    (resolved : list (NodeId * string)) (child_ids : list NodeId) (text : string)
    : result string :=
  match child_ids with
  | [] => Ok text
  | ch_id :: rest =>
      if bool_decide (ch_id ∈ external_ids) then
        compose_inline external_ids resolved rest text
      else
        r ← subscript resolved ch_id;
        compose_inline external_ids resolved rest
          (replace (placeholder ch_id) (strip_q r) text)
  end.

(** The loop [for nid in topo]. *)
Fixpoint compose_loop (toq : ToQ) (ch : list (NodeId * list NodeId))
    (external_ids : list NodeId) (topo : list NodeId)
    (resolved : list (NodeId * string)) : result (list (NodeId * string)) :=
  match topo with
  | [] => Ok resolved
  | nid :: rest =>
      node ← subscript (nodes toq) nid;
      text ← compose_inline external_ids resolved (get_children ch nid) (node_text node);
      compose_loop toq ch external_ids rest (PyDict.set resolved nid text)
  end.

(** [_compose_open_toq].  The children map is built by the loop of
    [ToQ.children]; the first traversal is the closure of [_postorder], and
    its result is not used; a traversal makes at most one call per node after
    the first, which the budget covers. *)
Definition compose_open_toq (o : OpenToQ) (original_question : string)
    : result string :=
  let toq := open_toq o in
  let external_ids := open_inputs o in
  let ch := children toq in
  _ ← postorder_dfs (S (length (nodes toq))) ch (open_root_id o) (∅, []);
  st ← post_order (S (length (nodes toq))) ch (open_root_id o) (∅, []);
  resolved ← compose_loop toq ch external_ids st.2 [];
  subscript resolved (open_root_id o).

(** [HotpotCollapser3Step.__call__], for the collapser built on
    [original_question]. *)
Definition hotpot_collapser_3step (original_question : string) (o : OpenToQ)
    (context : option string) : result string :=
  let toq := open_toq o in
  let n_nodes := length (nodes toq) in
  match open_inputs o with
  | [] =>
      if bool_decide (n_nodes = 1%nat) then
        root_node ← subscript (nodes toq) (open_root_id o);
        Ok (node_text root_node)
      else if bool_decide (n_nodes = 3%nat) then Ok original_question
      else compose_open_toq o original_question
  | _ :: _ =>
      if bool_decide (n_nodes = 1%nat) then
        root_node ← subscript (nodes toq) (open_root_id o);
        Ok (node_text root_node)
      else compose_open_toq o original_question
  end.

(** An answerer that gives every question back as its own answer, without its
    final question marks: the perfectly compositional model that the
    docstring of [hotpot_collapser_3step.py] speaks of. *)
Definition echo_answerer : string → option string → unit → Answer * unit :=
  fun q _ w => (mkAnswer (strip_q q) None, w).

(** ** [break_loader.py] and [break_loader_3step.py] *)

(** [c.upper()] for an ASCII character; the loaders are modelled on ASCII
    texts, where the upper-case form of a character is one character. *)
Definition upper_char (c : ascii) : ascii :=
  let n := nat_of_ascii c in
  if ((97 <=? n) && (n <=? 122))%nat then ascii_of_nat (n - 32) else c.

(** The characters of a text. *)
Fixpoint chars (s : string) : list ascii :=
  match s with
  | EmptyString => []
  | String c s' => c :: chars s'
  end.

(** The texts that the model of the loaders is made for. *)
Definition ascii_text (s : string) : Prop :=
  Forall (fun c => (nat_of_ascii c < 128)%nat) (chars s).

(** [sub in s] *)
Fixpoint is_substring (sub s : string) : bool :=
  String.prefix sub s
  || match s with
     | EmptyString => false
     | String _ s' => is_substring sub s'
     end.

(** The text after the prefix [p] of [s], letter case apart. *)
Fixpoint after_prefix_nocase (p s : string) : option string :=
  match p, s with
  | EmptyString, _ => Some s
  | String a p', String b s' =>
      if Ascii.eqb (upper_char a) (upper_char b) then after_prefix_nocase p' s'
      else None
  | String _ _, EmptyString => None
  end.

(** [re.sub(r"(?i)^return\s+", "", s)]: a leading [return], in any letter
    case, goes with the white space after it when there is some. *)
Definition drop_return (s : string) : string :=
  match after_prefix_nocase "return" s with
  | Some (String c rest) =>
      if is_space c then lstrip_with is_space rest else s
  | _ => s
  end.

(** [s] starts with a decimal digit. *)
Definition starts_with_digit (s : string) : bool :=
  match s with
  | String c _ => is_digit c
  | EmptyString => false
  end.

(** [re.sub(r"#(\d+)", r"[A\1]", s)], as a scan from left to right;
    [in_ref] says that the scan is inside the digits of a reference, whose
    opening ["[A"] has been written. *)
Fixpoint sub_refs (in_ref : bool) (s : string) : string :=
  match s with
  | EmptyString => if in_ref then "]" else EmptyString
  | String c s' =>
      if in_ref && is_digit c then String c (sub_refs true s')
      else
        String.append (if in_ref then "]" else EmptyString)
          (if Ascii.eqb c "#" && starts_with_digit s'
           then String.append "[A" (sub_refs true s')
           else String c (sub_refs false s'))
  end.

(** [s[0].upper() + s[1:]], for a text that is not empty. *)
Definition capitalize (s : string) : string :=
  match s with
  | EmptyString => EmptyString
  | String c s' => String (upper_char c) s'
  end.

(** The last character of a text. *)
Fixpoint last_char (s : string) : option ascii :=
  match s with
  | EmptyString => None
  | String c EmptyString => Some c
  | String _ s' => last_char s'
  end.

(** [_naturalize], the same function in both loaders. *)
Definition naturalize (step : string) : string :=
  let s := strip step in
  let s := drop_return s in
  let s := sub_refs false s in
  let s := capitalize s in
  match s with
  | EmptyString => s
  | String _ _ =>
      if bool_decide (last_char s = Some "?"%char) then s else String.append s "?"
  end.

(** [_is_valid_2step] *)
Definition is_valid_2step (steps : list string) : bool :=
  match steps with
  | [_; step2] => is_substring "#1" step2
  | _ => false
  end.

(** What a builder of the loaders comes to: a tree, an exception of
    [validate], or the [IndexError] of [steps[i]] on a list that is too
    short. *)
Inductive built (A : Type) : Type :=
  | Built (a : A)
  | ValidationError (e : exn)
  | IndexError.
Arguments Built {A} a.
Arguments ValidationError {A} e.
Arguments IndexError {A}.

(** [toq.validate(); return toq] *)
Definition validated (toq : ToQ) : built ToQ :=
  match validate toq with
  | Ok _ => Built toq
  | Raise e => ValidationError e
  end.

(** [_to_toq] *)
Definition to_toq (steps : list string) : built ToQ :=
  match steps !! 0%nat, steps !! 1%nat with
  | Some step1, Some step2 =>
      let leaf_text := naturalize step1 in
      let root_text := naturalize step2 in
      validated (mkToQ [(1, mkToQNode 1 leaf_text (Some 2));
                        (2, mkToQNode 2 root_text None)] 2)
  | _, _ => IndexError
  end.

(** The digits of the references [#N] of a text, in the order of the text:
    [re.findall(r"#(\d+)", step_text)].  [cur] holds the digits read so far
    of the reference that the scan is in. *)
Fixpoint find_refs (cur : option string) (s : string) : list string :=
  match s with
  | EmptyString => match cur with Some ds => [ds] | None => [] end
  | String c s' =>
      let next :=
        if Ascii.eqb c "#" && starts_with_digit s' then find_refs (Some EmptyString) s'
        else find_refs None s' in
      match cur with
      | Some ds =>
          if is_digit c then find_refs (Some (String.append ds (String c EmptyString))) s'
          else ds :: next
      | None => next
      end
  end.

(** [int(r)] on a text of decimal digits. *)
Definition int_of_digits (ds : string) : Z :=
  fold_left (fun acc c => 10 * acc + (Z.of_nat (nat_of_ascii c) - 48))
    (chars ds) 0.

(** [_get_refs] *)
Definition get_refs (step_text : string) : gset Z :=
  list_to_set (int_of_digits <$> find_refs None step_text).

(** [s.split(sep)] for a separator of one character. *)
Fixpoint split_on (sep : ascii) (s : string) : list string :=
  match s with
  | EmptyString => [EmptyString]
  | String c s' =>
      if Ascii.eqb c sep then EmptyString :: split_on sep s'
      else match split_on sep s' with
           | piece :: pieces => String c piece :: pieces
           | [] => [String c EmptyString]
           end
  end.

(** [_split_steps] *)
Definition split_steps (decomp : string) : list string :=
  filter (fun s => s ≠ EmptyString) (strip <$> split_on ";" decomp).

(** [_is_valid_chain] *)
Definition is_valid_chain (steps : list string) : bool :=
  match steps with
  | [step1; step2; step3] =>
      bool_decide (get_refs step1 = ∅) && bool_decide (get_refs step2 = {[1]})
      && bool_decide (get_refs step3 = {[2]})
  | _ => false
  end.

(** [_is_valid_tree] *)
Definition is_valid_tree (steps : list string) : bool :=
  match steps with
  | [step1; step2; step3] =>
      bool_decide (get_refs step1 = ∅) && bool_decide (get_refs step2 = ∅)
      && bool_decide (({[1; 2]} : gset Z) ⊆ get_refs step3)
  | _ => false
  end.

(** [_chain_to_toq] *)
Definition chain_to_toq (steps : list string) : built ToQ :=
  match steps !! 0%nat, steps !! 1%nat, steps !! 2%nat with
  | Some step1, Some step2, Some step3 =>
      validated (mkToQ [(1, mkToQNode 1 (naturalize step1) (Some 2));
                        (2, mkToQNode 2 (naturalize step2) (Some 3));
                        (3, mkToQNode 3 (naturalize step3) None)] 3)
  | _, _, _ => IndexError
  end.

(** [_tree_to_toq] *)
Definition tree_to_toq (steps : list string) : built ToQ :=
  match steps !! 0%nat, steps !! 1%nat, steps !! 2%nat with
  | Some step1, Some step2, Some step3 =>
      validated (mkToQ [(1, mkToQNode 1 (naturalize step1) (Some 3));
                        (2, mkToQNode 2 (naturalize step2) (Some 3));
                        (3, mkToQNode 3 (naturalize step3) None)] 3)
  | _, _, _ => IndexError
  end.

(** A row of the Break data set, as far as the loaders read it. *)
Record BreakRow : Type := mkBreakRow {
  row_question_id : string;
  row_question_text : string;
  row_decomposition : string;
  row_operators : string;
}.

Record BreakToQExample : Type := mkBreakToQExample {
  ex_question_id : string;
  ex_original_question : string;
  ex_toq : ToQ;
  ex_operators : list string;
}.

Record BreakToQExample3 : Type := mkBreakToQExample3 {
  ex3_question_id : string;
  ex3_original_question : string;
  ex3_toq : ToQ;
  ex3_operators : list string;
  ex3_structure : string;
}.

(** [len(examples) >= max_examples], when a bound is given. *)
Definition cap_reached (max_examples : option Z) (n : nat) : bool :=
  match max_examples with
  | Some m => bool_decide (m ≤ Z.of_nat n)%Z
  | None => false
  end.

Section Loaders.
(** [tuple(ast.literal_eval(s))], which is the library's: the operators that
    the literal lists, or nothing when the call raises. *)
Variable literal_tuple : string → option (list string).

(** [_parse_operators] *)
Definition parse_operators (operators_str : string) : list string :=
  default [] (literal_tuple operators_str).

(** The loop [for row in ds] of [load_hotpot_2step], on the rows that
    [load_dataset] yields and the examples gathered so far. *)
Fixpoint load_2step_loop (operators : option (list string))
    (max_examples : option Z) (ds : list BreakRow)
    (examples : list BreakToQExample) : built (list BreakToQExample) :=
  match ds with
  | [] => Built examples
  | row :: rest =>
      if negb (String.prefix "HOTPOT" (row_question_id row)) then
        load_2step_loop operators max_examples rest examples
      else
        let raw_steps := strip <$> split_on ";" (row_decomposition row) in
        if negb (is_valid_2step raw_steps) then
          load_2step_loop operators max_examples rest examples
        else
          let ops := parse_operators (row_operators row) in
          if match operators with
             | Some wanted => negb (bool_decide (ops = wanted))
             | None => false
             end
          then load_2step_loop operators max_examples rest examples
          else
            match to_toq raw_steps with
            | Built toq =>
                let examples' :=
                  examples ++ [mkBreakToQExample (row_question_id row)
                                 (row_question_text row) toq ops] in
                if cap_reached max_examples (length examples') then Built examples'
                else load_2step_loop operators max_examples rest examples'
            | ValidationError e => ValidationError e
            | IndexError => IndexError
            end
  end.

(** [load_hotpot_2step], given the rows of the split. *)
Definition load_hotpot_2step (ds : list BreakRow) (max_examples : option Z)
    (operators : option (list string)) : built (list BreakToQExample) :=
  load_2step_loop operators max_examples ds [].

(** The loop of the two loaders of [break_loader_3step.py], which differ by
    the test of the steps, the builder and the name of the structure. *)
Fixpoint load_3step_loop (is_valid : list string → bool)
    (build : list string → built ToQ) (structure : string)
    (max_examples : option Z) (ds : list BreakRow)
    (examples : list BreakToQExample3) : built (list BreakToQExample3) :=
  match ds with
  | [] => Built examples
  | row :: rest =>
      if negb (String.prefix "HOTPOT" (row_question_id row)) then
        load_3step_loop is_valid build structure max_examples rest examples
      else
        let steps := split_steps (row_decomposition row) in
        if negb (is_valid steps) then
          load_3step_loop is_valid build structure max_examples rest examples
        else
          let ops := parse_operators (row_operators row) in
          match build steps with
          | Built toq =>
              let examples' :=
                examples ++ [mkBreakToQExample3 (row_question_id row)
                               (row_question_text row) toq ops structure] in
              if cap_reached max_examples (length examples') then Built examples'
              else load_3step_loop is_valid build structure max_examples rest examples'
          | ValidationError e => ValidationError e
          | IndexError => IndexError
          end
  end.

(** [load_hotpot_3step_chains] *)
Definition load_hotpot_3step_chains (ds : list BreakRow) (max_examples : option Z)
    : built (list BreakToQExample3) :=
  load_3step_loop is_valid_chain chain_to_toq "chain" max_examples ds [].

(** [load_hotpot_3step_trees] *)
Definition load_hotpot_3step_trees (ds : list BreakRow) (max_examples : option Z)
    : built (list BreakToQExample3) :=
  load_3step_loop is_valid_tree tree_to_toq "tree" max_examples ds [].
End Loaders.

(** A text holds a reference [#N]: a [#] with a decimal digit after it. *)
Fixpoint has_ref (s : string) : bool :=
  match s with
  | EmptyString => false
  | String c s' => (Ascii.eqb c "#" && starts_with_digit s') || has_ref s'
  end.


(** * Part II: properties *)


(** * Dictionaries *)

Section DictFacts.
Context {K V : Type} `{EqDecision K}.
Implicit Types (d : list (K * V)) (k : K) (v : V).

Lemma get_None d k : PyDict.get d k = None ↔ k ∉ PyDict.keys d.
Proof.
  unfold PyDict.keys. induction d as [|[k' v'] d IH]; simpl.
  - split; [intros _; apply not_elem_of_nil | done].
  - destruct (decide (k' = k)) as [->|Hne].
    + split; [done | intros []; left].
    + rewrite IH. rewrite elem_of_cons. naive_solver.
Qed.

Lemma get_Some_elem d k v : PyDict.get d k = Some v → (k, v) ∈ d.
Proof.
  induction d as [|[k' v'] d IH]; simpl; [done|].
  destruct (decide (k' = k)) as [->|Hne].
  - intros [= ->]. left.
  - intros. right. auto.
Qed.

Lemma elem_get d k v : PyDict.wf d → (k, v) ∈ d → PyDict.get d k = Some v.
Proof.
  unfold PyDict.wf, PyDict.keys.
  induction d as [|[k' v'] d IH]; simpl; intros Hnd Hin.
  - by apply elem_of_nil in Hin.
  - apply NoDup_cons in Hnd as [Hk Hnd].
    apply elem_of_cons in Hin as [[= <- <-]|Hin].
    + by rewrite decide_True.
    + destruct (decide (k' = k)) as [->|Hne]; [|auto].
      exfalso. apply Hk. apply list_elem_of_fmap. by exists (k, v).
Qed.

Lemma mem_true d k : PyDict.mem d k = true ↔ k ∈ PyDict.keys d.
Proof.
  unfold PyDict.mem. destruct (PyDict.get d k) eqn:E.
  - split; [intros _|done]. apply get_Some_elem in E.
    apply list_elem_of_fmap. by exists (k, v).
  - apply get_None in E. split; [done|]. intros; contradiction.
Qed.

Lemma mem_false d k : PyDict.mem d k = false ↔ k ∉ PyDict.keys d.
Proof. rewrite <-mem_true. by destruct (PyDict.mem d k). Qed.

Lemma get_in_keys d k v : PyDict.get d k = Some v → k ∈ PyDict.keys d.
Proof. intros E. apply mem_true. unfold PyDict.mem. by rewrite E. Qed.

Lemma in_keys_get d k : k ∈ PyDict.keys d → ∃ v, PyDict.get d k = Some v.
Proof.
  intros Hin. destruct (PyDict.get d k) eqn:E; [eauto|].
  by apply get_None in E.
Qed.

Lemma get_set d k v k' :
  PyDict.get (PyDict.set d k v) k' = if decide (k = k') then Some v else PyDict.get d k'.
Proof.
  induction d as [|[k0 v0] d IH]; simpl.
  - done.
  - destruct (decide (k0 = k)) as [->|Hne]; simpl.
    + destruct (decide (k = k')); done.
    + rewrite IH. destruct (decide (k0 = k')) as [->|]; [|done].
      by rewrite decide_False.
Qed.

Lemma set_fresh d k v : k ∉ PyDict.keys d → PyDict.set d k v = d ++ [(k, v)].
Proof.
  unfold PyDict.keys. induction d as [|[k0 v0] d IH]; simpl; [done|].
  intros Hn. apply not_elem_of_cons in Hn as [Hne Hn].
  rewrite decide_False by done. by rewrite IH.
Qed.

Lemma keys_set_old d k v : k ∈ PyDict.keys d → PyDict.keys (PyDict.set d k v) = PyDict.keys d.
Proof.
  unfold PyDict.keys. induction d as [|[k0 v0] d IH]; simpl.
  - intros Hin. by apply elem_of_nil in Hin.
  - intros Hin. destruct (decide (k0 = k)) as [->|Hne]; [done|].
    simpl. f_equal. apply IH. apply elem_of_cons in Hin as [?|?]; [congruence|done].
Qed.

Lemma keys_set d k v :
  PyDict.keys (PyDict.set d k v)
  = if decide (k ∈ PyDict.keys d) then PyDict.keys d else PyDict.keys d ++ [k].
Proof.
  destruct (decide (k ∈ PyDict.keys d)) as [Hin|Hn].
  - by apply keys_set_old.
  - rewrite set_fresh by done. unfold PyDict.keys. by rewrite fmap_app.
Qed.

Lemma set_wf d k v : PyDict.wf d → PyDict.wf (PyDict.set d k v).
Proof.
  unfold PyDict.wf. rewrite keys_set. destruct (decide (k ∈ PyDict.keys d)); [done|].
  intros Hnd. apply NoDup_app. split_and!; [done| |apply NoDup_singleton].
  intros x Hx Hx'. apply list_elem_of_singleton in Hx'. by subst.
Qed.

Lemma of_list_acc (l acc : list (K * V)) :
  NoDup (acc ++ l).*1 →
  fold_left (fun d kv => PyDict.set d kv.1 kv.2) l acc = acc ++ l.
Proof.
  revert acc. induction l as [|[k v] l IH]; intros acc Hnd; simpl.
  - by rewrite app_nil_r.
  - rewrite set_fresh.
    + rewrite IH; rewrite <-app_assoc; done.
    + rewrite fmap_app in Hnd. apply NoDup_app in Hnd as (_ & Hd & _).
      intros Hin. apply (Hd k Hin). simpl. left.
Qed.

Lemma of_list_nodup (l : list (K * V)) : NoDup l.*1 → PyDict.of_list l = l.
Proof. intros. unfold PyDict.of_list. by rewrite of_list_acc. Qed.
End DictFacts.

(** * The adjacency computed by [children] *)

Lemma children_fold items ch u :
  PyDict.get (fold_left children_step items ch) u
  = (fun l => l ++ kids_of items u) <$> PyDict.get ch u.
Proof.
  revert ch. induction items as [|[nid node] items IH]; intros ch; simpl.
  - unfold kids_of. simpl. destruct (PyDict.get ch u); simpl; [|done].
    by rewrite app_nil_r.
  - rewrite IH. unfold children_step, kids_of. simpl.
    rewrite filter_cons. simpl.
    destruct (node_parent node) as [p|] eqn:Hp.
    + destruct (decide (p = u)) as [->|Hne].
      * rewrite decide_True by done.
        destruct (PyDict.get ch u) as [l|] eqn:Hu; simpl.
        -- rewrite get_set, decide_True by done. simpl. by rewrite <-app_assoc.
        -- by rewrite Hu.
      * rewrite decide_False by congruence.
        destruct (PyDict.get ch p) as [l|] eqn:Hg; [|done].
        by rewrite get_set, decide_False.
    + by rewrite decide_False.
Qed.

Lemma get_children_spec t u :
  PyDict.wf (nodes t) →
  get_children (children t) u
  = if decide (u ∈ node_ids t) then kids_of (nodes t) u else [].
Proof.
  intros Hwf. unfold get_children, children. rewrite children_fold.
  rewrite of_list_nodup.
  2:{ rewrite <-list_fmap_compose. simpl. by rewrite list_fmap_id. }
  set (init := (fun nid : Z => (nid, @nil Z)) <$> PyDict.keys (nodes t)).
  unfold node_ids.
  destruct (decide (u ∈ PyDict.keys (nodes t))) as [Hin|Hn].
  - assert (PyDict.get init u = Some []) as ->; [|reflexivity].
    apply elem_get.
    + unfold PyDict.wf, PyDict.keys, init. rewrite <-list_fmap_compose. simpl.
      by rewrite list_fmap_id.
    + apply list_elem_of_fmap. by exists u.
  - assert (PyDict.get init u = None) as ->; [|reflexivity].
    apply get_None. unfold PyDict.keys, init. rewrite <-list_fmap_compose. simpl.
    by rewrite list_fmap_id.
Qed.

Lemma elem_kids_of t v u :
  PyDict.wf (nodes t) → v ∈ kids_of (nodes t) u ↔ parent_of t v = Some u.
Proof.
  intros Hwf. unfold kids_of, parent_of. rewrite list_elem_of_fmap. split.
  - intros ([nid node] & -> & Hin). apply list_elem_of_filter in Hin as [Hp Hin].
    simpl in *. by rewrite (elem_get _ _ _ Hwf Hin).
  - intros Hp. destruct (PyDict.get (nodes t) v) as [node|] eqn:Hg; [|done].
    simpl in Hp. exists (v, node). split; [done|].
    apply list_elem_of_filter. split; [done|]. by apply get_Some_elem.
Qed.

Lemma NoDup_kids_of t u : PyDict.wf (nodes t) → NoDup (kids_of (nodes t) u).
Proof.
  unfold PyDict.wf, PyDict.keys, kids_of. generalize (nodes t) as d.
  induction d as [|[k v] d IH]; simpl; intros Hnd; [constructor|].
  apply NoDup_cons in Hnd as [Hk Hnd]. rewrite filter_cons.
  destruct (decide _); simpl; [|auto].
  apply NoDup_cons. split; [|auto].
  intros Hin. apply Hk. apply list_elem_of_fmap in Hin as (x & -> & Hx).
  apply list_elem_of_filter in Hx as [_ Hx]. apply list_elem_of_fmap. by exists x.
Qed.

(** * Parent chains *)

Lemma ancestor_add t j k w :
  ancestor t (j + k) w = ancestor t j w ≫= ancestor t k.
Proof.
  revert w. induction j as [|j IH]; intros w; simpl; [done|].
  destruct (parent_of t w) as [p|]; simpl; [apply IH|done].
Qed.

Lemma ancestor_S_r t k w :
  ancestor t (S k) w = ancestor t k w ≫= parent_of t.
Proof.
  replace (S k) with (k + 1)%nat by lia. rewrite ancestor_add.
  destruct (ancestor t k w) as [x|]; simpl; [|done].
  by destruct (parent_of t x).
Qed.

Lemma descends_refl t u : descends t u u.
Proof. by exists 0%nat. Qed.

Lemma descends_trans t u v w : descends t u v → descends t v w → descends t u w.
Proof.
  intros [j Hj] [k Hk]. exists (k + j)%nat. rewrite ancestor_add, Hk. done.
Qed.

Lemma descends_child t u v : parent_of t v = Some u → descends t u v.
Proof. intros Hp. exists 1%nat. simpl. by rewrite Hp. Qed.

Lemma descends_split t u w :
  descends t u w ↔ w = u ∨ ∃ v, parent_of t v = Some u ∧ descends t v w.
Proof.
  split.
  - intros [[|k] Hk].
    + left. simpl in Hk. congruence.
    + right. rewrite ancestor_S_r in Hk.
      destruct (ancestor t k w) as [v|] eqn:Hv; [|done]. simpl in Hk.
      exists v. split; [done|]. by exists k.
  - intros [->|(v & Hp & Hd)]; [apply descends_refl|].
    eapply descends_trans; [by apply descends_child|done].
Qed.

Lemma parent_in_keys t w p : parent_of t w = Some p → w ∈ node_ids t.
Proof.
  unfold parent_of. destruct (PyDict.get (nodes t) w) eqn:E; [|done].
  intros _. by eapply get_in_keys.
Qed.

Section Forest.
Variable t : ToQ.
Hypothesis Hck : checked t.

Lemma ancestor_root k x : ancestor t k (root_id t) = Some x → k = 0%nat.
Proof. destruct k; [done|]. simpl. by rewrite (ck_root t Hck). Qed.

Lemma depth_unique j k w :
  ancestor t j w = Some (root_id t) → ancestor t k w = Some (root_id t) → j = k.
Proof.
  assert (∀ j k, (j ≤ k)%nat → ancestor t j w = Some (root_id t) →
                 ancestor t k w = Some (root_id t) → j = k) as Hle.
  { clear j k. intros j k Hjk Hj Hk.
    replace k with (j + (k - j))%nat in Hk by lia.
    rewrite ancestor_add, Hj in Hk. simpl in Hk.
    apply ancestor_root in Hk. lia. }
  intros Hj Hk. destruct (decide (j ≤ k)%nat); [by apply Hle|].
  symmetry. apply Hle; [lia|done..].
Qed.

Lemma descends_in_keys w : descends t (root_id t) w → w ∈ node_ids t.
Proof.
  intros [[|k] Hk]; simpl in Hk.
  - injection Hk as ->. apply (ck_root_in t Hck).
  - destruct (parent_of t w) eqn:Hp; [|done]. by eapply parent_in_keys.
Qed.

Lemma no_cycle_below_root w k :
  descends t (root_id t) w → ancestor t k w = Some w → k = 0%nat.
Proof.
  intros [d Hd] Hk.
  assert (ancestor t (k + d) w = Some (root_id t)) as Hkd.
  { by rewrite ancestor_add, Hk. }
  pose proof (depth_unique _ _ _ Hkd Hd). lia.
Qed.

Lemma child_not_ancestor u v :
  descends t (root_id t) u → parent_of t v = Some u → ¬ descends t v u.
Proof.
  intros Hu Hp [k Hk].
  assert (ancestor t (S k) u = Some u) as Hc.
  { rewrite ancestor_S_r, Hk. done. }
  by apply no_cycle_below_root in Hc.
Qed.

Lemma siblings_disjoint u v v' w :
  descends t (root_id t) u → parent_of t v = Some u → parent_of t v' = Some u →
  descends t v w → descends t v' w → v = v'.
Proof.
  intros [d Hd] Hp Hp' [a Ha] [b Hb].
  assert (ancestor t (S a + d) w = Some (root_id t)) as H1.
  { rewrite ancestor_add, ancestor_S_r, Ha. simpl. by rewrite Hp. }
  assert (ancestor t (S b + d) w = Some (root_id t)) as H2.
  { rewrite ancestor_add, ancestor_S_r, Hb. simpl. by rewrite Hp'. }
  pose proof (depth_unique _ _ _ H1 H2). assert (a = b) as -> by lia.
  congruence.
Qed.
End Forest.

(** * The traversal of [validate] *)

Lemma budget_step t u (V : gset Z) b :
  u ∈ node_ids t → u ∉ V → (size (node_set t ∖ V) ≤ S b)%nat →
  (size (node_set t ∖ ({[u]} ∪ V)) ≤ b)%nat.
Proof.
  intros Hu HV Hsz.
  assert (node_set t ∖ V = {[u]} ∪ node_set t ∖ ({[u]} ∪ V)) as Heq.
  { apply set_eq. intros x. unfold node_set.
    rewrite !elem_of_union, !elem_of_difference, elem_of_union,
      elem_of_singleton, !elem_of_list_to_set.
    destruct (decide (x = u)) as [->|]; naive_solver. }
  rewrite Heq, size_union, size_singleton in Hsz by set_solver. lia.
Qed.

Lemma budget_mono t (V V' : gset Z) b :
  V ⊆ V' → (size (node_set t ∖ V) ≤ b)%nat → (size (node_set t ∖ V') ≤ b)%nat.
Proof.
  intros Hsub Hsz. etrans; [|exact Hsz]. apply subseteq_size. set_solver.
Qed.

Section ValidateDfs.
Variable t : ToQ.
Hypothesis Hwf : PyDict.wf (nodes t).
Hypothesis Hck : checked t.

Lemma validate_dfs_loop_spec rec b u (S1 : gset Z) :
  (∀ v V, dfs_pre t v V S1 b → ∃ V', rec v (V, S1) = Ok (V', S1) ∧ dfs_post t v V V') →
  descends t (root_id t) u →
  ∀ vs (Vc : gset Z),
    NoDup vs → (∀ v, v ∈ vs → parent_of t v = Some u) →
    (∀ v w, v ∈ vs → descends t v w → w ∉ Vc) →
    S1 ⊆ Vc → (size (node_set t ∖ Vc) ≤ b)%nat →
    ∃ V', validate_dfs_loop rec u vs (Vc, S1) = Ok (V', S1)
          ∧ ∀ w, w ∈ V' ↔ w ∈ Vc ∨ ∃ v, v ∈ vs ∧ descends t v w.
Proof.
  intros Hrec Hu. induction vs as [|v vs IH]; intros Vc Hnd Hpar Hfresh HS Hsz.
  - exists Vc. split; [done|]. intros w. split; [auto|].
    intros [?|(v & Hv & _)]; [done|]. by apply elem_of_nil in Hv.
  - apply NoDup_cons in Hnd as [Hv Hnd]. simpl.
    assert (v ∉ Vc) as HvV.
    { apply (Hfresh v v); [left|apply descends_refl]. }
    rewrite bool_decide_eq_false_2 by set_solver.
    rewrite bool_decide_eq_false_2 by done.
    destruct (Hrec v Vc) as (V1 & -> & Hpost).
    { split_and!; [|by intros; apply (Hfresh v); [left|]|done..].
      eapply descends_trans; [exact Hu|]. apply descends_child, Hpar. left. }
    unfold dfs_post in Hpost. simpl.
    destruct (IH V1) as (V' & -> & HV'); [done| | | | |].
    + intros v' Hv'. apply Hpar. by right.
    + intros v' w Hv' Hd Hw. apply Hpost in Hw as [Hw|Hw].
      * revert Hw. apply (Hfresh v'); [by right|done].
      * assert (v = v'); [|by subst].
        eapply (siblings_disjoint t Hck u v v' w); auto.
        -- apply Hpar. left.
        -- apply Hpar. by right.
    + intros x Hx. apply Hpost. left. by apply HS.
    + eapply budget_mono; [|exact Hsz]. intros x Hx. apply Hpost. by left.
    + exists V'. split; [done|]. intros w. rewrite HV', Hpost.
      split.
      * intros [[?|?]|(v' & ? & ?)]; [by left|right; exists v|right; exists v'];
          (split; [|done]); [left|by right].
      * intros [?|(v' & Hv' & ?)]; [by left; left|].
        apply elem_of_cons in Hv' as [->|?]; [by left; right|right; by exists v'].
Qed.

Lemma validate_dfs_spec b :
  ∀ u V S, dfs_pre t u V S b →
    ∃ V', validate_dfs b (children t) u (V, S) = Ok (V', S) ∧ dfs_post t u V V'.
Proof.
  induction b as [|b IH]; intros u V S (Hu & Hfresh & HS & Hsz).
  - exfalso. assert (u ∈ node_set t ∖ V) as Hin.
    { apply elem_of_difference. split.
      - apply elem_of_list_to_set. by apply descends_in_keys.
      - apply Hfresh, descends_refl. }
    apply Nat.le_0_r, size_empty_inv in Hsz. set_solver.
  - assert (u ∈ node_ids t) as Hukeys by by apply descends_in_keys.
    assert (u ∉ V) as HuV by apply Hfresh, descends_refl.
    simpl.
    destruct (validate_dfs_loop_spec (validate_dfs b (children t)) b u ({[u]} ∪ S)
                (fun v V0 => IH v V0 ({[u]} ∪ S)) Hu
                (get_children (children t) u) ({[u]} ∪ V)) as (V' & -> & HV').
    + rewrite get_children_spec, decide_True by done.
      by apply NoDup_kids_of.
    + rewrite get_children_spec, decide_True by done.
      intros v. by rewrite elem_kids_of.
    + rewrite get_children_spec, decide_True by done.
      intros v w Hv Hd Hw. apply elem_kids_of in Hv; [|done].
      apply elem_of_union in Hw as [Hw|Hw].
      * apply elem_of_singleton in Hw. subst w.
        by eapply child_not_ancestor.
      * revert Hw. apply Hfresh. eapply descends_trans; [|exact Hd].
        by apply descends_child.
    + set_solver.
    + by apply budget_step.
    + simpl. exists V'. split.
      * f_equal. f_equal. apply set_eq. intros x.
        rewrite elem_of_difference, elem_of_union, elem_of_singleton.
        split; [naive_solver|]. intros Hx. split; [by right|].
        intros ->. apply HuV. by apply HS.
      * intros w. rewrite HV', descends_split.
        rewrite get_children_spec, decide_True by done.
        rewrite elem_of_union, elem_of_singleton.
        split.
        -- intros [[->|?]|(v & Hv & Hd)]; [right; by left|by left|].
           right; right. exists v. by rewrite <-elem_kids_of.
        -- intros [?|[->|(v & Hv & Hd)]]; [left; by right|left; by left|].
           right. exists v. by rewrite elem_kids_of.
Qed.

(** From the root, the traversal succeeds and visits exactly the nodes that
    reach the root through parent links. *)
Lemma validate_dfs_root :
  ∃ V', validate_dfs (length (nodes t)) (children t) (root_id t) (∅, ∅) = Ok (V', ∅)
        ∧ ∀ w, w ∈ V' ↔ descends t (root_id t) w.
Proof.
  destruct (validate_dfs_spec (length (nodes t)) (root_id t) ∅ ∅) as (V' & HV' & Hpost).
  - split_and!; [apply descends_refl|set_solver|done|].
    etrans; [apply subseteq_size; apply subseteq_difference_l; reflexivity|].
    unfold node_set. unfold node_ids, PyDict.keys.
    rewrite size_list_to_set by exact Hwf. by rewrite length_fmap.
  - exists V'. split; [done|]. intros w. rewrite (Hpost w). set_solver.
Qed.
End ValidateDfs.

(** * [validate], check by check *)

Lemma check_nodes_inv all items r :
  check_nodes all items = r →
  match r with
  | Ok _ =>
      ∀ nid node, (nid, node) ∈ items →
        node_id node = nid ∧
        ∀ p, node_parent node = Some p → p ∈ PyDict.keys all ∧ p ≠ nid
  | Raise e =>
      match e with
      | KeyMismatch nid i =>
          ∃ node, (nid, node) ∈ items ∧ node_id node = i ∧ i ≠ nid
      | MissingParent nid p =>
          ∃ node, (nid, node) ∈ items ∧ node_parent node = Some p
                  ∧ p ∉ PyDict.keys all
      | SelfParent nid => ∃ node, (nid, node) ∈ items ∧ node_parent node = Some nid
      | _ => False
      end
  end.
Proof.
  revert r. induction items as [|[nid node] items IH]; intros r <-; simpl.
  - intros ? ? Hin. by apply elem_of_nil in Hin.
  - destruct (bool_decide (node_id node = nid)) eqn:Hid; simpl.
    2:{ apply bool_decide_eq_false in Hid. exists node. split; [left|done]. }
    apply bool_decide_eq_true in Hid.
    assert (match check_nodes all items with
            | Ok _ => ∀ nid0 node0, (nid0, node0) ∈ (nid, node) :: items →
                (nid0, node0) ≠ (nid, node) → (nid0, node0) ∈ items
            | Raise _ => True end) as Hrest.
    { destruct (check_nodes all items); [|done].
      intros ? ? Hin Hne. by apply elem_of_cons in Hin as [?|?]. }
    specialize (IH _ eq_refl).
    destruct (node_parent node) as [p|] eqn:Hp.
    + destruct (PyDict.mem all p) eqn:Hmem; simpl.
      2:{ apply mem_false in Hmem. exists node. split; [left|done]. }
      apply mem_true in Hmem.
      destruct (bool_decide (p = nid)) eqn:Hself.
      { apply bool_decide_eq_true in Hself. subst p. exists node. split; [left|done]. }
      apply bool_decide_eq_false in Hself.
      destruct (check_nodes all items) as [[]|e].
      * intros nid0 node0 Hin. apply elem_of_cons in Hin as [[= -> ->]|Hin]; [|auto].
        split; [done|]. intros p0. rewrite Hp. by intros [= <-].
      * destruct e; try done; destruct IH as (n0 & ? & ?); exists n0;
          (split; [by right|done]).
    + destruct (check_nodes all items) as [[]|e].
      * intros nid0 node0 Hin. apply elem_of_cons in Hin as [[= -> ->]|Hin]; [|auto].
        split; [done|]. intros p0. by rewrite Hp.
      * destruct e; try done; destruct IH as (n0 & ? & ?); exists n0;
          (split; [by right|done]).
Qed.

Lemma check_nodes_first all items e :
  check_nodes all items = Raise e →
  ∃ pre nid node post,
    items = pre ++ (nid, node) :: post
    ∧ Forall (node_checks_pass all) pre
    ∧ match e with
      | KeyMismatch n _ => n = nid
      | MissingParent n _ => n = nid ∧ node_id node = nid
      | SelfParent n => n = nid ∧ node_id node = nid
      | _ => False
      end.
Proof.
  induction items as [|[nid node] items IH]; simpl; [done|].
  destruct (bool_decide (node_id node = nid)) eqn:Hid; simpl.
  2:{ intros [= <-]. by exists [], nid, node, items. }
  apply bool_decide_eq_true in Hid.
  assert (check_nodes all items = Raise e →
          (∀ p, node_parent node = Some p → p ∈ PyDict.keys all ∧ p ≠ nid) →
          ∃ pre nid0 node0 post,
            (nid, node) :: items = pre ++ (nid0, node0) :: post
            ∧ Forall (node_checks_pass all) pre
            ∧ match e with
              | KeyMismatch n _ => n = nid0
              | MissingParent n _ => n = nid0 ∧ node_id node0 = nid0
              | SelfParent n => n = nid0 ∧ node_id node0 = nid0
              | _ => False
              end) as Hrest.
  { intros He Hok. destruct (IH He) as (pre & nid0 & node0 & post & -> & Hpre & Hcase).
    exists ((nid, node) :: pre), nid0, node0, post. split_and!; [done| |done].
    apply Forall_cons. split; [|done]. by split. }
  destruct (node_parent node) as [p|] eqn:Hp.
  - destruct (PyDict.mem all p) eqn:Hmem; simpl.
    2:{ intros [= <-]. by exists [], nid, node, items. }
    apply mem_true in Hmem.
    destruct (bool_decide (p = nid)) eqn:Hself.
    { intros [= <-]. by exists [], nid, node, items. }
    apply bool_decide_eq_false in Hself. intros He. apply Hrest; [done|].
    by intros p0 [= <-].
  - intros He. by apply Hrest.
Qed.

Lemma check_nodes_all all items :
  check_nodes all items = Ok tt → Forall (node_checks_pass all) items.
Proof.
  intros Hok. pose proof (check_nodes_inv all items _ Hok) as Hall.
  apply Forall_forall. intros [nid node] Hin. by apply Hall.
Qed.

Lemma parent_of_elem t w node :
  PyDict.wf (nodes t) → (w, node) ∈ nodes t → parent_of t w = node_parent node.
Proof. intros Hwf Hin. unfold parent_of. by rewrite (elem_get _ _ _ Hwf Hin). Qed.

Lemma elem_parentless d nid :
  nid ∈ parentless d ↔ ∃ node, (nid, node) ∈ d ∧ node_parent node = None.
Proof.
  unfold parentless. rewrite list_elem_of_fmap. split.
  - intros ([k node] & -> & Hin). apply list_elem_of_filter in Hin as [? ?].
    by exists node.
  - intros (node & Hin & Hp). exists (nid, node). split; [done|].
    by apply list_elem_of_filter.
Qed.

Lemma NoDup_parentless d : PyDict.wf d → NoDup (parentless d).
Proof.
  unfold PyDict.wf, PyDict.keys, parentless.
  induction d as [|[k v] d IH]; simpl; intros Hnd; [constructor|].
  apply NoDup_cons in Hnd as [Hk Hnd]. rewrite filter_cons.
  destruct (decide _); simpl; [|auto].
  apply NoDup_cons. split; [|auto].
  intros Hin. apply Hk. apply list_elem_of_fmap in Hin as (x & -> & Hx).
  apply list_elem_of_filter in Hx as [_ Hx]. apply list_elem_of_fmap. by exists x.
Qed.

(** What the checks that precede the traversal establish. *)
Lemma checked_intro t :
  PyDict.wf (nodes t) →
  is_ok (check_nodes (nodes t) (nodes t)) →
  parentless (nodes t) = [root_id t] → checked t.
Proof.
  intros Hwf Hok Hpl.
  pose proof (check_nodes_inv (nodes t) (nodes t) _ eq_refl) as Hcn.
  destruct (check_nodes (nodes t) (nodes t)) as [[]|e]; [|done].
  assert (root_id t ∈ parentless (nodes t)) as Hr by (rewrite Hpl; left).
  apply elem_parentless in Hr as (rn & Hrin & Hrp).
  split.
  - apply list_elem_of_fmap. by exists (root_id t, rn).
  - intros nid node Hin. by apply Hcn.
  - intros w p Hp. unfold parent_of in Hp.
    destruct (PyDict.get (nodes t) w) as [node|] eqn:Hg; [|done]. simpl in Hp.
    apply get_Some_elem in Hg. by apply (proj2 (Hcn w node Hg) p).
  - intros w Hp. unfold parent_of in Hp.
    destruct (PyDict.get (nodes t) w) as [node|] eqn:Hg; [|done]. simpl in Hp.
    apply get_Some_elem in Hg. by apply (proj2 (Hcn w node Hg) w).
  - by rewrite (parent_of_elem _ _ rn).
  - intros w Hw Hp. destruct (in_keys_get _ _ Hw) as [node Hg].
    unfold parent_of in Hp. rewrite Hg in Hp. simpl in Hp.
    assert (w ∈ parentless (nodes t)) as Hin.
    { apply elem_parentless. exists node. split; [by apply get_Some_elem|done]. }
    rewrite Hpl in Hin. by apply list_elem_of_singleton in Hin.
Qed.

(** Either the checks that precede the traversal all pass, and [validate]
    continues with the traversal, or one of them raises, and the exception
    reports a violation that is there. *)
Lemma validate_head t :
  PyDict.wf (nodes t) →
  (checked t ∧ validate t = validate_reachability t)
  ∨ (∃ e, validate t = Raise e ∧ reported t e ∧ ¬ checked t).
Proof.
  intros Hwf. unfold validate.
  destruct (PyDict.mem (nodes t) (root_id t)) eqn:Hmem; simpl.
  2:{ right. eexists. split; [done|]. apply mem_false in Hmem.
      split; [done|]. intros Hck. by apply Hmem, ck_root_in. }
  apply mem_true in Hmem.
  pose proof (check_nodes_inv (nodes t) (nodes t) _ eq_refl) as Hcn.
  destruct (check_nodes (nodes t) (nodes t)) as [[]|e] eqn:Hcheck; simpl.
  2:{ right. exists e. split; [done|].
      destruct e; try done; destruct Hcn as (node & Hin & Hn); (split; [by exists node|]);
        intros Hck.
      - destruct Hn as [Hi Hne]. apply Hne. rewrite <-Hi. by eapply ck_ids.
      - destruct Hn as [Hp Hn]. apply Hn. eapply (ck_parent_in t Hck nid).
        by rewrite (parent_of_elem _ _ node).
      - apply (ck_no_self t Hck nid). by rewrite (parent_of_elem _ _ node). }
  destruct (in_keys_get _ _ Hmem) as [rn Hrn]. rewrite Hrn.
  pose proof (get_Some_elem _ _ _ Hrn) as Hrin.
  destruct (node_parent rn) as [p|] eqn:Hrp.
  { right. eexists. split; [done|]. split.
    - split; [done|]. by exists rn, p.
    - intros Hck. pose proof (ck_root t Hck) as Hr.
      rewrite (parent_of_elem _ _ rn) in Hr by done. congruence. }
  assert (root_id t ∈ parentless (nodes t)) as Hrpl.
  { apply elem_parentless. by exists rn. }
  pose proof (NoDup_parentless _ Hwf) as Hnd.
  destruct (parentless (nodes t)) as [|r0 [|r1 rest]] eqn:Hpl.
  - by apply elem_of_nil in Hrpl.
  - apply list_elem_of_singleton in Hrpl. subst r0.
    rewrite bool_decide_eq_true_2 by done. simpl. left. split; [|done].
    apply checked_intro; [done| |done]. by rewrite Hcheck.
  - right. eexists. split; [done|].
    assert (∃ nid, nid ∈ r0 :: r1 :: rest ∧ nid ≠ root_id t) as (nid & Hnid & Hne).
    { apply NoDup_cons in Hnd as [Hr0 _].
      destruct (decide (r0 = root_id t)) as [->|Hne].
      - exists r1. split; [right; left|]. intros ->. apply Hr0. left.
      - exists r0. split; [left|done]. }
    split.
    + split; [done|]. by exists nid.
    + intros Hck. apply Hne. rewrite <-Hpl in Hnid.
      apply elem_parentless in Hnid as (node & Hin & Hp).
      apply (ck_one_root t Hck).
      * apply list_elem_of_fmap. by exists (nid, node).
      * by rewrite (parent_of_elem _ _ node).
Qed.

(** The traversal never raises; what is left is the count. *)
Lemma validate_tail t :
  PyDict.wf (nodes t) → checked t →
  (validate_reachability t = Ok tt ∧ ∀ w, w ∈ node_ids t → descends t (root_id t) w)
  ∨ (∃ l, validate_reachability t = Raise (Unreachable (root_id t) l)
          ∧ reported t (Unreachable (root_id t) l)).
Proof.
  intros Hwf Hck. unfold validate_reachability.
  destruct (validate_dfs_root t Hwf Hck) as (V' & -> & HV'). simpl.
  assert (V' ⊆ list_to_set (node_ids t)) as Hsub.
  { intros w Hw. apply elem_of_list_to_set. apply (descends_in_keys t Hck), HV', Hw. }
  assert (size (list_to_set (node_ids t) : gset Z) = length (nodes t)) as Hsz.
  { unfold node_ids, PyDict.keys. rewrite size_list_to_set by exact Hwf.
    by rewrite length_fmap. }
  destruct (bool_decide (size V' = length (nodes t))) eqn:Hcount; simpl.
  - left. split; [done|]. apply bool_decide_eq_true in Hcount.
    intros w Hw. apply HV'.
    assert (V' = list_to_set (node_ids t)) as ->.
    { apply set_subseteq_size_eq; [done|]. rewrite Hsz, Hcount. done. }
    by apply elem_of_list_to_set.
  - right. eexists. split; [done|]. apply bool_decide_eq_false in Hcount.
    assert (∀ w, w ∈ (list_to_set (node_ids t) : gset Z) ∖ V'
                 ↔ w ∈ node_ids t ∧ ¬ descends t (root_id t) w) as Hdiff.
    { intros w. by rewrite elem_of_difference, elem_of_list_to_set, HV'. }
    split; [done|]. split.
    + destruct (set_choose_or_empty ((list_to_set (node_ids t) : gset Z) ∖ V'))
        as [[w Hw]|Hempty].
      * exists w. by apply Hdiff.
      * exfalso. apply Hcount. rewrite <-Hsz. f_equal.
        apply set_eq. intros x. split; [apply Hsub|]. intros Hx.
        destruct (decide (x ∈ V')); [done|]. exfalso.
        apply (not_elem_of_empty (C:=gset Z) x). rewrite <-Hempty.
        by apply elem_of_difference.
    + intros w. rewrite <-Hdiff. rewrite merge_sort_Permutation.
      by rewrite elem_of_elements.
Qed.

Lemma validate_raise_first t e :
  PyDict.wf (nodes t) → validate t = Raise e → first_found t e.
Proof.
  intros Hwf. unfold validate.
  destruct (PyDict.mem (nodes t) (root_id t)) eqn:Hmem; simpl.
  2:{ by intros [= <-]. }
  apply mem_true in Hmem.
  assert (¬ root_absent t) as Hroot by (intros Hn; by apply Hn).
  destruct (check_nodes (nodes t) (nodes t)) as [[]|e'] eqn:Hcheck; simpl.
  2:{ intros [= <-]. apply check_nodes_first in Hcheck
        as (pre & nid & node & post & Heq & Hpre & Hcase).
      destruct e'; try done; simpl.
      - subst nid0. split; [done|]. by exists pre, node, post.
      - destruct Hcase as [-> ?]. split; [done|]. by exists pre, node, post.
      - destruct Hcase as [-> ?]. split; [done|]. by exists pre, node, post. }
  pose proof (check_nodes_all _ _ Hcheck) as Hall.
  destruct (in_keys_get _ _ Hmem) as [rn Hrn]. rewrite Hrn.
  destruct (node_parent rn) as [p|] eqn:Hrp.
  { by intros [= <-]. }
  assert (parent_of t (root_id t) = None) as Hpr.
  { unfold parent_of. by rewrite Hrn. }
  destruct (parentless (nodes t)) as [|r0 [|r1 rest]] eqn:Hpl.
  - by intros [= <-].
  - case_bool_decide as Hr0; simpl; [|by intros [= <-]]. subst r0.
    assert (checked t) as Hck.
    { apply checked_intro; [done|by rewrite Hcheck|done]. }
    intros He. destruct (validate_tail t Hwf Hck) as [[Hok _]|(l & Hl & _)];
      [congruence|].
    rewrite Hl in He. by injection He as <-.
  - by intros [= <-].
Qed.

Lemma reported_violation t e : reported t e → violation t.
Proof.
  unfold violation. destruct e; simpl; try done.
  - intros [_ ?]. by left.
  - intros (node & ? & <- & ?). right; left. by exists nid, node.
  - intros (node & ? & ? & ?). do 3 right; left. by exists nid, node, p.
  - intros (node & ? & ?). do 2 right; left. by exists nid, node.
  - intros (-> & node & p & ? & ?). do 4 right; left. right. by exists node, p.
  - intros (-> & nid & Hin & ?). do 4 right; left. left.
    apply elem_parentless in Hin as (node & ? & ?). by exists nid, node.
  - intros (_ & ? & _). by do 6 right.
Qed.

Lemma well_formed_no_violation t :
  PyDict.wf (nodes t) → well_formed t → ¬ violation t.
Proof.
  intros Hwf [Hck Hreach] Hv.
  destruct Hv as [Hv|[Hv|[Hv|[Hv|[Hv|[Hv|Hv]]]]]].
  - by apply Hv, ck_root_in.
  - destruct Hv as (nid & node & Hin & Hne). apply Hne. by eapply ck_ids.
  - destruct Hv as (nid & node & Hin & Hp). apply (ck_no_self t Hck nid).
    by rewrite (parent_of_elem _ _ node).
  - destruct Hv as (nid & node & p & Hin & Hp & Hn). apply Hn.
    apply (ck_parent_in t Hck nid). by rewrite (parent_of_elem _ _ node).
  - destruct Hv as [(nid & node & Hin & Hp & Hne)|(node & p & Hin & Hp)].
    + apply Hne, (ck_one_root t Hck).
      * apply list_elem_of_fmap. by exists (nid, node).
      * by rewrite (parent_of_elem _ _ node).
    + pose proof (ck_root t Hck) as Hr.
      rewrite (parent_of_elem _ _ node) in Hr by done. congruence.
  - destruct Hv as (w & k & Hw & Hk & Hc).
    apply (no_cycle_below_root t Hck) in Hc; [lia|by apply Hreach].
  - destruct Hv as (w & Hw & Hn). by apply Hn, Hreach.
Qed.

Lemma validate_ok_iff t :
  PyDict.wf (nodes t) → validate t = Ok tt ↔ well_formed t.
Proof.
  intros Hwf. split.
  - intros Hok. destruct (validate_head t Hwf) as [[Hck Hv]|(e & He & _)];
      [|congruence].
    split; [done|]. rewrite Hok in Hv.
    destruct (validate_tail t Hwf Hck) as [[_ Hr]|(l & Hl & _)]; [done|congruence].
  - intros [Hck Hreach]. destruct (validate_head t Hwf) as [[_ ->]|(e & _ & _ & Hn)];
      [|done].
    destruct (validate_tail t Hwf Hck) as [[Hr _]|(l & _ & _ & (w & Hw & Hn) & _)];
      [done|]. exfalso. by apply Hn, Hreach.
Qed.

Lemma validate_raise_reported t e :
  PyDict.wf (nodes t) → validate t = Raise e → reported t e.
Proof.
  intros Hwf He. destruct (validate_head t Hwf) as [[Hck Hv]|(e' & He' & Hrep & _)].
  - rewrite He in Hv.
    destruct (validate_tail t Hwf Hck) as [[Hr _]|(l & Hl & Hrep)]; [congruence|].
    rewrite Hl in Hv. by injection Hv as ->.
  - rewrite He in He'. by injection He' as ->.
Qed.

(** C5.  On a dictionary of nodes, [validate] raises exactly when one of the
    structural violations holds (root id absent; a node id that differs from
    its key; a self-parent; a parent id absent from the tree; a second
    parentless node or a root with a parent; a cycle among parent links; a node
    that does not reach the root); the exception it raises reports a violation
    that holds, and is for the first check that fails, in the order in which
    the checks are made; and it returns, with no effect on the tree it reads,
    exactly on the well-formed trees. *)
Theorem validate_raises_iff_violation (t : ToQ) :
  PyDict.wf (nodes t) →
  (raises (validate t) ↔ violation t)
  ∧ (∀ e, validate t = Raise e → reported t e ∧ first_found t e)
  ∧ (validate t = Ok tt ↔ well_formed t).
Proof.
  intros Hwf. split_and!.
  - split.
    + destruct (validate t) as [|e] eqn:He; [done|]. intros _.
      eapply reported_violation, validate_raise_reported; eauto.
    + intros Hv. destruct (validate t) as [[]|e] eqn:He; [|done].
      apply validate_ok_iff in He; [|done].
      by apply well_formed_no_violation in He.
  - intros e He. split; [by apply validate_raise_reported|].
    by apply validate_raise_first.
  - by apply validate_ok_iff.
Qed.

Lemma wf_toq_five : PyDict.wf (nodes toq_five).
Proof. by_compute. Defined.

Lemma validate_raises_iff_violation_witness :
  (raises (validate toq_five) ↔ violation toq_five)
  ∧ (∀ e, validate toq_five = Raise e → reported toq_five e ∧ first_found toq_five e)
  ∧ (validate toq_five = Ok tt ↔ well_formed toq_five).
Proof. apply (validate_raises_iff_violation toq_five). apply wf_toq_five. Defined.

(** C9.  [validate] never raises its "Cycle detected" error.  Once the checks
    that precede the traversal have passed, a node is in the child list of its
    parent only, so the traversal never meets a node twice, let alone one on
    its stack; a tree whose parent links form a cycle fails the
    unreachable-nodes check instead. *)
Theorem validate_never_reports_cycle (t : ToQ) :
  PyDict.wf (nodes t) →
  (∀ u v, validate t ≠ Raise (CycleDetected u v))
  ∧ (checked t →
     (∀ u u' v, v ∈ get_children (children t) u →
                v ∈ get_children (children t) u' → u = u')
     ∧ (∃ V, validate_dfs (length (nodes t)) (children t) (root_id t) (∅, ∅)
             = Ok (V, ∅))
     ∧ (parent_cycle t → ∃ l, validate t = Raise (Unreachable (root_id t) l))).
Proof.
  intros Hwf. split.
  - intros u v He. by apply validate_raise_reported in He.
  - intros Hck. split_and!.
    + intros u u' v. rewrite !get_children_spec by done.
      repeat case_decide; rewrite ?elem_of_nil; try done.
      rewrite !elem_kids_of by done. congruence.
    + destruct (validate_dfs_root t Hwf Hck) as (V & HV & _). by exists V.
    + intros Hcyc. destruct (validate_head t Hwf) as [[_ ->]|(e & _ & _ & Hn)]; [|done].
      destruct (validate_tail t Hwf Hck) as [[Hok Hr]|(l & Hl & _)]; [|by exists l].
      exfalso. apply (well_formed_no_violation t Hwf); [done|].
      by do 5 right; left.
Qed.

Lemma validate_never_reports_cycle_witness :
  (∀ u v, validate toq_orphan_cycle ≠ Raise (CycleDetected u v))
  ∧ (∃ V, validate_dfs 3 (children toq_orphan_cycle) 1 (∅, ∅) = Ok (V, ∅))
  ∧ (∃ l, validate toq_orphan_cycle = Raise (Unreachable 1 l)).
Proof.
  assert (PyDict.wf (nodes toq_orphan_cycle)) as Hwf.
  { by_compute. }
  destruct (validate_never_reports_cycle toq_orphan_cycle Hwf) as [Hnever Hck].
  split; [exact Hnever|].
  destruct Hck as (_ & Hdfs & Hcyc).
  { apply checked_intro; [exact Hwf|exact I|reflexivity]. }
  split; [exact Hdfs|]. apply Hcyc.
  exists 2, 2%nat. split_and!; [|lia|vm_compute; reflexivity].
  by_compute.
Defined.


(** * The JSON form *)

Lemma fold_set_wf {K V} `{EqDecision K} (l acc : list (K * V)) :
  PyDict.wf acc → PyDict.wf (fold_left (fun d kv => PyDict.set d kv.1 kv.2) l acc).
Proof.
  revert acc. induction l as [|[k v] l IH]; intros acc Hacc; simpl; [done|].
  by apply IH, set_wf.
Qed.

Lemma of_list_wf {K V} `{EqDecision K} (l : list (K * V)) : PyDict.wf (PyDict.of_list l).
Proof. apply fold_set_wf. constructor. Qed.


Lemma int_of_decimal_str z : int_of_decimal (str_of_int z) = Some z.
Proof.
  unfold int_of_decimal, str_of_int.
  rewrite NilZero.isi.
  - simpl. f_equal. apply DecimalZ.of_to.
  - destruct z; simpl; try discriminate.
    intros [= H]. by apply DecimalPos.Unsigned.to_uint_nonnil in H.
  - destruct z; simpl; try discriminate.
    intros [= H]. by apply DecimalPos.Unsigned.to_uint_nonnil in H.
Qed.

Lemma from_json_nodes_spec int_of_str entries acc :
  match from_json_nodes int_of_str entries acc with
  | Ok ns =>
      ∃ dec, mapM (decode_entry int_of_str) entries = Some dec
             ∧ ns = fold_left (fun d kv => PyDict.set d kv.1 kv.2) dec acc
  | Raise e =>
      mapM (decode_entry int_of_str) entries = None ∧
      match e with
      | JsonInvalidKey k => ∃ v, (k, v) ∈ entries ∧ int_of_str k = None
      | JsonInvalidEntry nid =>
          ∃ k, (k, JEntryOther) ∈ entries ∧ int_of_str k = Some nid
      | JsonMissingField field nid =>
          ∃ k f, (k, JEntry f) ∈ entries ∧ int_of_str k = Some nid
                 ∧ ((field = "id" ∧ j_id f = None) ∨ (field = "text" ∧ j_text f = None))
      | _ => False
      end
  end.
Proof.
  revert acc. induction entries as [|[k v] entries IH]; intros acc; simpl.
  - by exists [].
  - destruct (int_of_str k) as [nid|] eqn:Hk; simpl.
    2:{ assert (decode_entry int_of_str (k, v) = None) as ->
          by (unfold decode_entry; simpl; by rewrite Hk).
        split; [done|]. exists v. split; [left|done]. }
    destruct v as [|f]; simpl.
    { assert (decode_entry int_of_str (k, JEntryOther) = None) as ->
        by (unfold decode_entry; simpl; by rewrite Hk).
      split; [done|]. exists k. split; [left|done]. }
    destruct (j_id f) as [i|] eqn:Hi; simpl.
    2:{ assert (decode_entry int_of_str (k, JEntry f) = None) as ->
          by (unfold decode_entry; simpl; by rewrite Hk, Hi).
        split; [done|]. exists k, f. split_and!; [left|done|by left]. }
    destruct (j_text f) as [tx|] eqn:Htx; simpl.
    2:{ assert (decode_entry int_of_str (k, JEntry f) = None) as ->
          by (unfold decode_entry; simpl; by rewrite Hk, Hi, Htx).
        split; [done|]. exists k, f. split_and!; [left|done|by right]. }
    assert (decode_entry int_of_str (k, JEntry f)
            = Some (nid, mkToQNode i tx (mjoin (j_parent f)))) as ->
      by (unfold decode_entry; simpl; by rewrite Hk, Hi, Htx).
    simpl.
    specialize (IH (PyDict.set acc nid (mkToQNode i tx (mjoin (j_parent f))))).
    destruct (from_json_nodes _ _ _) as [ns|e].
    + destruct IH as (dec & -> & ->). simpl. by eexists.
    + destruct IH as [-> IH]. split; [done|].
      destruct e; try done.
      * destruct IH as (v' & ? & ?). exists v'. split; [by right|done].
      * destruct IH as (k' & ? & ?). exists k'. split; [by right|done].
      * destruct IH as (k' & f' & ? & ?). exists k', f'. split; [by right|done].
Qed.


Lemma from_json_nodes_ok int_of_str entries acc ns :
  from_json_nodes int_of_str entries acc = Ok ns →
  ∃ dec, mapM (decode_entry int_of_str) entries = Some dec
         ∧ ns = fold_left (fun d kv => PyDict.set d kv.1 kv.2) dec acc.
Proof.
  intros H. pose proof (from_json_nodes_spec int_of_str entries acc) as Hs.
  by rewrite H in Hs.
Qed.

Lemma from_json_nodes_decoded int_of_str entries acc dec :
  mapM (decode_entry int_of_str) entries = Some dec →
  from_json_nodes int_of_str entries acc
  = Ok (fold_left (fun d kv => PyDict.set d kv.1 kv.2) dec acc).
Proof.
  intros Hd. pose proof (from_json_nodes_spec int_of_str entries acc) as Hs.
  destruct (from_json_nodes _ _ _) as [ns|e].
  - destruct Hs as (dec' & Hd' & ->). congruence.
  - destruct Hs as [Hn _]. congruence.
Qed.

Lemma decode_None_mapM int_of_str entries kv :
  kv ∈ entries → decode_entry int_of_str kv = None →
  mapM (decode_entry int_of_str) entries = None.
Proof.
  induction entries as [|kv' entries IH]; intros Hin Hd.
  - by apply elem_of_nil in Hin.
  - simpl. apply elem_of_cons in Hin as [<-|Hin].
    + by rewrite Hd.
    + rewrite IH by done. by destruct (decode_entry int_of_str kv').
Qed.

(** What an exception of [toq_from_json] says about the document. *)
Lemma from_json_raise_described int_of_str obj e :
  toq_from_json int_of_str obj = Raise e →
  match e with
  | JsonMissingKeys => json_missing_keys obj
  | JsonNodesNotMapping => json_nodes_not_mapping obj
  | JsonInvalidKey _ => json_bad_key int_of_str obj
  | JsonInvalidEntry _ => json_entry_not_mapping obj
  | JsonMissingField _ _ => json_missing_field obj
  | _ => json_fails_validation int_of_str obj
  end.
Proof.
  unfold toq_from_json.
  assert (∀ t, resulting_tree int_of_str obj = Some t → validate t = Raise e →
               json_fails_validation int_of_str obj) as Hval.
  { intros t Ht Hv. exists t. split; [done|]. by rewrite Hv. }
  unfold resulting_tree in Hval.
  destruct (j_root_id obj) as [root|] eqn:Hroot.
  2:{ intros [= <-]. by left. }
  destruct (j_nodes obj) as [[|entries]|] eqn:Hnodes.
  3:{ intros [= <-]. by right. }
  { intros [= <-]. done. }
  pose proof (from_json_nodes_spec int_of_str entries []) as Hs.
  destruct (from_json_nodes int_of_str entries []) as [ns|e'] eqn:Hns; simpl.
  - destruct Hs as (dec & Hdec & ->). simpl in Hval. rewrite Hdec in Hval.
    simpl in Hval. specialize (Hval _ eq_refl).
    fold (PyDict.of_list dec).
    destruct (validate (mkToQ (PyDict.of_list dec) root)) as [[]|e''] eqn:Hv;
      simpl; [done|].
    intros [= <-]. specialize (Hval eq_refl).
    apply validate_raise_reported in Hv; [|apply of_list_wf].
    by destruct e''.
  - intros [= <-]. destruct Hs as [_ Hs]. destruct e'; try done.
    + destruct Hs as (v & ? & ?). by exists entries, k, v.
    + destruct Hs as (k & ? & ?). by exists entries, k.
    + destruct Hs as (k & f & ? & _ & Hf). exists entries, k, f.
      split_and!; [done..|]. naive_solver.
Qed.

Lemma from_json_ok_inv int_of_str obj t :
  toq_from_json int_of_str obj = Ok t →
  resulting_tree int_of_str obj = Some t ∧ validate t = Ok tt.
Proof.
  unfold toq_from_json, resulting_tree.
  destruct (j_root_id obj) as [root|]; [|done].
  destruct (j_nodes obj) as [[|entries]|]; [done| |done].
  destruct (from_json_nodes int_of_str entries []) as [ns|e'] eqn:Hns; [|done].
  apply from_json_nodes_ok in Hns as (dec & Hdec & ->). simpl. rewrite Hdec. simpl.
  fold (PyDict.of_list dec).
  destruct (validate (mkToQ (PyDict.of_list dec) root)) as [[]|e''] eqn:Hv; simpl; [|done].
  by intros [= <-].
Qed.

(** C7, amended.  [toq_from_json] raises exactly on: a missing [root_id] or
    [nodes] key; a [nodes] value that is not a mapping; a key that [int()]
    rejects; a node entry that is not a mapping; a node entry without its [id]
    or [text]; a resulting tree that fails validation.  The exception names the
    ground; a returned tree is the one the document stands for, and has passed
    validation; [{"nodes": {}}] is rejected for its missing [root_id]. *)
Theorem from_json_raises_iff (int_of_str : string → option Z) (obj : JsonToQ) :
  (raises (toq_from_json int_of_str obj)
   ↔ json_rejected_as_listed int_of_str obj ∨ json_entry_not_mapping obj)
  ∧ (∀ e, toq_from_json int_of_str obj = Raise e →
       match e with
       | JsonMissingKeys => json_missing_keys obj
       | JsonNodesNotMapping => json_nodes_not_mapping obj
       | JsonInvalidKey _ => json_bad_key int_of_str obj
       | JsonInvalidEntry _ => json_entry_not_mapping obj
       | JsonMissingField _ _ => json_missing_field obj
       | _ => json_fails_validation int_of_str obj
       end)
  ∧ (∀ t, toq_from_json int_of_str obj = Ok t →
       resulting_tree int_of_str obj = Some t ∧ validate t = Ok tt)
  ∧ toq_from_json int_of_str json_no_root = Raise JsonMissingKeys.
Proof.
  split_and!; [|apply from_json_raise_described|apply from_json_ok_inv|done].
  split.
  - destruct (toq_from_json int_of_str obj) as [t|e] eqn:He; [done|]. intros _.
    apply from_json_raise_described in He. unfold json_rejected_as_listed.
    destruct e; tauto.
  - intros Hrej. destruct (toq_from_json int_of_str obj) as [t|e] eqn:He; [|done].
    apply from_json_ok_inv in He as [Ht Hv]. unfold resulting_tree in Ht.
    destruct (j_root_id obj) as [root|] eqn:Hroot; [|done]. simpl in Ht.
    destruct (j_nodes obj) as [[|entries]|] eqn:Hnodes; [done| |done].
    destruct (mapM (decode_entry int_of_str) entries) as [dec|] eqn:Hdec; [|done].
    assert (∀ kv, kv ∈ entries → decode_entry int_of_str kv ≠ None) as Hall.
    { intros kv Hin Hn. by rewrite (decode_None_mapM _ _ _ Hin Hn) in Hdec. }
    destruct Hrej as [[Hr|[Hr|[Hr|[Hr|Hr]]]]|Hr].
    + destruct Hr; congruence.
    + unfold json_nodes_not_mapping in Hr. congruence.
    + destruct Hr as (en & k & v & Hen & Hin & Hk).
      assert (en = entries) as -> by congruence.
      apply (Hall _ Hin). unfold decode_entry. simpl. by rewrite Hk.
    + destruct Hr as (en & k & f & Hen & Hin & Hf).
      assert (en = entries) as -> by congruence.
      apply (Hall _ Hin). unfold decode_entry. simpl.
      destruct (int_of_str k); [simpl|done].
      destruct Hf as [-> | ->]; [done|]. by destruct (j_id f).
    + destruct Hr as (t' & Ht' & Hv'). unfold resulting_tree in Ht'.
      rewrite Hroot, Hnodes in Ht'. simpl in Ht'. rewrite Hdec in Ht'.
      simpl in *. assert (t' = t) as -> by congruence. by rewrite Hv in Hv'.
    + destruct Hr as (en & k & Hen & Hin).
      assert (en = entries) as -> by congruence.
      apply (Hall _ Hin). unfold decode_entry. simpl. by destruct (int_of_str k).
Qed.

(** C7 as stated fails: a node entry that is not a mapping is rejected, on a
    ground of its own that the list does not have. *)
Lemma from_json_rejects_unlisted :
  toq_from_json int_of_decimal json_entry_is_number = Raise (JsonInvalidEntry 1)
  ∧ ¬ json_rejected_as_listed int_of_decimal json_entry_is_number.
Proof.
  split; [by vm_compute|].
  intros [Hr|[Hr|[Hr|[Hr|Hr]]]].
  - by destruct Hr.
  - done.
  - destruct Hr as (en & k & v & [= <-] & Hin & Hk).
    apply list_elem_of_singleton in Hin as [= -> ->]. by vm_compute in Hk.
  - destruct Hr as (en & k & f & [= <-] & Hin & _).
    by apply list_elem_of_singleton in Hin.
  - by destruct Hr as (t & Ht & _).
Qed.

(** * Round trip *)

Lemma str_of_int_inj z1 z2 : str_of_int z1 = str_of_int z2 → z1 = z2.
Proof.
  intros H. apply (f_equal int_of_decimal) in H.
  rewrite !int_of_decimal_str in H. congruence.
Qed.

Lemma json_of_node_keys (items : list (NodeId * ToQNode)) :
  (json_of_node <$> items).*1 = str_of_int <$> items.*1.
Proof. induction items as [|[nid node] items IH]; [done|]. csimpl. by f_equal. Qed.

Section RoundTrip.
Variable int_of_str : string → option Z.
Hypothesis int_of_str_str : ∀ z, int_of_str (str_of_int z) = Some z.

Lemma decode_encoded (items : list (NodeId * ToQNode)) :
  mapM (decode_entry int_of_str) (json_of_node <$> items) = Some items.
Proof.
  induction items as [|[nid node] items IH]; [done|].
  rewrite fmap_cons. simpl. rewrite IH.
  unfold decode_entry. simpl. rewrite int_of_str_str. simpl. by destruct node.
Qed.

Lemma from_json_to_json t :
  PyDict.wf (nodes t) → validate t = Ok tt →
  toq_from_json int_of_str (toq_to_json t) = Ok t.
Proof.
  intros Hwf Hv. unfold toq_from_json, toq_to_json. simpl.
  rewrite of_list_nodup.
  2:{ rewrite json_of_node_keys. apply NoDup_fmap_2; [|exact Hwf].
      intros z1 z2. apply str_of_int_inj. }
  rewrite (from_json_nodes_decoded _ _ _ _ (decode_encoded (nodes t))).
  simpl. fold (PyDict.of_list (nodes t)). rewrite of_list_nodup by exact Hwf.
  destruct t as [ns r]. simpl in *. by rewrite Hv.
Qed.
End RoundTrip.

(** C6.  For a tree that passes validation, deserializing its serialized form
    gives the tree back: same root id, same node ids in the same order, same
    texts and parents.  [int()] is any reading of integers that inverts
    [str()]. *)
Theorem json_round_trip (int_of_str : string → option Z) (t : ToQ) :
  (∀ z, int_of_str (str_of_int z) = Some z) →
  PyDict.wf (nodes t) → validate t = Ok tt →
  toq_from_json int_of_str (toq_to_json t) = Ok t.
Proof. intros Hint. by apply from_json_to_json. Qed.

Lemma json_round_trip_witness :
  toq_from_json int_of_decimal (toq_to_json toq_five) = Ok toq_five.
Proof.
  apply (json_round_trip int_of_decimal toq_five).
  - exact int_of_decimal_str.
  - by_compute.
  - vm_compute. reflexivity.
Defined.


(** * Substitution of child answers *)

Lemma append_cons c (s1 s2 : string) : String c s1 +:+ s2 = String c (s1 +:+ s2).
Proof. reflexivity. Qed.

Lemma append_nil_l (s : string) : "" +:+ s = s.
Proof. reflexivity. Qed.

Lemma append_assoc (s1 s2 s3 : string) : (s1 +:+ s2) +:+ s3 = s1 +:+ (s2 +:+ s3).
Proof.
  induction s1 as [|c s1 IH]; [done|]. rewrite !append_cons. by rewrite IH.
Qed.

Lemma occurs_append c s1 s2 :
  occurs c (s1 +:+ s2) = occurs c s1 || occurs c s2.
Proof.
  induction s1 as [|c' s1 IH]; [done|]. rewrite append_cons. simpl.
  by destruct (Ascii.eqb c' c).
Qed.

Lemma occurs_uint c d :
  occurs c (NilEmpty.string_of_uint d) = true →
  c ∈ ["0"; "1"; "2"; "3"; "4"; "5"; "6"; "7"; "8"; "9"]%char.
Proof.
  induction d as [|d IH|d IH|d IH|d IH|d IH|d IH|d IH|d IH|d IH|d IH];
    cbn [NilEmpty.string_of_uint occurs]; [done|..];
    (match goal with |- context [Ascii.eqb ?x c] => destruct (Ascii.eqb x c) eqn:E end;
     [apply Ascii.eqb_eq in E; subst c; intros _; set_solver|exact IH]).
Qed.

Lemma occurs_str_of_int c z :
  occurs c (str_of_int z) = true →
  c ∈ ["-"; "0"; "1"; "2"; "3"; "4"; "5"; "6"; "7"; "8"; "9"]%char.
Proof.
  assert (∀ d, occurs c (NilZero.string_of_uint d) = true →
               c ∈ ["0"; "1"; "2"; "3"; "4"; "5"; "6"; "7"; "8"; "9"]%char) as Hu.
  { intros d. destruct d; try apply occurs_uint.
    cbn [NilZero.string_of_uint occurs].
    match goal with |- context [Ascii.eqb ?x c] => destruct (Ascii.eqb x c) eqn:E end;
      [|done].
    apply Ascii.eqb_eq in E; subst c; intros _; set_solver. }
  unfold str_of_int. destruct (Z.to_int z) as [d|d];
    cbn [NilZero.string_of_int occurs].
  - intros H. apply Hu in H. set_solver.
  - match goal with |- context [Ascii.eqb ?x c] => destruct (Ascii.eqb x c) eqn:E end.
    + apply Ascii.eqb_eq in E; subst c; intros _; set_solver.
    + intros H. apply Hu in H. set_solver.
Qed.

Lemma str_of_int_no_open z : occurs "["%char (str_of_int z) = false.
Proof.
  destruct (occurs "["%char (str_of_int z)) eqn:E; [|done].
  apply occurs_str_of_int in E. exfalso. set_solver.
Qed.

Lemma str_of_int_no_close z : occurs "]"%char (str_of_int z) = false.
Proof.
  destruct (occurs "]"%char (str_of_int z)) eqn:E; [|done].
  apply occurs_str_of_int in E. exfalso. set_solver.
Qed.

Lemma placeholder_eq c :
  placeholder c = String "[" (String "A" (str_of_int c +:+ "]")).
Proof. reflexivity. Qed.

Lemma replace_from_cons old new c (s : string) :
  replace_from old new 0 (String c s)
  = if String.prefix old (String c s)
    then new +:+ replace_from old new (Nat.pred (String.length old)) s
    else String c (replace_from old new 0 s).
Proof. reflexivity. Qed.

Lemma replace_from_skip_cons old new k c (s : string) :
  replace_from old new (S k) (String c s) = replace_from old new k s.
Proof. reflexivity. Qed.

Lemma prefix_cons a (s1 : string) b (s2 : string) :
  String.prefix (String a s1) (String b s2)
  = if Ascii.ascii_dec a b then String.prefix s1 s2 else false.
Proof. reflexivity. Qed.

Lemma occurs_cons c c' (s : string) :
  occurs c (String c' s) = if Ascii.eqb c' c then true else occurs c s.
Proof. reflexivity. Qed.

Lemma prefix_append (s s2 : string) : String.prefix s (s +:+ s2) = true.
Proof.
  induction s as [|c s IH]; [by destruct s2|]. rewrite append_cons, prefix_cons.
  by destruct (Ascii.ascii_dec c c).
Qed.

(** Text without an opening bracket is copied. *)
Lemma replace_from_plain old' a (s1 s2 : string) :
  plain s1 →
  replace_from (String "[" old') a 0 (s1 +:+ s2)
  = s1 +:+ replace_from (String "[" old') a 0 s2.
Proof.
  unfold plain. induction s1 as [|ch s1 IH]; [done|].
  rewrite !append_cons, occurs_cons, replace_from_cons, prefix_cons.
  destruct (Ascii.eqb ch "[") eqn:E; [done|]. intros Hp.
  apply Ascii.eqb_neq in E.
  destruct (Ascii.ascii_dec "[" ch) as [<-|_]; [done|]. by rewrite IH.
Qed.

(** A replaced occurrence is passed over. *)
Lemma replace_from_skip old a (s1 s2 : string) :
  replace_from old a (String.length s1) (s1 +:+ s2) = replace_from old a 0 s2.
Proof.
  induction s1 as [|ch s1 IH]; [done|].
  rewrite append_cons. cbn [String.length]. by rewrite replace_from_skip_cons.
Qed.

Lemma replace_from_match old' a (s2 : string) :
  replace_from (String "[" old') a 0 (String "[" old' +:+ s2)
  = a +:+ replace_from (String "[" old') a 0 s2.
Proof.
  rewrite append_cons, replace_from_cons.
  rewrite <-append_cons, prefix_append. cbn [String.length Nat.pred].
  by rewrite replace_from_skip.
Qed.

Lemma prefix_close (x y s2 : string) :
  occurs "]" x = false → occurs "]" y = false →
  String.prefix (x +:+ "]") ((y +:+ "]") +:+ s2) = true → x = y.
Proof.
  revert y. induction x as [|cx x IH]; intros [|cy y].
  - done.
  - intros _. rewrite append_nil_l, !append_cons, occurs_cons, prefix_cons.
    destruct (Ascii.eqb cy "]") eqn:E; [done|]. apply Ascii.eqb_neq in E.
    intros _. by destruct (Ascii.ascii_dec "]" cy) as [<-|_].
  - rewrite append_nil_l, !append_cons, occurs_cons, prefix_cons.
    destruct (Ascii.eqb cx "]") eqn:E; [done|]. apply Ascii.eqb_neq in E.
    intros _ _. by destruct (Ascii.ascii_dec cx "]") as [->|_].
  - rewrite !append_cons, !occurs_cons, prefix_cons.
    destruct (Ascii.eqb cx "]"); [done|]. destruct (Ascii.eqb cy "]"); [done|].
    intros Hx Hy. destruct (Ascii.ascii_dec cx cy) as [->|_]; [|done].
    intros Hp. f_equal. by apply IH.
Qed.

Lemma replace_from_other c d a (s2 : string) :
  d ≠ c →
  replace_from (placeholder c) a 0 (placeholder d +:+ s2)
  = placeholder d +:+ replace_from (placeholder c) a 0 s2.
Proof.
  intros Hne. rewrite !placeholder_eq, !append_cons, replace_from_cons.
  rewrite !prefix_cons.
  destruct (Ascii.ascii_dec "[" "[") as [_|?]; [|done].
  destruct (Ascii.ascii_dec "A" "A") as [_|?]; [|done].
  destruct (String.prefix _ _) eqn:E.
  { apply prefix_close in E; [|apply str_of_int_no_close..].
    apply str_of_int_inj in E. congruence. }
  f_equal. rewrite <-(append_cons "A" (str_of_int d +:+ "]") s2).
  rewrite (replace_from_plain _ a (String "A" (str_of_int d +:+ "]"))); [done|].
  unfold plain. rewrite occurs_cons, occurs_append, str_of_int_no_open. done.
Qed.

Lemma replace_render c a ps :
  Forall plain_piece ps →
  replace (placeholder c) a (render ps) = render (fill_one c a <$> ps).
Proof.
  intros Hps.
  change (replace (placeholder c) a (render ps))
    with (replace_from (placeholder c) a 0 (render ps)).
  induction Hps as [|[s|d] ps Hp Hps IH]; [done|..];
    rewrite fmap_cons; cbn [render fill_one].
  - rewrite placeholder_eq, replace_from_plain by done. by rewrite <-placeholder_eq, IH.
  - case_bool_decide as Hd.
    + subst d. cbn [render]. rewrite <-IH. rewrite !placeholder_eq.
      apply replace_from_match.
    + cbn [render]. rewrite <-IH. by apply replace_from_other.
Qed.

Lemma fill_one_plain c a ps :
  plain a → Forall plain_piece ps → Forall plain_piece (fill_one c a <$> ps).
Proof.
  intros Ha Hps. apply Forall_fmap. eapply Forall_impl; [exact Hps|].
  intros [s|d]; simpl; [done|]. by case_bool_decide.
Qed.

Lemma fill_fill_one c a m ps :
  fill m (fill_one c a <$> ps) = fill ((c, a) :: m) ps.
Proof.
  induction ps as [|[s|d] ps IH]; [done|..]; csimpl.
  - by rewrite IH.
  - rewrite <-IH. case_bool_decide as Hd.
    + subst d. simpl. by rewrite decide_True.
    + simpl. by rewrite decide_False by congruence.
Qed.

Lemma fill_nil ps : fill [] ps = render ps.
Proof. induction ps as [|[s|d] ps IH]; [done|..]; simpl; by rewrite IH. Qed.

(** On a template whose opening brackets all begin a placeholder, and with
    answers that hold no opening bracket, the sequential replacements amount to
    one simultaneous substitution. *)
Lemma default_substituter_fill m ps :
  Forall plain_piece ps → Forall (fun item : NodeId * string => plain item.2) m →
  default_substituter (render ps) m = fill m ps.
Proof.
  unfold default_substituter. revert ps.
  induction m as [|[c a] m IH]; intros ps Hps Hm; cbn [fold_left fst snd].
  - by rewrite fill_nil.
  - apply Forall_cons in Hm as [Ha Hm]. simpl in Ha.
    rewrite replace_render by done. rewrite IH; [|by apply fill_one_plain|done].
    apply fill_fill_one.
Qed.

Lemma get_Permutation {V} (m m' : list (NodeId * V)) c :
  PyDict.wf m → m ≡ₚ m' → PyDict.get m c = PyDict.get m' c.
Proof.
  intros Hwf Hperm.
  assert (PyDict.wf m') as Hwf'.
  { unfold PyDict.wf, PyDict.keys in *. by rewrite <-Hperm. }
  destruct (PyDict.get m c) as [v|] eqn:E.
  - symmetry. apply elem_get; [done|]. rewrite <-Hperm. by apply get_Some_elem.
  - destruct (PyDict.get m' c) as [v'|] eqn:E'; [|done].
    apply get_Some_elem in E'. rewrite <-Hperm in E'.
    apply elem_get in E'; [congruence|done].
Qed.

Lemma fill_ext m m' ps :
  (∀ c, PyDict.get m c = PyDict.get m' c) → fill m ps = fill m' ps.
Proof.
  intros Hget. induction ps as [|[s|d] ps IH]; [done|..]; simpl.
  - by rewrite IH.
  - by rewrite IH, Hget.
Qed.

(** C8, amended.  [default_substituter] replaces, entry after entry in the
    order of the mapping, every occurrence of the entry's placeholder in the
    text obtained so far.  When every opening bracket of the template begins a
    placeholder [[A<id>]] and no answer holds an opening bracket, the result is
    the template with every placeholder of a child of the mapping replaced by
    that child's answer and nothing else rewritten, whatever the order of the
    entries. *)
Theorem default_substituter_simultaneous
    (ps : list piece) (m m' : list (NodeId * string)) :
  Forall plain_piece ps →
  Forall (fun item : NodeId * string => plain item.2) m →
  PyDict.wf m → m ≡ₚ m' →
  default_substituter (render ps) m = fill m ps
  ∧ default_substituter (render ps) m' = default_substituter (render ps) m.
Proof.
  intros Hps Hm Hwf Hperm. split; [by apply default_substituter_fill|].
  rewrite !default_substituter_fill; [|done..|by rewrite <-Hperm].
  apply fill_ext. intros c. symmetry. by apply get_Permutation.
Qed.

Lemma default_substituter_simultaneous_witness :
  default_substituter "Which is bigger, [A1] or [A2]?" [(1, "7"); (2, "9")]
  = "Which is bigger, 7 or 9?"
  ∧ default_substituter "Which is bigger, [A1] or [A2]?" [(2, "9"); (1, "7")]
    = default_substituter "Which is bigger, [A1] or [A2]?" [(1, "7"); (2, "9")].
Proof.
  apply (default_substituter_simultaneous
           [Lit "Which is bigger, "; Hole 1; Lit " or "; Hole 2; Lit "?"]
           [(1, "7"); (2, "9")] [(2, "9"); (1, "7")]).
  - repeat constructor.
  - repeat constructor.
  - by_compute.
  - apply Permutation_swap.
Defined.

(** C8 as stated fails: the entries are processed one after the other, so an
    answer that spells another child's placeholder is rewritten in turn, and
    the result depends on the order of the entries. *)
Lemma default_substituter_order_matters :
  [(1, "[A2]"); (2, "x")] ≡ₚ [(2, "x"); (1, "[A2]")]
  ∧ default_substituter "[A1]" [(1, "[A2]"); (2, "x")] = "x"
  ∧ default_substituter "[A1]" [(2, "x"); (1, "[A2]")] = "[A2]".
Proof. split_and!; [apply Permutation_swap|by vm_compute..]. Qed.


(** * Post-order *)

Lemma before_app_l (l l' : list Z) x y : before l x y → before (l ++ l') x y.
Proof.
  intros (l1 & l2 & l3 & ->). exists l1, l2, (l3 ++ l').
  repeat (rewrite <-app_assoc; simpl). done.
Qed.

Lemma before_app_r (l l' : list Z) x y : before l' x y → before (l ++ l') x y.
Proof.
  intros (l1 & l2 & l3 & ->). exists (l ++ l1), l2, l3.
  repeat (rewrite <-app_assoc; simpl). done.
Qed.

Lemma before_snoc (l : list Z) x y : x ∈ l → before (l ++ [y]) x y.
Proof.
  intros Hx. apply list_elem_of_split in Hx as (l1 & l2 & ->).
  exists l1, l2, []. repeat (rewrite <-app_assoc; simpl). done.
Qed.

Lemma before_cons_inv (l : list Z) n x y :
  NoDup (n :: l) → before (n :: l) x y → (x = n ∧ y ∈ l) ∨ before l x y.
Proof.
  intros Hnd (l1 & l2 & l3 & Heq). destruct l1 as [|n' l1]; simpl in Heq.
  - injection Heq as -> ->. left. split; [done|]. set_solver.
  - injection Heq as -> ->. right. by exists l1, l2, l3.
Qed.

Lemma descends_inv t v c :
  descends t v c → c = v ∨ ∃ p, parent_of t c = Some p ∧ descends t v p.
Proof.
  intros [[|k] Hk]; simpl in Hk.
  - left. congruence.
  - right. destruct (parent_of t c) as [p|]; [|done]. exists p. split; [done|].
    by exists k.
Qed.

Section PostorderDfs.
Variable t : ToQ.
Hypothesis Hwf : PyDict.wf (nodes t).
Hypothesis Hck : checked t.

Lemma kids_spec u v :
  u ∈ node_ids t → v ∈ get_children (children t) u ↔ parent_of t v = Some u.
Proof.
  intros Hu. rewrite get_children_spec, decide_True by done. by apply elem_kids_of.
Qed.

Lemma kids_parent u v : v ∈ get_children (children t) u → parent_of t v = Some u.
Proof.
  rewrite get_children_spec by done. case_decide; [|by rewrite elem_of_nil].
  by apply elem_kids_of.
Qed.

Lemma kids_NoDup u : NoDup (get_children (children t) u).
Proof.
  rewrite get_children_spec by done. case_decide; [|constructor].
  by apply NoDup_kids_of.
Qed.

Lemma postorder_loop_spec rec b u :
  (∀ v V ord, descends t (root_id t) v → (∀ w, descends t v w → w ∉ V) →
     (size (node_set t ∖ V) ≤ b)%nat →
     ∃ V' l, rec v (V, ord) = Ok (V', ord ++ l) ∧ dfs_post t v V V'
             ∧ postorder_of t v l) →
  descends t (root_id t) u →
  ∀ vs (Vc : gset Z) ord,
    NoDup vs → (∀ v, v ∈ vs → parent_of t v = Some u) →
    (∀ v w, v ∈ vs → descends t v w → w ∉ Vc) →
    (size (node_set t ∖ Vc) ≤ b)%nat →
    ∃ V' l, postorder_dfs_loop rec vs (Vc, ord) = Ok (V', ord ++ l)
            ∧ (∀ w, w ∈ V' ↔ w ∈ Vc ∨ ∃ v, v ∈ vs ∧ descends t v w)
            ∧ postorder_of_all t vs l.
Proof.
  intros Hrec Hu. induction vs as [|v vs IH]; intros Vc ord Hnd Hpar Hfresh Hsz.
  - exists Vc, []. rewrite app_nil_r. split_and!; [done| |].
    + intros w. split; [auto|]. intros [?|(v & Hv & _)]; [done|].
      by apply elem_of_nil in Hv.
    + split_and!; [constructor| |].
      * intros w. rewrite elem_of_nil. split; [done|]. intros (v & Hv & _).
        by apply elem_of_nil in Hv.
      * intros c p _ Hc. by apply elem_of_nil in Hc.
  - apply NoDup_cons in Hnd as [Hv Hnd]. simpl.
    assert (parent_of t v = Some u) as Hpv by (apply Hpar; left).
    destruct (Hrec v Vc ord) as (V1 & l1 & -> & Hpost & Hpo).
    { eapply descends_trans; [exact Hu|]. by apply descends_child. }
    { intros w. apply Hfresh. left. }
    { done. }
    unfold dfs_post in Hpost. simpl.
    destruct (IH V1 (ord ++ l1)) as (V' & l2 & -> & HV' & Hpo2); [done| | | |].
    + intros v' Hv'. apply Hpar. by right.
    + intros v' w Hv' Hd Hw. apply Hpost in Hw as [Hw|Hw].
      * revert Hw. apply (Hfresh v'); [by right|done].
      * assert (v = v'); [|by subst].
        eapply (siblings_disjoint t Hck u v v' w); auto. apply Hpar. by right.
    + eapply budget_mono; [|exact Hsz]. intros x Hx. apply Hpost. by left.
    + destruct Hpo as (Hnd1 & Hin1 & Hbef1 & _).
      destruct Hpo2 as (Hnd2 & Hin2 & Hbef2).
      assert (∀ w, w ∈ l1 → w ∈ l2 → False) as Hdisj.
      { intros w Hw1 Hw2. apply Hin1 in Hw1. apply Hin2 in Hw2 as (v' & Hv' & Hd').
        assert (v = v'); [|by subst].
        eapply (siblings_disjoint t Hck u v v' w); auto. apply Hpar. by right. }
      exists V', (l1 ++ l2). rewrite app_assoc. split_and!; [done| |].
      * intros w. rewrite HV', Hpost. split.
        -- intros [[?|?]|(v' & ? & ?)]; [by left|right; exists v|right; exists v'];
             (split; [|done]); [left|by right].
        -- intros [?|(v' & Hv' & ?)]; [by left; left|].
           apply elem_of_cons in Hv' as [->|?]; [by left; right|right; by exists v'].
      * split_and!.
        -- apply NoDup_app. split_and!; [done| |done]. intros w Hw1 Hw2.
           by apply (Hdisj w).
        -- intros w. rewrite elem_of_app, Hin1, Hin2. split.
           ++ intros [?|(v' & ? & ?)]; [exists v|exists v']; (split; [|done]);
                [left|by right].
           ++ intros (v' & Hv' & ?). apply elem_of_cons in Hv' as [->|?];
                [by left|right; by exists v'].
        -- intros c p Hcp Hc Hp.
           apply elem_of_app in Hc as [Hc|Hc]; apply elem_of_app in Hp as [Hp|Hp].
           ++ apply before_app_l. by apply Hbef1.
           ++ exfalso. apply Hin1 in Hc. apply Hin2 in Hp as (v' & Hv' & Hd').
              apply descends_inv in Hc as [->|(p' & Hp' & Hd)].
              ** rewrite Hpv in Hcp. injection Hcp as <-.
                 eapply (child_not_ancestor t Hck u v'); [done| |done].
                 apply Hpar. by right.
              ** rewrite Hp' in Hcp. injection Hcp as ->.
                 assert (v = v'); [|by subst].
                 eapply (siblings_disjoint t Hck u v v' p); auto. apply Hpar. by right.
           ++ exfalso. apply Hin1 in Hp. apply Hin2 in Hc as (v' & Hv' & Hd').
              assert (parent_of t v' = Some u) as Hpv' by (apply Hpar; by right).
              apply descends_inv in Hd' as [->|(p' & Hp' & Hd)].
              ** rewrite Hpv' in Hcp. injection Hcp as <-.
                 by eapply (child_not_ancestor t Hck u v).
              ** rewrite Hp' in Hcp. injection Hcp as ->.
                 assert (v = v'); [|by subst].
                 by eapply (siblings_disjoint t Hck u v v' p).
           ++ apply before_app_r. by apply Hbef2.
Qed.

Lemma postorder_dfs_spec b :
  ∀ u V ord, descends t (root_id t) u → (∀ w, descends t u w → w ∉ V) →
    (size (node_set t ∖ V) ≤ b)%nat →
    ∃ V' l, postorder_dfs b (children t) u (V, ord) = Ok (V', ord ++ l)
            ∧ dfs_post t u V V' ∧ postorder_of t u l.
Proof.
  induction b as [|b IH]; intros u V ord Hu Hfresh Hsz.
  - exfalso. assert (u ∈ node_set t ∖ V) as Hin.
    { apply elem_of_difference. split.
      - apply elem_of_list_to_set. by apply descends_in_keys.
      - apply Hfresh, descends_refl. }
    apply Nat.le_0_r, size_empty_inv in Hsz. set_solver.
  - assert (u ∈ node_ids t) as Hukeys by by apply descends_in_keys.
    assert (u ∉ V) as HuV by apply Hfresh, descends_refl.
    simpl. rewrite bool_decide_eq_false_2 by done.
    destruct (postorder_loop_spec (postorder_dfs b (children t)) b u IH Hu
                (get_children (children t) u) ({[u]} ∪ V) ord)
      as (V' & l & -> & HV' & Hnd & Hin & Hbef).
    + apply kids_NoDup.
    + intros v. apply kids_parent.
    + intros v w Hv Hd Hw. apply kids_parent in Hv.
      apply elem_of_union in Hw as [Hw|Hw].
      * apply elem_of_singleton in Hw. subst w. by eapply child_not_ancestor.
      * revert Hw. apply Hfresh. eapply descends_trans; [|exact Hd].
        by apply descends_child.
    + by apply budget_step.
    + simpl. exists V', (l ++ [u]). rewrite app_assoc. split_and!; [done| |].
      * intros w. rewrite HV', descends_split, elem_of_union, elem_of_singleton.
        split.
        -- intros [[->|?]|(v & Hv & Hd)]; [right; by left|by left|].
           right; right. exists v. split; [by apply kids_parent|done].
        -- intros [?|[->|(v & Hv & Hd)]]; [left; by right|left; by left|].
           right. exists v. by rewrite kids_spec.
      * assert (u ∉ l) as Hul.
        { intros Hl. apply Hin in Hl as (v & Hv & Hd). apply kids_parent in Hv.
          by eapply child_not_ancestor. }
        split_and!.
        -- apply NoDup_app. split_and!; [done| |apply NoDup_singleton].
           intros w Hw Hw'. apply list_elem_of_singleton in Hw'. by subst.
        -- intros w. rewrite elem_of_app, list_elem_of_singleton, Hin, descends_split.
           split.
           ++ intros [(v & Hv & Hd)| ->]; [right|by left]. exists v.
              split; [by apply kids_parent|done].
           ++ intros [->|(v & Hv & Hd)]; [by right|left]. exists v.
              by rewrite kids_spec.
        -- intros c p Hcp Hc Hp.
           apply elem_of_app in Hc as [Hc|Hc]; apply elem_of_app in Hp as [Hp|Hp].
           ++ apply before_app_l. by apply Hbef.
           ++ apply list_elem_of_singleton in Hp. subst p. by apply before_snoc.
           ++ exfalso. apply list_elem_of_singleton in Hc. subst c.
              apply Hin in Hp as (v & Hv & Hd). apply kids_parent in Hv.
              eapply (child_not_ancestor t Hck u v); [done..|].
              eapply descends_trans; [exact Hd|]. by apply descends_child.
           ++ exfalso. apply list_elem_of_singleton in Hc.
              apply list_elem_of_singleton in Hp. subst c p.
              by apply (ck_no_self t Hck u).
        -- by exists l.
Qed.

(** [_postorder] lists the nodes below the root in post-order. *)
Lemma postorder_spec :
  ∃ order, postorder t = Ok order ∧ postorder_of t (root_id t) order.
Proof.
  unfold postorder.
  destruct (postorder_dfs_spec (length (nodes t)) (root_id t) ∅ [])
    as (V' & l & -> & _ & Hpo).
  - apply descends_refl.
  - set_solver.
  - etrans; [apply subseteq_size; apply subseteq_difference_l; reflexivity|].
    unfold node_set, node_ids, PyDict.keys.
    rewrite size_list_to_set by exact Hwf. by rewrite length_fmap.
  - by exists l.
Qed.
End PostorderDfs.


(** * Evaluation *)

Lemma get_app_l {V} (d d' : list (NodeId * V)) k :
  k ∈ PyDict.keys d → PyDict.get (d ++ d') k = PyDict.get d k.
Proof.
  unfold PyDict.keys. induction d as [|[k0 v0] d IH]; simpl.
  - intros H. by apply elem_of_nil in H.
  - intros H. destruct (decide (k0 = k)); [done|]. apply IH.
    apply elem_of_cons in H as [?|?]; [congruence|done].
Qed.

Lemma get_app_r {V} (d d' : list (NodeId * V)) k :
  k ∉ PyDict.keys d → PyDict.get (d ++ d') k = PyDict.get d' k.
Proof.
  unfold PyDict.keys. induction d as [|[k0 v0] d IH]; simpl; [done|].
  intros H. apply not_elem_of_cons in H as [? ?]. by rewrite decide_False, IH.
Qed.

Lemma child_answer_texts_ok answers cs acc :
  NoDup cs → (∀ c, c ∈ cs → c ∉ PyDict.keys acc) →
  (∀ c, c ∈ cs → c ∈ PyDict.keys answers) →
  child_answer_texts answers cs acc = Ok (acc ++ child_answers_of answers cs).
Proof.
  revert acc. induction cs as [|c cs IH]; intros acc Hnd Hfresh Hans; simpl.
  - by rewrite app_nil_r.
  - apply NoDup_cons in Hnd as [Hc Hnd].
    destruct (in_keys_get answers c) as [a Ha]; [apply Hans; left|].
    unfold subscript, child_answers_of. rewrite Ha. simpl.
    rewrite set_fresh by (apply Hfresh; left).
    rewrite IH; [by rewrite <-app_assoc|done| |].
    + intros c' Hc'. unfold PyDict.keys. rewrite fmap_app, elem_of_app. simpl.
      intros [?|Heq%list_elem_of_singleton]; [|by subst].
      apply (Hfresh c'); [by right|done].
    + intros c' Hc'. apply Hans. by right.
Qed.

Lemma child_answers_of_ext answers answers' cs :
  (∀ c, c ∈ cs → PyDict.get answers' c = PyDict.get answers c) →
  child_answers_of answers' cs = child_answers_of answers cs.
Proof.
  unfold child_answers_of. induction cs as [|c cs IH]; intros Hext; [done|].
  cbn [omap list_omap]. rewrite Hext by left. rewrite IH; [done|].
  intros c' Hc'. apply Hext. by right.
Qed.

Lemma question_at_ext t sub answers answers' n :
  (∀ c, c ∈ get_children (children t) n →
        PyDict.get answers' c = PyDict.get answers c) →
  question_at t sub answers' n = question_at t sub answers n.
Proof.
  intros Hext. unfold question_at. by rewrite (child_answers_of_ext answers answers').
Qed.

Section EvaluateFacts.
Context {W : Type}.
Variable answerer : string → option string → W → Answer * W.
Variable sub : string → list (NodeId * string) → string.
Variable context : option string.
Variable t : ToQ.

Lemma evaluate_node_spec tr n w :
  n ∈ node_ids t →
  NoDup (get_children (children t) n) →
  (∀ c, c ∈ get_children (children t) n → c ∈ PyDict.keys (answer tr)) →
  ∃ q, question_at t sub (answer tr) n = Some q ∧
    evaluate_node answerer context t (children t) sub tr n w
    = (Ok (mkEvalTrace (PyDict.set (rendered_question tr) n q)
                       (PyDict.set (answer tr) n (answerer q context w).1)),
       (answerer q context w).2).
Proof.
  intros Hn Hnd Hcs. destruct (in_keys_get (nodes t) n Hn) as [node Hnode].
  unfold question_at, evaluate_node. rewrite Hnode. simpl.
  eexists. split; [done|].
  unfold mbind, M_bind, lift, subscript. rewrite Hnode.
  rewrite child_answer_texts_ok; [|done| |done].
  2:{ intros c _. unfold PyDict.keys. simpl. apply not_elem_of_nil. }
  simpl. unfold call, mret, M_ret.
  by destruct (answerer _ context w).
Qed.

Lemma evaluate_loop_spec rest :
  ∀ done_ tr w,
    PyDict.keys (rendered_question tr) = done_ →
    PyDict.keys (answer tr) = done_ →
    NoDup (done_ ++ rest) →
    (∀ n, n ∈ rest → n ∈ node_ids t) →
    (∀ n, n ∈ rest → NoDup (get_children (children t) n)) →
    (∀ n c, n ∈ rest → c ∈ get_children (children t) n → c ∈ done_ ∨ before rest c n) →
    ∃ tr' w' new_r new_a,
      evaluate_loop answerer context t (children t) sub rest tr w = (Ok tr', w')
      ∧ rendered_question tr' = rendered_question tr ++ new_r
      ∧ answer tr' = answer tr ++ new_a
      ∧ new_r.*1 = rest ∧ new_a.*1 = rest
      ∧ answer_all answerer context new_r.*2 w = (new_a.*2, w')
      ∧ ∀ n, n ∈ rest →
          PyDict.get (rendered_question tr') n = question_at t sub (answer tr') n.
Proof.
  induction rest as [|n rest IH]; intros done_ tr w Hr Ha Hnd Hin Hkids Hbefore.
  - exists tr, w, [], []. rewrite !app_nil_r. split_and!; try done.
    intros n Hn. by apply elem_of_nil in Hn.
  - assert (n ∉ done_) as Hfresh.
    { apply NoDup_app in Hnd as (_ & Hd & _). intros Hn. apply (Hd n Hn). left. }
    assert (NoDup (n :: rest)) as Hnd'.
    { by apply NoDup_app in Hnd as (_ & _ & ?). }
    destruct (evaluate_node_spec tr n w) as (q & Hq & Hnode).
    { apply Hin. left. }
    { apply Hkids. left. }
    { intros c Hc. rewrite Ha. destruct (Hbefore n c ltac:(left) Hc) as [?|Hb]; [done|].
      exfalso. destruct (before_cons_inv _ _ _ _ Hnd' Hb) as [[-> Hn]|Hb'].
      - by apply NoDup_cons in Hnd' as [? _].
      - destruct Hb' as (l1 & l2 & l3 & ->). apply NoDup_cons in Hnd' as [Hn' _].
        apply Hn'. set_solver. }
    simpl. unfold mbind at 1, M_bind at 1. rewrite Hnode.
    destruct (answerer q context w) as [a w1] eqn:Hcall. simpl.
    rewrite !set_fresh by (rewrite ?Hr, ?Ha; done).
    set (tr1 := mkEvalTrace (rendered_question tr ++ [(n, q)]) (answer tr ++ [(n, a)])).
    destruct (IH (done_ ++ [n]) tr1 w1) as (tr' & w' & new_r & new_a & Hrun & Hnr & Hna
                                            & Hkr & Hka & Hall & Hqs).
    { unfold PyDict.keys. simpl. rewrite fmap_app. by rewrite <-Hr. }
    { unfold PyDict.keys. simpl. rewrite fmap_app. by rewrite <-Ha. }
    { by rewrite <-app_assoc. }
    { intros n' Hn'. apply Hin. by right. }
    { intros n' Hn'. apply Hkids. by right. }
    { intros n' c Hn' Hc.
      destruct (Hbefore n' c ltac:(by right) Hc) as [?|Hb].
      - left. apply elem_of_app. by left.
      - destruct (before_cons_inv _ _ _ _ Hnd' Hb) as [[-> _]|Hb']; [|by right].
        left. apply elem_of_app. right. left. }
    exists tr', w', ((n, q) :: new_r), ((n, a) :: new_a).
    simpl in Hnr, Hna. rewrite <-app_assoc in Hnr, Hna. simpl in Hnr, Hna.
    split_and!; [done|done|done|by rewrite fmap_cons, Hkr|by rewrite fmap_cons, Hka| |].
    + rewrite !fmap_cons. simpl. by rewrite Hcall, Hall.
    + intros n' Hn'. apply elem_of_cons in Hn' as [->|Hn']; [|by apply Hqs].
      rewrite Hnr, get_app_r by (by rewrite Hr). simpl. rewrite decide_True by done.
      rewrite <-Hq. symmetry. apply question_at_ext. intros c Hc.
      rewrite Hna. apply get_app_l. rewrite Ha.
      destruct (Hbefore n c ltac:(left) Hc) as [?|Hb]; [done|].
      exfalso. destruct (before_cons_inv _ _ _ _ Hnd' Hb) as [[-> Hn]|Hb'].
      * by apply NoDup_cons in Hnd' as [? _].
      * destruct Hb' as (l1 & l2 & l3 & ->). apply NoDup_cons in Hnd' as [Hn'' _].
        apply Hn''. set_solver.
Qed.
End EvaluateFacts.

Lemma evaluate_toq_raise {W} (answerer : string → option string → W → Answer * W)
    substituter context t w e :
  validate t = Raise e →
  evaluate_toq answerer substituter context t w = (Raise e, w).
Proof. intros Hv. unfold evaluate_toq, mbind, M_bind, lift. by rewrite Hv. Qed.

Lemma well_formed_order t order :
  PyDict.wf (nodes t) → well_formed t → postorder_of t (root_id t) order →
  order ≡ₚ node_ids t.
Proof.
  intros Hwf [Hck Hreach] (Hnd & Hin & _). apply NoDup_Permutation; [done|exact Hwf|].
  intros x. rewrite Hin. split; [by apply descends_in_keys|apply Hreach].
Qed.

(** What [evaluate_toq] does on a tree that passes validation, for any
    answerer. *)
Lemma evaluate_toq_spec {W} (answerer : string → option string → W → Answer * W)
    substituter context t w :
  PyDict.wf (nodes t) → validate t = Ok tt →
  ∃ order trace w',
    postorder t = Ok order
    ∧ postorder_of t (root_id t) order
    ∧ evaluate_toq answerer substituter context t w = (Ok trace, w')
    ∧ PyDict.keys (rendered_question trace) = order
    ∧ PyDict.keys (answer trace) = order
    ∧ answer_all answerer context (rendered_question trace).*2 w
      = ((answer trace).*2, w')
    ∧ ∀ n, n ∈ node_ids t →
        PyDict.get (rendered_question trace) n
        = question_at t (default default_substituter substituter) (answer trace) n.
Proof.
  intros Hwf Hv. pose proof (proj1 (validate_ok_iff t Hwf) Hv) as [Hck Hreach].
  destruct (postorder_spec t Hwf Hck) as (order & Hord & Hpo).
  pose proof Hpo as (Hnd & Hin & Hbef & _).
  destruct (evaluate_loop_spec answerer (default default_substituter substituter)
              context t order [] (mkEvalTrace [] []) w)
    as (tr' & w' & new_r & new_a & Hrun & Hnr & Hna & Hkr & Hka & Hall & Hqs);
    try done.
  - intros n Hn. by apply (descends_in_keys t Hck), Hin.
  - intros n _. by apply kids_NoDup.
  - intros n c Hn Hc. right. apply (kids_parent t Hwf) in Hc.
    apply Hbef; [done| |done]. apply Hin. eapply descends_trans; [by apply Hin|].
    by apply descends_child.
  - simpl in Hnr, Hna. exists order, tr', w'. split_and!; try done.
    + unfold evaluate_toq, mbind, M_bind, lift. by rewrite Hv, Hord.
    + unfold PyDict.keys. by rewrite Hnr.
    + unfold PyDict.keys. by rewrite Hna.
    + by rewrite Hnr, Hna.
    + intros n Hn. apply Hqs, Hin, Hreach, Hn.
Qed.

Lemma answer_all_recording {W} (answerer : string → option string → W → Answer * W)
    context qs w log :
  answer_all (recording_answerer answerer) context qs (w, log)
  = ((answer_all answerer context qs w).1,
     ((answer_all answerer context qs w).2,
      log ++ ((fun q => (q, context)) <$> qs))).
Proof.
  revert w log. induction qs as [|q qs IH]; intros w log; simpl.
  - by rewrite app_nil_r.
  - unfold recording_answerer at 1. simpl.
    destruct (answerer q context w) as [a w1]. rewrite IH.
    destruct (answer_all answerer context qs w1) as [rest w2]. simpl.
    by rewrite <-app_assoc.
Qed.

(** C3.  On a tree that passes validation, [evaluate_toq] returns a trace; it
    visits the nodes in the order of [_postorder], which holds every node once
    and every child before its parent; the answerer is called once per node,
    in that order, with the node's rendered question and the shared context,
    and its answers are the recorded ones; a leaf's question is its template,
    an internal node's question is the substituter applied to its template
    and the mapping from child id to child answer text. *)
Theorem evaluate_toq_postorder {W} (answerer : string → option string → W → Answer * W)
    (substituter : option (string → list (NodeId * string) → string))
    (context : option string) (t : ToQ) (w : W) (log : list (string * option string)) :
  PyDict.wf (nodes t) → validate t = Ok tt →
  ∃ order trace w',
    postorder t = Ok order
    ∧ order ≡ₚ node_ids t
    ∧ (∀ c p, parent_of t c = Some p → before order c p)
    ∧ evaluate_toq (recording_answerer answerer) substituter context t (w, log)
      = (Ok trace, (w', log ++ ((fun q => (q, context)) <$> (rendered_question trace).*2)))
    ∧ PyDict.keys (rendered_question trace) = order
    ∧ PyDict.keys (answer trace) = order
    ∧ answer_all answerer context (rendered_question trace).*2 w
      = ((answer trace).*2, w')
    ∧ ∀ n, n ∈ node_ids t →
        PyDict.get (rendered_question trace) n
        = question_at t (default default_substituter substituter) (answer trace) n.
Proof.
  intros Hwf Hv.
  destruct (evaluate_toq_spec (recording_answerer answerer) substituter context t
              (w, log) Hwf Hv)
    as (order & trace & st' & Hord & Hpo & Hrun & Hkr & Hka & Hall & Hq).
  pose proof (proj1 (validate_ok_iff t Hwf) Hv) as Hwft.
  rewrite answer_all_recording in Hall.
  destruct (answer_all answerer context (rendered_question trace).*2 w) as [ans w'] eqn:E.
  simpl in Hall. injection Hall as Hans Hst. subst st' ans.
  exists order, trace, w'. split_and!; try done.
  - by apply well_formed_order.
  - intros c p Hcp. destruct Hpo as (_ & Hin & Hbef & _). destruct Hwft as [Hck Hreach].
    apply Hbef; [done|apply Hin, Hreach..].
    + by eapply parent_in_keys.
    + by eapply ck_parent_in.
Qed.

Lemma evaluate_toq_postorder_witness :
  ∃ order trace w',
    postorder toq_three = Ok order
    ∧ order ≡ₚ node_ids toq_three
    ∧ (∀ c p, parent_of toq_three c = Some p → before order c p)
    ∧ evaluate_toq (recording_answerer toy_answerer) None (Some "ctx") toq_three (tt, [])
      = (Ok trace, (w', [] ++ ((fun q => (q, Some "ctx")) <$> (rendered_question trace).*2)))
    ∧ PyDict.keys (rendered_question trace) = order
    ∧ PyDict.keys (answer trace) = order
    ∧ answer_all toy_answerer (Some "ctx") (rendered_question trace).*2 tt
      = ((answer trace).*2, w')
    ∧ ∀ n, n ∈ node_ids toq_three →
        PyDict.get (rendered_question trace) n
        = question_at toq_three (default default_substituter None) (answer trace) n.
Proof.
  apply (evaluate_toq_postorder toy_answerer None (Some "ctx") toq_three tt []).
  - by_compute.
  - vm_compute. reflexivity.
Defined.


(** * Enumeration of the plans *)

Lemma lex_subsets_head l : lex_subsets l = [] :: tail (lex_subsets l).
Proof. by destruct l. Qed.

Lemma lex_subsets_tail_nonempty l : [] ∉ tail (lex_subsets l).
Proof.
  induction l as [|x r IH]; simpl; [apply not_elem_of_nil|].
  rewrite elem_of_app, list_elem_of_fmap. intros [(s & ? & _)|?]; [done|].
  by apply IH.
Qed.

Lemma length_lex_subsets l : length (lex_subsets l) = (2 ^ length l)%nat.
Proof.
  induction l as [|x r IH]; [done|].
  cbn [lex_subsets length]. rewrite length_app, length_fmap.
  rewrite (lex_subsets_head r) in IH |- * at 1. simpl in IH. simpl length at 1.
  rewrite Nat.pow_succ_r'. rewrite <-IH. simpl. lia.
Qed.

Lemma elem_of_lex_subsets s l : s ∈ lex_subsets l ↔ sublist s l.
Proof.
  revert s. induction l as [|x r IH]; intros s; simpl.
  - rewrite list_elem_of_singleton. split; [intros ->; constructor|].
    apply sublist_nil_r.
  - rewrite elem_of_cons, elem_of_app, list_elem_of_fmap, sublist_cons_r.
    split.
    + intros [->|[(s' & -> & Hs')|Hs]].
      * left. apply sublist_nil_l.
      * right. exists s'. split; [done|]. by apply IH.
      * left. apply IH. rewrite lex_subsets_head. by right.
    + intros [Hs|(s' & -> & Hs')].
      * destruct s as [|y s]; [by left|]. right; right.
        apply IH in Hs. rewrite lex_subsets_head in Hs.
        by apply elem_of_cons in Hs as [?|?].
      * right; left. exists s'. split; [done|]. by apply IH.
Qed.

Lemma NoDup_lex_subsets l : NoDup l → NoDup (lex_subsets l).
Proof.
  induction l as [|x r IH]; intros Hnd; simpl.
  - apply NoDup_singleton.
  - apply NoDup_cons in Hnd as [Hx Hnd]. specialize (IH Hnd).
    assert (NoDup (tail (lex_subsets r))) as Htl.
    { rewrite lex_subsets_head in IH. by apply NoDup_cons in IH as [_ ?]. }
    apply NoDup_cons. split.
    + rewrite elem_of_app, list_elem_of_fmap. intros [(s & ? & _)|?]; [done|].
      by eapply lex_subsets_tail_nonempty.
    + apply NoDup_app. split_and!; [|intros s Hs Hs'|done].
      * apply NoDup_fmap_2; [|done]. by intros ? ? [= ->].
      * apply list_elem_of_fmap in Hs as (s' & -> & _).
        assert (x :: s' ∈ lex_subsets r) as Hin.
        { rewrite lex_subsets_head. by right. }
        apply elem_of_lex_subsets in Hin. apply Hx.
        eapply elem_of_sublist; [|exact Hin]. left.
Qed.

Lemma filter_nonempty_lex_subsets l :
  filter (fun s : list Z => s ≠ []) (lex_subsets l) = tail (lex_subsets l).
Proof.
  rewrite (lex_subsets_head l) at 1. rewrite filter_cons_False by naive_solver.
  pose proof (lex_subsets_tail_nonempty l) as Hne.
  induction (tail (lex_subsets l)) as [|s ss IH]; [done|].
  apply not_elem_of_cons in Hne as [? ?]. rewrite filter_cons_True by done.
  by rewrite IH.
Qed.

Lemma NoDup_non_root_ids t : PyDict.wf (nodes t) → NoDup (non_root_ids t).
Proof.
  intros Hwf. unfold non_root_ids. rewrite merge_sort_Permutation.
  by apply NoDup_filter.
Qed.

Lemma elem_of_non_root_ids t x :
  x ∈ non_root_ids t ↔ x ∈ node_ids t ∧ x ≠ root_id t.
Proof.
  unfold non_root_ids. rewrite merge_sort_Permutation, list_elem_of_filter.
  naive_solver.
Qed.

Lemma length_filter_ne (l : list Z) r :
  NoDup l → r ∈ l → S (length (filter (fun x => x ≠ r) l)) = length l.
Proof.
  induction l as [|k ks IH]; intros Hnd Hr; [by apply elem_of_nil in Hr|].
  apply NoDup_cons in Hnd as [Hk Hnd].
  destruct (decide (k = r)) as [->|Hne].
  - rewrite filter_cons_False by naive_solver. simpl. f_equal.
    clear IH Hr Hnd. induction ks as [|k' ks IH]; [done|].
    apply not_elem_of_cons in Hk as [? ?].
    rewrite filter_cons_True by done. simpl. by rewrite IH.
  - rewrite filter_cons_True by done. simpl. f_equal. apply IH; [done|].
    apply elem_of_cons in Hr as [?|?]; [congruence|done].
Qed.

Lemma length_non_root_ids t :
  PyDict.wf (nodes t) → root_id t ∈ node_ids t →
  S (length (non_root_ids t)) = length (nodes t).
Proof.
  intros Hwf Hroot. unfold non_root_ids. rewrite merge_sort_Permutation.
  rewrite length_filter_ne; [|exact Hwf|exact Hroot].
  unfold PyDict.keys. by rewrite length_fmap.
Qed.

(** The enumeration of the plans: count, distinctness, extent. *)
Lemma enumerate_collapse_plans_spec t :
  PyDict.wf (nodes t) →
  let k := length (non_root_ids t) in
  length (enumerate_collapse_plans t true) = (2 ^ k)%nat
  ∧ length (enumerate_collapse_plans t false) = (2 ^ k - 1)%nat
  ∧ NoDup (cut_edges <$> enumerate_collapse_plans t true)
  ∧ (∀ s, s ∈ cut_edges <$> enumerate_collapse_plans t true
          ↔ sublist s (non_root_ids t))
  ∧ (∀ s, s ∈ cut_edges <$> enumerate_collapse_plans t false
          ↔ sublist s (non_root_ids t) ∧ s ≠ []).
Proof.
  intros Hwf k. unfold enumerate_collapse_plans.
  rewrite filter_nonempty_lex_subsets.
  assert (∀ l : list (list Z), cut_edges <$> (mkCollapsePlan <$> l) = l) as Hid.
  { intros l. rewrite <-list_fmap_compose. apply list_fmap_id. }
  rewrite !Hid, !length_fmap.
  split_and!.
  - apply length_lex_subsets.
  - pose proof (length_lex_subsets (non_root_ids t)) as Hlen.
    rewrite lex_subsets_head in Hlen. simpl in Hlen. fold k in Hlen. lia.
  - by apply NoDup_lex_subsets, NoDup_non_root_ids.
  - intros s. apply elem_of_lex_subsets.
  - intros s. rewrite <-elem_of_lex_subsets.
    rewrite (lex_subsets_head (non_root_ids t)) at 2. rewrite elem_of_cons.
    pose proof (lex_subsets_tail_nonempty (non_root_ids t)).
    split; [|naive_solver]. intros Hs. split; [by right|]. by intros ->.
Qed.


(** * Components *)

Section Depth.
Variable t : ToQ.
Hypothesis Hck : checked t.

Lemma chain_spec d u :
  ancestor t d u = Some (root_id t) →
  length (chain t d u) = S d ∧ NoDup (chain t d u)
  ∧ ∀ x, x ∈ chain t d u → descends t x u ∧ x ∈ node_ids t.
Proof.
  revert u. induction d as [|d IH]; intros u Hd; simpl in *.
  - injection Hd as ->. split_and!; [done|apply NoDup_singleton|].
    intros x Hx%list_elem_of_singleton. subst x.
    split; [apply descends_refl|apply (ck_root_in t Hck)].
  - destruct (parent_of t u) as [p|] eqn:Hp; [|done]. simpl in Hd.
    destruct (IH p Hd) as (Hlen & Hnd & Hin).
    assert (descends t (root_id t) u) as Hu.
    { exists (S d). simpl. by rewrite Hp. }
    split_and!.
    + simpl. by rewrite Hlen.
    + apply NoDup_cons. split; [|done]. intros Hx. apply Hin in Hx as [Hx _].
      by eapply (child_not_ancestor t Hck p u); [exists d|..].
    + intros x Hx. apply elem_of_cons in Hx as [->|Hx].
      * split; [apply descends_refl|by eapply parent_in_keys].
      * apply Hin in Hx as [Hx ?]. split; [|done].
        eapply descends_trans; [exact Hx|]. by apply descends_child.
Qed.

(** A node below the root is fewer parent links away from it than there are
    nodes. *)
Lemma depth_bound d u :
  ancestor t d u = Some (root_id t) → (d < length (nodes t))%nat.
Proof.
  intros Hd. destruct (chain_spec d u Hd) as (Hlen & Hnd & Hin).
  assert (chain t d u ⊆+ node_ids t) as Hsub.
  { apply NoDup_submseteq; [done|]. intros x Hx. by apply Hin. }
  apply submseteq_length in Hsub. unfold node_ids, PyDict.keys in Hsub.
  rewrite length_fmap in Hsub. lia.
Qed.
End Depth.

Lemma in_component_split t cuts r w :
  in_component t cuts r w
  ↔ w = r ∨ ∃ c, parent_of t c = Some r ∧ c ∉ cuts ∧ in_component t cuts c w.
Proof.
  split.
  - intros ([|k] & Hk & Hfree).
    + left. simpl in Hk. congruence.
    + right. rewrite ancestor_S_r in Hk.
      destruct (ancestor t k w) as [c|] eqn:Hc; [|done]. simpl in Hk.
      exists c. split_and!; [done| |].
      * apply (Hfree k c); [lia|done].
      * exists k. split; [done|]. intros j x Hj. apply Hfree. lia.
  - intros [->|(c & Hp & Hc & k & Hk & Hfree)].
    + exists 0%nat. split; [done|]. intros; lia.
    + exists (S k). split; [by rewrite ancestor_S_r, Hk|].
      intros j x Hj Hx. destruct (decide (j = k)) as [->|Hne].
      * rewrite Hk in Hx. by injection Hx as <-.
      * apply (Hfree j x); [lia|done].
Qed.

Section ComponentWalk.
Variable t : ToQ.
Hypothesis Hwf : PyDict.wf (nodes t).
Hypothesis Hck : checked t.
Variable cuts : list NodeId.

Lemma component_walk_loop_spec rec d u :
  (∀ v inc inp, ancestor t (S d) v = Some (root_id t) →
     ∃ l l', rec v (inc, inp) = Ok (inc ++ l, inp ++ l')
             ∧ ∀ w, w ∈ l ↔ in_component t cuts v w) →
  ancestor t d u = Some (root_id t) →
  ∀ cs inc inp,
    (∀ c, c ∈ cs → parent_of t c = Some u) →
    ∃ l l', component_walk_loop rec cuts cs (inc, inp) = Ok (inc ++ l, inp ++ l')
            ∧ ∀ w, w ∈ l ↔ ∃ c, c ∈ cs ∧ c ∉ cuts ∧ in_component t cuts c w.
Proof.
  intros Hrec Hu. induction cs as [|c cs IH]; intros inc inp Hpar; simpl.
  - exists [], []. rewrite !app_nil_r. split; [done|]. intros w.
    rewrite elem_of_nil. split; [done|]. intros (c & Hc & _).
    by apply elem_of_nil in Hc.
  - assert (parent_of t c = Some u) as Hpc by (apply Hpar; left).
    case_bool_decide as Hcut.
    + destruct (IH inc (inp ++ [c])) as (l & l' & -> & Hl).
      { intros c' Hc'. apply Hpar. by right. }
      exists l, (c :: l'). rewrite <-app_assoc. split; [done|]. intros w.
      rewrite Hl. split.
      * intros (c' & ? & ? & ?). exists c'. split; [by right|done].
      * intros (c' & Hc' & ? & ?). apply elem_of_cons in Hc' as [->|?]; [done|].
        by exists c'.
    + destruct (Hrec c inc inp) as (l1 & l1' & -> & Hl1).
      { simpl. by rewrite Hpc. }
      simpl. destruct (IH (inc ++ l1) (inp ++ l1')) as (l2 & l2' & -> & Hl2).
      { intros c' Hc'. apply Hpar. by right. }
      exists (l1 ++ l2), (l1' ++ l2'). rewrite !app_assoc. split; [done|].
      intros w. rewrite elem_of_app, Hl1, Hl2. split.
      * intros [?|(c' & ? & ? & ?)]; [exists c|exists c']; (split; [|done]);
          [left|by right].
      * intros (c' & Hc' & ? & ?). apply elem_of_cons in Hc' as [->|?];
          [by left|right; by exists c'].
Qed.

Lemma component_walk_spec b :
  ∀ d u inc inp,
    ancestor t d u = Some (root_id t) → (length (nodes t) ≤ d + b)%nat →
    ∃ l l', component_walk b (children t) cuts u (inc, inp) = Ok (inc ++ l, inp ++ l')
            ∧ ∀ w, w ∈ l ↔ in_component t cuts u w.
Proof.
  induction b as [|b IH]; intros d u inc inp Hd Hb.
  - pose proof (depth_bound t Hck d u Hd). lia.
  - simpl.
    assert (u ∈ node_ids t) as Hu.
    { apply (descends_in_keys t Hck). by exists d. }
    destruct (component_walk_loop_spec (component_walk b (children t) cuts) d u)
      with (cs := get_children (children t) u) (inc := inc ++ [u]) (inp := inp)
      as (l & l' & -> & Hl); [|done| |].
    + intros v inc' inp' Hv. apply (IH (S d)); [done|lia].
    + intros c. by apply kids_parent.
    + exists (u :: l), l'. rewrite <-app_assoc. split; [done|]. intros w.
      rewrite elem_of_cons, Hl, in_component_split. split.
      * intros [->|(c & Hc & ? & ?)]; [by left|right]. exists c.
        split; [by apply kids_parent|done].
      * intros [->|(c & Hc & ? & ?)]; [by left|right]. exists c.
        by rewrite kids_spec.
Qed.

(** [extract_open_toq] returns, and its sub-tree holds the component of
    [r]. *)
Lemma extract_open_toq_spec plan r :
  cut_edges plan = cuts → descends t (root_id t) r →
  ∃ o, extract_open_toq t plan r = Ok o ∧ open_root_id o = r
       ∧ root_id (open_toq o) = r
       ∧ ∀ w, w ∈ node_ids (open_toq o) ↔ w ∈ node_ids t ∧ in_component t cuts r w.
Proof.
  intros Hcuts [d Hd]. unfold extract_open_toq. rewrite Hcuts.
  destruct (component_walk_spec (length (nodes t)) d r [] [] Hd) as (l & l' & -> & Hl);
    [lia|].
  simpl. eexists. split_and!; [done..|]. intros w. simpl.
  unfold node_ids, PyDict.keys. simpl. rewrite <-list_fmap_compose.
  rewrite list_elem_of_fmap. split.
  - intros ([k node] & -> & Hin). apply list_elem_of_filter in Hin as [Hk Hin].
    simpl in *. split; [|by apply Hl]. apply list_elem_of_fmap. by exists (k, node).
  - intros [Hw Hc]. apply list_elem_of_fmap in Hw as ([k node] & -> & Hin).
    exists (k, node). split; [done|]. apply list_elem_of_filter. split; [|done].
    by apply Hl.
Qed.
End ComponentWalk.

Lemma component_roots_ok t plan :
  plan_of_tree t plan →
  component_roots t plan
  = Ok (elements ({[root_id t]} ∪ list_to_set (cut_edges plan) : gset Z)).
Proof.
  intros Hplan. unfold component_roots.
  rewrite bool_decide_eq_false_2 by (intros Hr; by apply Hplan in Hr as [_ ?]).
  assert (∀ cs, (∀ c, c ∈ cs → c ∈ node_ids t) →
            filter (fun c => PyDict.mem (nodes t) c = false) cs = []) as Hnone.
  { induction cs as [|c cs IH]; intros Hcs; [done|].
    rewrite filter_cons_False.
    - apply IH. intros c' Hc'. apply Hcs. by right.
    - assert (c ∈ node_ids t) as Hc by (apply Hcs; left).
      apply mem_true in Hc. by rewrite Hc. }
  rewrite Hnone; [done|]. intros c Hc. by apply Hplan.
Qed.

Lemma elem_of_component_roots t plan x :
  x ∈ elements ({[root_id t]} ∪ list_to_set (cut_edges plan) : gset Z)
  ↔ x = root_id t ∨ x ∈ cut_edges plan.
Proof. rewrite elem_of_elements, elem_of_union, elem_of_singleton, elem_of_list_to_set. done. Qed.

Lemma first_component_root_unique t roots w r r' :
  first_component_root t roots w r → first_component_root t roots w r' → r = r'.
Proof.
  intros (k & Hk & Hr & Hmin) (k' & Hk' & Hr' & Hmin').
  destruct (lt_eq_lt_dec k k') as [[Hlt| ->]|Hlt].
  - by destruct (Hmin' k r Hlt Hk).
  - congruence.
  - by destruct (Hmin k' r' Hlt Hk').
Qed.

Section Nearest.
Variable t : ToQ.
Hypothesis Hck : checked t.
Variable roots : list NodeId.
Hypothesis Hroot : root_id t ∈ roots.

Lemma nearest_component_root_spec b :
  ∀ d w, ancestor t d w = Some (root_id t) → (d ≤ b)%nat →
    ∃ r, nearest_component_root b t roots w = Some r
         ∧ first_component_root t roots w r.
Proof.
  induction b as [|b IH]; intros d w Hd Hb.
  - assert (d = 0%nat) as -> by lia. simpl in Hd. injection Hd as ->.
    exists (root_id t). simpl. rewrite bool_decide_eq_true_2 by done.
    split; [done|]. exists 0%nat. split_and!; [done..|]. intros; lia.
  - simpl. case_bool_decide as Hw.
    + exists w. split; [done|]. exists 0%nat. split_and!; [done..|]. intros; lia.
    + destruct d as [|d]; simpl in Hd.
      { injection Hd as ->. done. }
      destruct (parent_of t w) as [p|] eqn:Hp; [|done]. simpl in Hd |- *.
      destruct (IH d p Hd) as (r & Hn & k & Hk & Hr & Hmin); [lia|].
      exists r. split; [done|]. exists (S k). split_and!; [|done|].
      * simpl. by rewrite Hp.
      * intros [|j] x Hj Hx; simpl in Hx.
        -- by injection Hx as <-.
        -- rewrite Hp in Hx. simpl in Hx. apply (Hmin j x); [lia|done].
Qed.
End Nearest.

Lemma in_component_first t cuts roots r w :
  checked t →
  (∀ x, x ∈ roots ↔ x = root_id t ∨ x ∈ cuts) → r ∈ roots →
  in_component t cuts r w ↔ first_component_root t roots w r.
Proof.
  intros Hck Hroots Hr. split.
  - intros (k & Hk & Hfree). exists k. split_and!; [done..|].
    intros j x Hj Hx Hxr. apply Hroots in Hxr as [->|Hxc].
    + replace k with (j + (k - j))%nat in Hk by lia.
      rewrite ancestor_add, Hx in Hk. simpl in Hk.
      apply (ancestor_root t Hck) in Hk. lia.
    + by apply (Hfree j x).
  - intros (k & Hk & _ & Hmin). exists k. split; [done|].
    intros j x Hj Hx Hxc. apply (Hmin j x); [done..|]. apply Hroots. by right.
Qed.

(** C2.  For a tree that passes validation and a plan whose cut ids are
    non-root nodes of the tree, [component_roots] is the root together with
    the cut ids, and the components partition the nodes: every node lies in
    the open sub-tree of exactly one component root, the first one met
    walking from the node toward the root. *)
Theorem components_partition (t : ToQ) (plan : CollapsePlan) :
  PyDict.wf (nodes t) → validate t = Ok tt → plan_of_tree t plan →
  ∃ roots,
    component_roots t plan = Ok roots
    ∧ (list_to_set roots : gset Z) = {[root_id t]} ∪ list_to_set (cut_edges plan)
    ∧ ∀ w, w ∈ node_ids t →
        ∃ r, r ∈ roots
             ∧ first_component_root t roots w r
             ∧ nearest_component_root (length (nodes t)) t roots w = Some r
             ∧ ∀ r', r' ∈ roots →
                 ∃ o, extract_open_toq t plan r' = Ok o
                      ∧ (w ∈ node_ids (open_toq o) ↔ r' = r).
Proof.
  intros Hwf Hv Hplan. pose proof (proj1 (validate_ok_iff t Hwf) Hv) as [Hck Hreach].
  eexists. split; [by apply component_roots_ok|].
  set (roots := elements _).
  assert (∀ x, x ∈ roots ↔ x = root_id t ∨ x ∈ cut_edges plan) as Hroots.
  { intros x. apply elem_of_component_roots. }
  split; [unfold roots; by rewrite list_to_set_elements_L|].
  intros w Hw. destruct (Hreach w Hw) as [d Hd].
  destruct (nearest_component_root_spec t roots (proj2 (Hroots _) (or_introl eq_refl))
              (length (nodes t)) d w Hd) as (r & Hn & Hfirst).
  { pose proof (depth_bound t Hck d w Hd). lia. }
  exists r. pose proof Hfirst as (k & _ & Hr & _). split_and!; [done..|].
  intros r' Hr'.
  destruct (extract_open_toq_spec t Hwf Hck (cut_edges plan) plan r') as (o & Ho & _ & _ & Hin).
  { done. }
  { apply Hroots in Hr' as [->|Hc]; [apply descends_refl|].
    apply Hreach. by apply Hplan. }
  exists o. split; [done|]. rewrite Hin.
  rewrite (in_component_first t (cut_edges plan) roots r' w) by done.
  split.
  - intros [_ Hf]. by eapply first_component_root_unique.
  - by intros ->.
Qed.

Lemma components_partition_witness :
  ∃ roots,
    component_roots toq_five (mkCollapsePlan [3; 1]) = Ok roots
    ∧ (list_to_set roots : gset Z) = {[5]} ∪ list_to_set [3; 1]
    ∧ ∀ w, w ∈ node_ids toq_five →
        ∃ r, r ∈ roots
             ∧ first_component_root toq_five roots w r
             ∧ nearest_component_root 5 toq_five roots w = Some r
             ∧ ∀ r', r' ∈ roots →
                 ∃ o, extract_open_toq toq_five (mkCollapsePlan [3; 1]) r' = Ok o
                      ∧ (w ∈ node_ids (open_toq o) ↔ r' = r).
Proof.
  apply (components_partition toq_five (mkCollapsePlan [3; 1])).
  - by_compute.
  - vm_compute. reflexivity.
  - intros c Hc. simpl in Hc. split.
    + apply (bool_decide_unpack _). revert c Hc. apply Forall_forall.
      by_compute.
    + revert c Hc. apply Forall_forall.
      by_compute.
Defined.


(** * The quotient tree *)

Lemma quotient_nodes_ok t all cq rs acc :
  NoDup (PyDict.keys acc ++ rs) → (∀ r, r ∈ rs → r ∈ PyDict.keys cq) →
  ∃ texts,
    quotient_nodes t all cq rs acc
    = Ok (acc ++ ((fun rq : NodeId * string =>
                     (rq.1, mkToQNode rq.1 rq.2 (quotient_parent t all rq.1))) <$> texts))
    ∧ texts.*1 = rs ∧ ∀ r q, (r, q) ∈ texts → PyDict.get cq r = Some q.
Proof.
  revert acc. induction rs as [|r rs IH]; intros acc Hnd Hcq; simpl.
  - exists []. simpl. rewrite app_nil_r. split_and!; [done..|].
    intros ? ? Hin. by apply elem_of_nil in Hin.
  - destruct (in_keys_get cq r) as [q Hq]; [apply Hcq; left|]. rewrite Hq.
    assert (r ∉ PyDict.keys acc) as Hfresh.
    { apply NoDup_app in Hnd as (_ & Hd & _). intros Hr. apply (Hd r Hr). left. }
    rewrite set_fresh by done.
    destruct (IH (acc ++ [(r, mkToQNode r q (quotient_parent t all r))]))
      as (texts & -> & Hk & Hget).
    + unfold PyDict.keys. rewrite fmap_app. simpl. by rewrite <-app_assoc.
    + intros r' Hr'. apply Hcq. by right.
    + exists ((r, q) :: texts). rewrite <-app_assoc. split_and!; [done| |].
      * by rewrite fmap_cons, Hk.
      * intros r' q' Hin. apply elem_of_cons in Hin as [[= -> ->]|Hin]; [done|].
        by apply Hget.
Qed.

Lemma quotient_nodes_missing t all cq rs acc r :
  r ∈ rs → r ∉ PyDict.keys cq →
  ∃ r', quotient_nodes t all cq rs acc = Raise (PlanMissingQuestion r').
Proof.
  revert acc. induction rs as [|r0 rs IH]; intros acc Hr Hcq; simpl.
  - by apply elem_of_nil in Hr.
  - destruct (PyDict.get cq r0) as [q|] eqn:Hq; [|by eexists].
    apply IH; [|done]. apply elem_of_cons in Hr as [->|?]; [|done].
    apply get_in_keys in Hq. done.
Qed.

Section Quotient.
Variable t : ToQ.
Hypothesis Hwf : PyDict.wf (nodes t).
Hypothesis Hck : checked t.
Hypothesis Hreach : ∀ w, w ∈ node_ids t → descends t (root_id t) w.
Variable roots : list NodeId.
Hypothesis Hroots_nodup : NoDup roots.
Hypothesis Hroots_root : root_id t ∈ roots.
Hypothesis Hroots_in : ∀ r, r ∈ roots → r ∈ node_ids t.
Variable texts : list (NodeId * string).
Hypothesis Htexts : texts.*1 = roots.

Local Abbreviation qt := (quotient_of t roots texts).

Lemma quotient_keys : node_ids qt = roots.
Proof.
  unfold node_ids, quotient_of, PyDict.keys. simpl.
  rewrite <-list_fmap_compose. exact Htexts.
Qed.

Lemma quotient_wf : PyDict.wf (nodes qt).
Proof. unfold PyDict.wf. fold (node_ids qt). by rewrite quotient_keys. Qed.

Lemma quotient_elem r node :
  (r, node) ∈ nodes qt →
  node_id node = r ∧ node_parent node = quotient_parent t roots r ∧ r ∈ roots.
Proof.
  unfold quotient_of. simpl. intros ([r' q] & [= -> ->] & Hin)%list_elem_of_fmap.
  simpl. split_and!; [done..|]. rewrite <-Htexts. apply list_elem_of_fmap.
  by exists (r', q).
Qed.

Lemma quotient_parent_of r :
  r ∈ roots → parent_of qt r = quotient_parent t roots r.
Proof.
  intros Hr. rewrite <-quotient_keys in Hr.
  destruct (in_keys_get _ _ Hr) as [node Hnode].
  unfold parent_of. rewrite Hnode. simpl.
  apply get_Some_elem, quotient_elem in Hnode. tauto.
Qed.

Lemma quotient_parent_of_Some r x :
  parent_of qt r = Some x → r ∈ roots ∧ quotient_parent t roots r = Some x.
Proof.
  intros Hp. assert (r ∈ roots) as Hr.
  { rewrite <-quotient_keys. by eapply parent_in_keys. }
  split; [done|]. by rewrite <-quotient_parent_of.
Qed.

(** The parent in the quotient is a component root strictly above. *)
Lemma quotient_parent_above r x d :
  quotient_parent t roots r = Some x → ancestor t d r = Some (root_id t) →
  x ∈ roots ∧ ∃ d', (d' < d)%nat ∧ ancestor t d' x = Some (root_id t).
Proof.
  unfold quotient_parent. case_bool_decide as Hr; [done|].
  destruct (parent_of t r) as [p|] eqn:Hp; [|done]. simpl.
  intros Hn Hd. destruct d as [|d]; simpl in Hd; [congruence|].
  rewrite Hp in Hd. simpl in Hd.
  destruct (nearest_component_root_spec t roots Hroots_root (length (nodes t)) d p Hd)
    as (x' & Hn' & k & Hk & Hx & _).
  { pose proof (depth_bound t Hck d p Hd). lia. }
  rewrite Hn in Hn'. injection Hn' as <-. split; [done|].
  destruct (decide (k ≤ d)%nat) as [Hle|Hgt].
  - exists (d - k)%nat. split; [lia|].
    replace d with (k + (d - k))%nat in Hd by lia.
    by rewrite ancestor_add, Hk in Hd.
  - exfalso. replace k with (d + (k - d))%nat in Hk by lia.
    rewrite ancestor_add, Hd in Hk. simpl in Hk.
    apply (ancestor_root t Hck) in Hk. lia.
Qed.

Lemma quotient_parent_defined r :
  r ∈ roots → r ≠ root_id t → is_Some (quotient_parent t roots r).
Proof.
  intros Hr Hne. unfold quotient_parent. rewrite bool_decide_eq_false_2 by done.
  destruct (parent_of t r) as [p|] eqn:Hp.
  - simpl. destruct (Hreach p) as [d Hd]; [by eapply ck_parent_in|].
    destruct (nearest_component_root_spec t roots Hroots_root (length (nodes t)) d p Hd)
      as (x & -> & _); [|done].
    pose proof (depth_bound t Hck d p Hd). lia.
  - exfalso. apply Hne. apply (ck_one_root t Hck); [by apply Hroots_in|done].
Qed.

Lemma quotient_checked : checked qt.
Proof.
  split.
  - by rewrite quotient_keys.
  - intros r node Hin. by apply quotient_elem in Hin as (? & ? & ?).
  - intros r x Hp. apply quotient_parent_of_Some in Hp as [Hr Hp].
    rewrite quotient_keys. destruct (Hreach r) as [d Hd]; [by apply Hroots_in|].
    by destruct (quotient_parent_above r x d Hp Hd).
  - intros r Hp. apply quotient_parent_of_Some in Hp as [Hr Hp].
    destruct (Hreach r) as [d Hd]; [by apply Hroots_in|].
    destruct (quotient_parent_above r r d Hp Hd) as (_ & d' & Hlt & Hd').
    pose proof (depth_unique t Hck _ _ _ Hd Hd'). lia.
  - simpl. rewrite quotient_parent_of by done. unfold quotient_parent.
    by rewrite bool_decide_eq_true_2.
  - intros r Hr Hp. rewrite quotient_keys in Hr. rewrite quotient_parent_of in Hp by done.
    destruct (decide (r = root_id t)) as [|Hne]; [done|].
    destruct (quotient_parent_defined r Hr Hne) as [x Hx]. congruence.
Qed.

Lemma quotient_reach d :
  ∀ r, r ∈ roots → ancestor t d r = Some (root_id t) →
       descends qt (root_id t) r.
Proof.
  induction d as [d IH] using lt_wf_ind. intros r Hr Hd.
  destruct (decide (r = root_id t)) as [->|Hne]; [apply descends_refl|].
  destruct (quotient_parent_defined r Hr Hne) as [x Hx].
  destruct (quotient_parent_above r x d Hx Hd) as (Hxr & d' & Hlt & Hd').
  eapply descends_trans; [by apply (IH d' Hlt x)|].
  apply descends_child. by rewrite quotient_parent_of.
Qed.

(** The quotient tree passes validation. *)
Lemma quotient_valid : validate qt = Ok tt.
Proof.
  apply validate_ok_iff; [apply quotient_wf|]. split; [apply quotient_checked|].
  intros r Hr. rewrite quotient_keys in Hr.
  destruct (Hreach r) as [d Hd]; [by apply Hroots_in|]. by apply (quotient_reach d).
Qed.
End Quotient.


(** * Computations and what they leave of the state *)

Section Steps.
Context {St : Type} (R : St → St → Prop).
Hypothesis R_refl : ∀ st, R st st.
Hypothesis R_trans : ∀ st1 st2 st3, R st1 st2 → R st2 st3 → R st1 st3.

Lemma steps_ret {A} (a : A) : steps R (mret a : M St A).
Proof. intros st. apply R_refl. Qed.

Lemma steps_lift {A} (r : result A) : steps R (lift r : M St A).
Proof. intros st. apply R_refl. Qed.

Lemma steps_bind {A B} (m : M St A) (f : A → M St B) :
  steps R m → (∀ a, steps R (f a)) → steps R (m ≫= f).
Proof.
  intros Hm Hf st. unfold mbind, M_bind. specialize (Hm st).
  destruct (m st) as [[a|e] st1]; simpl in *; [|done].
  eapply R_trans; [exact Hm|apply Hf].
Qed.

Lemma steps_call {A} (f : St → A * St) :
  (∀ st, R st (f st).2) → steps R (call f).
Proof. intros Hf st. unfold call. specialize (Hf st). by destruct (f st). Qed.

Lemma steps_evaluate_loop answerer sub context t ch order tr :
  (∀ q c st, R st (answerer q c st).2) →
  steps R (evaluate_loop (W:=St) answerer context t ch sub order tr).
Proof.
  intros Ha. revert tr. induction order as [|n order IH]; intros tr; simpl.
  - apply steps_ret.
  - apply steps_bind; [|done]. unfold evaluate_node.
    apply steps_bind; [apply steps_lift|]. intros node.
    apply steps_bind; [apply steps_lift|]. intros cat.
    apply steps_bind; [by apply steps_call|]. intros a. apply steps_ret.
Qed.

Lemma steps_evaluate_toq answerer substituter context t :
  (∀ q c st, R st (answerer q c st).2) →
  steps R (evaluate_toq (W:=St) answerer substituter context t).
Proof.
  intros Ha. unfold evaluate_toq.
  apply steps_bind; [apply steps_lift|]. intros _.
  apply steps_bind; [apply steps_lift|]. intros order.
  by apply steps_evaluate_loop.
Qed.
End Steps.

(** * The cache *)

Lemma call_key_inj o o' :
  call_key o = call_key o' →
  open_root_id o = open_root_id o' ∧ open_inputs o = open_inputs o'.
Proof. unfold call_key, cache_key. by intros [= ? ?]. Qed.

Lemma extends_refl {W} (st : LoggedState W) : extends st st.
Proof.
  exists []. rewrite app_nil_r. split_and!; [done..|constructor| |].
  - intros o Ho. by apply elem_of_nil in Ho.
  - intros k. rewrite fmap_nil, elem_of_nil. tauto.
Qed.

Lemma extends_trans {W} (st1 st2 st3 : LoggedState W) :
  extends st1 st2 → extends st2 st3 → extends st1 st3.
Proof.
  intros (new1 & Hlog1 & Hsub1 & Hnd1 & Hmiss1 & Hdom1)
         (new2 & Hlog2 & Hsub2 & Hnd2 & Hmiss2 & Hdom2).
  exists (new1 ++ new2). split_and!.
  - by rewrite Hlog2, Hlog1, app_assoc.
  - by etrans.
  - rewrite fmap_app. apply NoDup_app. split_and!; [done| |done].
    intros k Hk1 Hk2. apply list_elem_of_fmap in Hk2 as (o & -> & Ho).
    specialize (Hmiss2 o Ho).
    assert (is_Some (st2.2 !! call_key o)) as [? ?]; [|congruence].
    apply Hdom1. by right.
  - intros o Ho. apply elem_of_app in Ho as [Ho|Ho]; [by apply Hmiss1|].
    specialize (Hmiss2 o Ho).
    destruct (st1.2 !! call_key o) as [v|] eqn:E; [|done].
    eapply lookup_weaken in E; [|exact Hsub1]. congruence.
  - intros k. rewrite Hdom2, Hdom1, fmap_app, elem_of_app. tauto.
Qed.

Lemma extends_same {W} (st st' : LoggedState W) :
  st'.1.2 = st.1.2 → st'.2 = st.2 → extends st st'.
Proof.
  intros Hlog Hcache. exists []. rewrite app_nil_r.
  split_and!; [done|by rewrite Hcache|constructor| |].
  - intros o Ho. by apply elem_of_nil in Ho.
  - intros k. rewrite Hcache, fmap_nil, elem_of_nil. tauto.
Qed.

Section Orchestrator.
Context {W : Type}.
Variable enumerate_plans : ToQ → bool → list CollapsePlan.
Variable comp_roots : ToQ → CollapsePlan → result (list NodeId).
Variable extract_open : ToQ → CollapsePlan → NodeId → result OpenToQ.
Variable apply_plan : ToQ → CollapsePlan → list (NodeId * string) → result CollapsedToQ.
Variable answerer : string → option string → W → Answer * W.
Variable collapser : OpenToQ → option string → W → string * W.
Variable normalizer : option (string → W → string * W).
Variable substituter : option (string → list (NodeId * string) → string).
Variable context : option string.

Hypothesis extract_open_root :
  ∀ t plan r o, extract_open t plan r = Ok o → open_root_id o = r.

Local Abbreviation run_plan' :=
  (run_plan comp_roots extract_open apply_plan (logged_answerer answerer)
     (recording_collapser collapser) (logged_normalizer normalizer)
     substituter context).

Lemma steps_cached_collapse r o :
  open_root_id o = r →
  steps extends (cached_collapse (recording_collapser collapser) context r o).
Proof.
  intros Hr [[w log] cache]. unfold cached_collapse. simpl.
  destruct (cache !! cache_key r o) as [cq|] eqn:Hhit; simpl.
  - apply extends_refl.
  - unfold recording_collapser. simpl.
    destruct (collapser o context w) as [cq w']. simpl.
    exists [o]. simpl. subst r. fold (call_key o) in *. split_and!.
    + done.
    + by apply insert_subseteq.
    + apply NoDup_singleton.
    + intros o' ->%list_elem_of_singleton. done.
    + intros k. rewrite list_elem_of_singleton.
      destruct (decide (k = call_key o)) as [->|Hne].
      * rewrite lookup_insert_eq. split; [by right|by eexists].
      * rewrite lookup_insert_ne by done. split; [by left|by intros [?|?]].
Qed.

Lemma steps_collapse_components t plan rs acc :
  steps extends
    (collapse_components extract_open (recording_collapser collapser) context
       t plan rs acc).
Proof.
  revert acc. induction rs as [|r rs IH]; intros acc; simpl.
  - apply steps_ret, extends_refl.
  - apply steps_bind; [apply extends_trans| |done].
    unfold collapse_component.
    destruct (extract_open t plan r) as [o|e] eqn:Ho.
    + intros st. unfold mbind at 1, M_bind at 1, lift. simpl.
      apply steps_bind; [apply extends_trans| |].
      * apply steps_cached_collapse. by eapply extract_open_root.
      * intros cq. apply steps_ret, extends_refl.
    + intros st. unfold mbind, M_bind, lift. simpl. apply extends_refl.
Qed.

Lemma logged_answerer_same (q : string) (c : option string) (st : LoggedState W) :
  extends st (on_world (logged_answerer answerer q c) st).2.
Proof.
  destruct st as [[w log] cache]. unfold logged_answerer, on_world. simpl.
  destruct (answerer q c w) as [a w']. simpl. by apply extends_same.
Qed.

Lemma steps_run_plan t plan : steps extends (run_plan' t plan).
Proof.
  unfold run_plan.
  apply steps_bind; [apply extends_trans|apply steps_lift, extends_refl|]. intros roots.
  apply steps_bind; [apply extends_trans|apply steps_collapse_components|]. intros by_root.
  apply steps_bind; [apply extends_trans|apply steps_lift, extends_refl|]. intros collapsed.
  apply steps_bind; [apply extends_trans| |]. 
  { apply steps_evaluate_toq; [apply extends_refl|apply extends_trans|].
    apply logged_answerer_same. }
  intros trace.
  apply steps_bind; [apply extends_trans|apply steps_lift, extends_refl|]. intros root_answer.
  apply steps_bind; [apply extends_trans| |intros; apply steps_ret, extends_refl].
  unfold logged_normalizer. destruct normalizer as [f|]; simpl.
  - apply steps_bind; [apply extends_trans| |intros; apply steps_ret, extends_refl].
    apply steps_call. intros [[w log] cache]. unfold on_world. simpl.
    destruct (f (answer_text root_answer) w) as [n w']. simpl. by apply extends_same.
  - apply steps_ret, extends_refl.
Qed.

Lemma steps_run_plans t plans acc :
  steps extends
    (run_plans comp_roots extract_open apply_plan (logged_answerer answerer)
       (recording_collapser collapser) (logged_normalizer normalizer)
       substituter context t plans acc).
Proof.
  revert acc. induction plans as [|plan plans IH]; intros acc; simpl.
  - apply steps_ret, extends_refl.
  - apply steps_bind; [apply extends_trans|apply steps_run_plan|]. intros r. apply IH.
Qed.

(** Whatever the run returns, the state it leaves extends the one it started
    from. *)
Lemma run_consistency_check_extends t plan_opts cache w log :
  extends ((w, log), default ∅ cache)
    (run_consistency_check enumerate_plans comp_roots extract_open apply_plan
       (logged_answerer answerer) (recording_collapser collapser)
       (logged_normalizer normalizer) substituter context
       t plan_opts cache (w, log)).2.
Proof.
  unfold run_consistency_check.
  match goal with |- extends ?st (?m ?st).2 => generalize st; change (steps extends m) end.
  apply steps_bind; [apply extends_trans|apply steps_lift, extends_refl|]. intros _.
  apply steps_bind; [apply extends_trans| |].
  { apply steps_evaluate_toq; [apply extends_refl|apply extends_trans|].
    apply logged_answerer_same. }
  intros base.
  apply steps_bind; [apply extends_trans|apply steps_lift, extends_refl|]. intros base_root.
  apply steps_bind; [apply extends_trans|apply steps_run_plans|]. intros rs.
  apply steps_ret, extends_refl.
Qed.
End Orchestrator.

(** C1.  Over a whole invocation of [run_consistency_check], and from any
    supplied cache, the collapser is called at most once per (component root
    id, inputs) pair: the calls of the invocation bear pairwise distinct keys,
    none of which the cache held before; a cached entry is never replaced; and
    the keys of all calls logged so far stay distinct and cached, so that the
    same holds over successive invocations that share the cache.  On a key
    that the cache holds, the cached string is returned and the collapser is
    not called.  The collapser is wrapped to record the open sub-trees that it
    is called with. *)
Theorem collapser_called_once_per_key {W : Type}
    (enumerate_plans : ToQ → bool → list CollapsePlan)
    (comp_roots : ToQ → CollapsePlan → result (list NodeId))
    (extract_open : ToQ → CollapsePlan → NodeId → result OpenToQ)
    (apply_plan : ToQ → CollapsePlan → list (NodeId * string) → result CollapsedToQ)
    (answerer : string → option string → W → Answer * W)
    (collapser : OpenToQ → option string → W → string * W)
    (normalizer : option (string → W → string * W))
    (substituter : option (string → list (NodeId * string) → string))
    (context : option string) (t : ToQ)
    (plan_opts : option (list (string * bool)))
    (cache : option (gmap CacheKey string)) (w : W) (log : list OpenToQ) :
  (∀ t plan r o, extract_open t plan r = Ok o → open_root_id o = r) →
  NoDup (call_key <$> log) →
  (∀ o, o ∈ log → is_Some (default ∅ cache !! call_key o)) →
  let out := run_consistency_check enumerate_plans comp_roots extract_open apply_plan
               (logged_answerer answerer) (recording_collapser collapser)
               (logged_normalizer normalizer) substituter context
               t plan_opts cache (w, log) in
  let log' := out.2.1.2 in
  let cache' := out.2.2 in
  (∃ new, log' = log ++ new
          ∧ NoDup (call_key <$> new)
          ∧ ∀ o, o ∈ new → default ∅ cache !! call_key o = None)
  ∧ NoDup (call_key <$> log')
  ∧ (∀ o, o ∈ log' → is_Some (cache' !! call_key o))
  ∧ default ∅ cache ⊆ cache'
  ∧ (∀ r o (st : LoggedState W) cq,
       st.2 !! cache_key r o = Some cq →
       cached_collapse (recording_collapser collapser) context r o st = (Ok cq, st)).
Proof.
  intros Hroot Hnd Hcached out log' cache'.
  pose proof (run_consistency_check_extends enumerate_plans comp_roots extract_open
                apply_plan answerer collapser normalizer substituter context Hroot
                t plan_opts cache w log) as (new & Hlog & Hsub & Hnew & Hmiss & Hdom).
  fold out in Hlog, Hsub, Hdom. simpl in Hlog, Hsub, Hmiss, Hdom.
  fold log' in Hlog. fold cache' in Hsub, Hdom.
  split_and!.
  - by exists new.
  - rewrite Hlog, fmap_app. apply NoDup_app. split_and!; [done| |done].
    intros k Hk1 Hk2. apply list_elem_of_fmap in Hk1 as (o1 & -> & Ho1).
    apply list_elem_of_fmap in Hk2 as (o2 & Heq & Ho2).
    apply Hcached in Ho1 as [v Hv]. apply Hmiss in Ho2. congruence.
  - intros o Ho. rewrite Hlog in Ho. apply Hdom.
    apply elem_of_app in Ho as [Ho|Ho]; [left; by apply Hcached|right].
    apply list_elem_of_fmap. by exists o.
  - done.
  - intros r o st cq Hhit. unfold cached_collapse. by rewrite Hhit.
Qed.


(** * The runs of the orchestrator *)

Lemma bind_ok_inv {St A B} (m : M St A) (f : A → M St B) st b st' :
  (m ≫= f) st = (Ok b, st') →
  ∃ a st1, m st = (Ok a, st1) ∧ f a st1 = (Ok b, st').
Proof.
  unfold mbind, M_bind. destruct (m st) as [[a|e] st1]; [|done].
  intros H. by exists a, st1.
Qed.

Lemma bind_ok {St A B} (m : M St A) (f : A → M St B) st a st1 :
  m st = (Ok a, st1) → (m ≫= f) st = f a st1.
Proof. intros H. unfold mbind, M_bind. by rewrite H. Qed.

Lemma lift_ok_inv {St A} (r : result A) (st st' : St) a :
  lift r st = (Ok a, st') → r = Ok a ∧ st' = st.
Proof. unfold lift. by intros [= -> ->]. Qed.

Lemma evaluate_toq_ok_valid {W} (answerer : string → option string → W → Answer * W)
    substituter context t w tr w' :
  evaluate_toq answerer substituter context t w = (Ok tr, w') → validate t = Ok tt.
Proof.
  destruct (validate t) as [[]|e] eqn:Hv; [done|].
  by rewrite (evaluate_toq_raise _ _ _ _ _ e Hv).
Qed.

Section Runs.
Context {W : Type}.
Variable enumerate_plans : ToQ → bool → list CollapsePlan.
Variable comp_roots : ToQ → CollapsePlan → result (list NodeId).
Variable extract_open : ToQ → CollapsePlan → NodeId → result OpenToQ.
Variable apply_plan : ToQ → CollapsePlan → list (NodeId * string) → result CollapsedToQ.
Variable answerer : string → option string → W → Answer * W.
Variable collapser : OpenToQ → option string → W → string * W.
Variable normalizer : option (string → W → string * W).
Variable substituter : option (string → list (NodeId * string) → string).
Variable context : option string.

Lemma run_plan_inv t plan st r st' :
  run_plan comp_roots extract_open apply_plan answerer collapser normalizer
    substituter context t plan st = (Ok r, st') →
  rec_plan r = plan ∧ validate (collapsed_toq (rec_collapsed r)) = Ok tt.
Proof.
  unfold run_plan. intros H.
  apply bind_ok_inv in H as (roots & st1 & _ & H).
  apply bind_ok_inv in H as (by_root & st2 & _ & H).
  apply bind_ok_inv in H as (collapsed & st3 & _ & H).
  apply bind_ok_inv in H as (trace & st4 & Hev & H).
  apply bind_ok_inv in H as (root_answer & st5 & _ & H).
  apply bind_ok_inv in H as (normalized & st6 & _ & H).
  injection H as <- <-. simpl. split; [done|].
  by apply evaluate_toq_ok_valid in Hev.
Qed.

Lemma run_plans_inv t plans acc st rs st' :
  run_plans comp_roots extract_open apply_plan answerer collapser normalizer
    substituter context t plans acc st = (Ok rs, st') →
  ∃ new, rs = acc ++ new ∧ rec_plan <$> new = plans
         ∧ ∀ r, r ∈ new → validate (collapsed_toq (rec_collapsed r)) = Ok tt.
Proof.
  revert acc st. induction plans as [|plan plans IH]; intros acc st; simpl.
  - intros [= <- <-]. exists []. rewrite app_nil_r. split_and!; [done..|].
    intros r Hr. by apply elem_of_nil in Hr.
  - intros H. apply bind_ok_inv in H as (r & st1 & Hr & H).
    apply run_plan_inv in Hr as [Hplan Hvalid].
    apply IH in H as (new & -> & Hplans & Hall).
    exists (r :: new). rewrite <-app_assoc. split_and!; [done| |].
    + by rewrite fmap_cons, Hplan, Hplans.
    + intros r' Hr'. apply elem_of_cons in Hr' as [->|?]; [done|by apply Hall].
Qed.

(** A report holds one record per enumerated plan, in the order of the
    enumeration, and every quotient tree in it has passed validation. *)
Lemma run_consistency_check_inv t plan_opts cache w report st' :
  run_consistency_check enumerate_plans comp_roots extract_open apply_plan
    answerer collapser normalizer substituter context t plan_opts cache w
  = (Ok report, st') →
  rec_plan <$> runs report
  = enumerate_plans t (match plan_opts with
                       | Some opts => default true (PyDict.get opts "include_empty")
                       | None => true
                       end)
  ∧ ∀ r, r ∈ runs report → validate (collapsed_toq (rec_collapsed r)) = Ok tt.
Proof.
  unfold run_consistency_check. intros H.
  apply bind_ok_inv in H as (? & st1 & _ & H).
  apply bind_ok_inv in H as (base & st2 & _ & H).
  apply bind_ok_inv in H as (base_root & st3 & _ & H).
  apply bind_ok_inv in H as (rs & st4 & Hrs & H).
  injection H as <- <-. simpl.
  apply run_plans_inv in Hrs as (new & -> & Hplans & Hall). by simpl.
Qed.
End Runs.

(** C10.  [evaluate_toq] validates its tree before anything else: on a
    structurally malformed tree it raises the validation error and the
    answerer, wrapped to record its calls, is not called; so every quotient
    tree that a returned report of [run_consistency_check] holds has passed
    validation. *)
Theorem evaluate_toq_validates_first {W : Type}
    (answerer : string → option string → W → Answer * W)
    (substituter : option (string → list (NodeId * string) → string))
    (context : option string) (t : ToQ) (w : W) (log : list (string * option string)) :
  PyDict.wf (nodes t) → violation t →
  (∃ e, validate t = Raise e ∧ reported t e
        ∧ evaluate_toq (recording_answerer answerer) substituter context t (w, log)
          = (Raise e, (w, log)))
  ∧ (∀ enumerate_plans comp_roots extract_open apply_plan collapser normalizer
       t0 plan_opts cache report st',
       run_consistency_check enumerate_plans comp_roots extract_open apply_plan
         answerer collapser normalizer substituter context t0 plan_opts cache w
       = (Ok report, st') →
       ∀ r, r ∈ runs report → validate (collapsed_toq (rec_collapsed r)) = Ok tt).
Proof.
  intros Hwf Hviol. split.
  - destruct (validate t) as [[]|e] eqn:Hv.
    + apply validate_ok_iff in Hv; [|done].
      by apply well_formed_no_violation in Hv.
    + exists e. split_and!; [done|by apply validate_raise_reported|].
      by apply evaluate_toq_raise.
  - intros ? ? ? ? ? ? ? ? ? ? ? Hrun.
    by apply run_consistency_check_inv in Hrun as [_ ?].
Qed.

Lemma evaluate_toq_validates_first_witness :
  (∃ e, validate toq_cycle = Raise e ∧ reported toq_cycle e
        ∧ evaluate_toq (recording_answerer toy_answerer) None None toq_cycle (tt, [])
          = (Raise e, (tt, [])))
  ∧ (∀ enumerate_plans comp_roots extract_open apply_plan collapser normalizer
       t0 plan_opts cache report st',
       run_consistency_check enumerate_plans comp_roots extract_open apply_plan
         toy_answerer collapser normalizer None None t0 plan_opts cache tt
       = (Ok report, st') →
       ∀ r, r ∈ runs report → validate (collapsed_toq (rec_collapsed r)) = Ok tt).
Proof.
  apply (evaluate_toq_validates_first toy_answerer None None toq_cycle tt []).
  - by_compute.
  - do 4 right. left. right. exists (mkToQNode 1 "Q1?" (Some 2)), 2.
    split; [|reflexivity]. simpl. left.
Defined.


(** * The orchestrator on the modelled transforms *)

Lemma extract_open_toq_root t plan r o :
  extract_open_toq t plan r = Ok o → open_root_id o = r.
Proof.
  unfold extract_open_toq.
  destruct (component_walk _ _ _ _ _) as [st|e]; simpl; [|done].
  by intros [= <-].
Qed.

Lemma enumerated_plan_of_tree t b plan :
  plan ∈ enumerate_collapse_plans t b → plan_of_tree t plan.
Proof.
  intros Hin c Hc. apply elem_of_non_root_ids.
  assert (sublist (cut_edges plan) (non_root_ids t)) as Hsub.
  { unfold enumerate_collapse_plans in Hin.
    apply list_elem_of_fmap in Hin as (s & -> & Hs). simpl.
    apply elem_of_lex_subsets. destruct b; [done|].
    by apply list_elem_of_filter in Hs as [_ ?]. }
  eapply elem_of_sublist; [exact Hc|exact Hsub].
Qed.

Section Total.
Context {W : Type}.
Variable answerer : string → option string → W → Answer * W.
Variable collapser : OpenToQ → option string → W → string * W.
Variable normalizer : option (string → W → string * W).
Variable substituter : option (string → list (NodeId * string) → string).
Variable context : option string.
Variable t : ToQ.
Hypothesis Hwf : PyDict.wf (nodes t).
Hypothesis Hwft : well_formed t.

Lemma collapse_components_total plan rs :
  (∀ r, r ∈ rs → ∃ o, extract_open_toq t plan r = Ok o) →
  ∀ acc st, ∃ acc' st',
    collapse_components extract_open_toq collapser context t plan rs acc st
    = (Ok acc', st')
    ∧ ∀ r, r ∈ PyDict.keys acc.2 ∨ r ∈ rs → r ∈ PyDict.keys acc'.2.
Proof.
  induction rs as [|r rs IH]; intros Hex acc st; simpl.
  - exists acc, st. split; [done|]. intros r [?|Hr]; [done|].
    by apply elem_of_nil in Hr.
  - destruct (Hex r) as [o Ho]; [left|].
    unfold collapse_component. 
    assert (∃ cq st1, cached_collapse collapser context r o st = (Ok cq, st1))
      as (cq & st1 & Hcq).
    { unfold cached_collapse. destruct (st.2 !! cache_key r o); [by eexists _, _|].
      destruct (collapser o context st.1). by eexists _, _. }
    destruct (IH (fun r' Hr' => Hex r' (list_elem_of_further _ _ _ Hr'))
                (PyDict.set acc.1 r o, PyDict.set acc.2 r cq) st1)
      as (acc' & st' & Hrun & Hkeys).
    exists acc', st'. split.
    + unfold mbind at 1, M_bind at 1. unfold mbind at 1, M_bind at 1, lift.
      rewrite Ho. unfold mbind at 1, M_bind at 1. rewrite Hcq. exact Hrun.
    + intros r' Hr'. apply Hkeys. simpl. rewrite keys_set.
      destruct Hr' as [?|Hr']; [left|].
      * case_decide; [done|]. apply elem_of_app. by left.
      * apply elem_of_cons in Hr' as [->|?]; [left|by right].
        case_decide; [done|]. apply elem_of_app. right. left.
Qed.

Lemma run_plan_total plan st :
  plan_of_tree t plan →
  ∃ r st',
    run_plan component_roots extract_open_toq apply_collapse_plan
      answerer collapser normalizer substituter context t plan st = (Ok r, st').
Proof.
  intros Hplan. destruct Hwft as [Hck Hreach]. unfold run_plan.
  set (roots := elements ({[root_id t]} ∪ list_to_set (cut_edges plan) : gset Z)).
  assert (∀ x, x ∈ roots ↔ x = root_id t ∨ x ∈ cut_edges plan) as Hroots.
  { intros x. apply elem_of_component_roots. }
  assert (∀ r, r ∈ roots → r ∈ node_ids t) as Hroots_in.
  { intros r [->|Hc]%Hroots; [apply (ck_root_in t Hck)|by apply Hplan]. }
  assert (NoDup roots) as Hnd by apply NoDup_elements.
  erewrite bind_ok; [|unfold lift; by rewrite component_roots_ok].
  destruct (collapse_components_total plan roots) with (acc := (@nil (NodeId * OpenToQ), @nil (NodeId * string))) (st := st)
    as (by_root & st1 & Hcc & Hkeys).
  { intros r Hr. destruct (extract_open_toq_spec t Hwf Hck (cut_edges plan) plan r)
      as (o & Ho & _); [done|by apply Hreach, Hroots_in|]. by exists o. }
  erewrite bind_ok; [|exact Hcc].
  destruct (quotient_nodes_ok t roots by_root.2 roots []) as (texts & Hq & Htexts & _).
  { done. }
  { intros r Hr. apply Hkeys. by right. }
  erewrite bind_ok.
  2:{ unfold lift, apply_collapse_plan. rewrite component_roots_ok by done.
      simpl. fold roots. rewrite Hq. simpl. reflexivity. }
  simpl. fold (quotient_of t roots texts).
  assert (root_id t ∈ roots) as Hroot by (apply Hroots; by left).
  pose proof (quotient_valid t Hck Hreach roots Hnd Hroot Hroots_in texts Htexts) as Hqv.
  pose proof (quotient_wf t roots Hnd texts Htexts) as Hqwf.
  destruct (evaluate_toq_spec (fun q c => on_world (answerer q c)) substituter context
              (quotient_of t roots texts) st1 Hqwf Hqv)
    as (order & trace & st2 & _ & Hpo & Hev & _ & Hka & _).
  erewrite bind_ok; [|exact Hev].
  assert (root_id t ∈ PyDict.keys (answer trace)) as Hra.
  { rewrite Hka. destruct Hpo as (_ & Hin & _). apply Hin. apply descends_refl. }
  destruct (in_keys_get _ _ Hra) as [a Ha].
  erewrite bind_ok; [|unfold lift, subscript; simpl; by rewrite Ha].
  destruct normalizer as [f|].
  - unfold mbind at 1, M_bind at 1. unfold mbind at 1, M_bind at 1, call.
    destruct (on_world (f (answer_text a)) st2) as [n st3]. simpl. by eexists _, _.
  - unfold mbind, M_bind, mret, M_ret. by eexists _, _.
Qed.

Lemma run_plans_total plans :
  (∀ plan, plan ∈ plans → plan_of_tree t plan) →
  ∀ acc st, ∃ rs st',
    run_plans component_roots extract_open_toq apply_collapse_plan
      answerer collapser normalizer substituter context t plans acc st = (Ok rs, st').
Proof.
  induction plans as [|plan plans IH]; intros Hall acc st; simpl.
  - by eexists _, _.
  - destruct (run_plan_total plan st) as (r & st1 & Hr); [apply Hall; left|].
    erewrite bind_ok; [|exact Hr]. apply IH. intros p Hp. apply Hall. by right.
Qed.

(** On a tree that passes validation, the run returns a report. *)
Lemma run_consistency_check_total plan_opts cache w :
  ∃ report st',
    run_consistency_check enumerate_collapse_plans component_roots extract_open_toq
      apply_collapse_plan answerer collapser normalizer substituter context
      t plan_opts cache w = (Ok report, st').
Proof.
  pose proof (proj2 (validate_ok_iff t Hwf) Hwft) as Hv.
  unfold run_consistency_check.
  erewrite bind_ok; [|unfold lift; by rewrite Hv].
  destruct (evaluate_toq_spec (fun q c => on_world (answerer q c)) substituter context
              t (w, default ∅ cache) Hwf Hv)
    as (order & trace & st2 & _ & Hpo & Hev & _ & Hka & _).
  erewrite bind_ok; [|exact Hev].
  assert (root_id t ∈ PyDict.keys (answer trace)) as Hra.
  { rewrite Hka. destruct Hpo as (_ & Hin & _). apply Hin. apply descends_refl. }
  destruct (in_keys_get _ _ Hra) as [a Ha].
  erewrite bind_ok; [|unfold lift, subscript; by rewrite Ha].
  match goal with |- context [run_plans _ _ _ _ _ _ _ _ _ ?plans _] =>
    destruct (run_plans_total plans) with (acc := @nil RunRecord) (st := st2)
      as (rs & st3 & Hrs) end.
  { intros plan Hplan. by eapply enumerated_plan_of_tree. }
  erewrite bind_ok; [|exact Hrs]. by eexists _, _.
Qed.
End Total.

(** C4.  For a tree with [k] non-root nodes, the enumeration yields [2^k]
    plans with [include_empty], pairwise distinct, one for every subset of the
    non-root ids, and [2^k - 1] without it, the empty cut set alone being left
    out; the order is a function of the tree.  So, on a tree that passes
    validation, [run_consistency_check] returns a report with that many
    records, one per plan, in the order of the enumeration. *)
Theorem plans_and_runs_count {W : Type}
    (answerer : string → option string → W → Answer * W)
    (collapser : OpenToQ → option string → W → string * W)
    (normalizer : option (string → W → string * W))
    (substituter : option (string → list (NodeId * string) → string))
    (context : option string) (t : ToQ)
    (plan_opts : option (list (string * bool)))
    (cache : option (gmap CacheKey string)) (w : W) :
  PyDict.wf (nodes t) → validate t = Ok tt →
  let k := length (non_root_ids t) in
  let include_empty :=
    match plan_opts with
    | Some opts => default true (PyDict.get opts "include_empty")
    | None => true
    end in
  S k = length (nodes t)
  ∧ length (enumerate_collapse_plans t true) = (2 ^ k)%nat
  ∧ length (enumerate_collapse_plans t false) = (2 ^ k - 1)%nat
  ∧ NoDup (cut_edges <$> enumerate_collapse_plans t true)
  ∧ (∀ s, s ∈ cut_edges <$> enumerate_collapse_plans t true
          ↔ sublist s (non_root_ids t))
  ∧ (∀ s, s ∈ cut_edges <$> enumerate_collapse_plans t false
          ↔ sublist s (non_root_ids t) ∧ s ≠ [])
  ∧ ∃ report st',
      run_consistency_check enumerate_collapse_plans component_roots extract_open_toq
        apply_collapse_plan answerer collapser normalizer substituter context
        t plan_opts cache w = (Ok report, st')
      ∧ rec_plan <$> runs report = enumerate_collapse_plans t include_empty
      ∧ length (runs report) = (if include_empty then 2 ^ k else 2 ^ k - 1)%nat.
Proof.
  intros Hwf Hv k include_empty.
  pose proof (proj1 (validate_ok_iff t Hwf) Hv) as Hwft.
  destruct (enumerate_collapse_plans_spec t Hwf) as (Hlen & Hlen' & Hnd & Hall & Hall').
  fold k in Hlen, Hlen'.
  split_and!; try done.
  - apply length_non_root_ids; [done|]. by destruct Hwft as [[] _].
  - destruct (run_consistency_check_total answerer collapser normalizer substituter
                context t Hwf Hwft plan_opts cache w) as (report & st' & Hrun).
    exists report, st'. split; [done|].
    apply run_consistency_check_inv in Hrun as [Hplans _].
    fold include_empty in Hplans. split; [done|].
    rewrite <-(length_fmap rec_plan), Hplans. by destruct include_empty.
Qed.

Lemma plans_and_runs_count_witness :
  let k := length (non_root_ids toq_five) in
  S k = length (nodes toq_five)
  ∧ length (enumerate_collapse_plans toq_five true) = (2 ^ k)%nat
  ∧ length (enumerate_collapse_plans toq_five false) = (2 ^ k - 1)%nat
  ∧ NoDup (cut_edges <$> enumerate_collapse_plans toq_five true)
  ∧ (∀ s, s ∈ cut_edges <$> enumerate_collapse_plans toq_five true
          ↔ sublist s (non_root_ids toq_five))
  ∧ (∀ s, s ∈ cut_edges <$> enumerate_collapse_plans toq_five false
          ↔ sublist s (non_root_ids toq_five) ∧ s ≠ [])
  ∧ ∃ report st',
      run_consistency_check enumerate_collapse_plans component_roots extract_open_toq
        apply_collapse_plan toy_answerer toy_collapser None None None
        toq_five (Some [("include_empty", false)]) None tt = (Ok report, st')
      ∧ rec_plan <$> runs report = enumerate_collapse_plans toq_five false
      ∧ length (runs report) = (2 ^ k - 1)%nat.
Proof.
  apply (plans_and_runs_count toy_answerer toy_collapser None None None toq_five
           (Some [("include_empty", false)]) None tt).
  - by_compute.
  - vm_compute. reflexivity.
Defined.

Lemma collapser_called_once_per_key_witness :
  let out := run_consistency_check enumerate_collapse_plans component_roots
               extract_open_toq apply_collapse_plan
               (logged_answerer toy_answerer) (recording_collapser toy_collapser)
               (logged_normalizer None) None None
               toq_five (Some [("include_empty", true)]) None (tt, []) in
  let log' := out.2.1.2 in
  let cache' := out.2.2 in
  (∃ new, log' = [] ++ new
          ∧ NoDup (call_key <$> new)
          ∧ ∀ o, o ∈ new → default ∅ (@None (gmap CacheKey string)) !! call_key o = None)
  ∧ NoDup (call_key <$> log')
  ∧ (∀ o, o ∈ log' → is_Some (cache' !! call_key o))
  ∧ default ∅ (@None (gmap CacheKey string)) ⊆ cache'
  ∧ (∀ r o (st : LoggedState unit) cq,
       st.2 !! cache_key r o = Some cq →
       cached_collapse (recording_collapser toy_collapser) None r o st = (Ok cq, st)).
Proof.
  apply (collapser_called_once_per_key enumerate_collapse_plans component_roots
           extract_open_toq apply_collapse_plan toy_answerer toy_collapser None None
           None toq_five (Some [("include_empty", true)]) None tt []).
  - exact extract_open_toq_root.
  - constructor.
  - intros o Ho. by apply elem_of_nil in Ho.
Defined.

(** The five-node tree of the test-suite: sixteen runs, seventeen calls of
    the collapser, fewer than plans times nodes. *)
Example five_node_run :
  let out := run_consistency_check enumerate_collapse_plans component_roots
               extract_open_toq apply_collapse_plan
               (logged_answerer toy_answerer) (recording_collapser toy_collapser)
               (logged_normalizer None) None None
               toq_five (Some [("include_empty", true)]) None (tt, []) in
  (length <$> (runs <$> match out.1 with Ok r => Some r | Raise _ => None end)) = Some 16%nat
  ∧ length out.2.1.2 = 17%nat ∧ (17 < 16 * 5)%nat.
Proof. vm_compute. split_and!; [reflexivity..|lia]. Qed.


(** * The cases of the test-suite *)

Example validate_examples :
  validate toq_single = Ok tt ∧ validate toq_three = Ok tt
  ∧ validate toq_five = Ok tt
  ∧ validate toq_cycle = Raise (RootHasParent 1)
  ∧ validate toq_orphan_cycle = Raise (Unreachable 1 [2; 3])
  ∧ validate (mkToQ [(1, mkToQNode 1 "Q1?" None); (2, mkToQNode 2 "Q2?" None)] 1)
    = Raise (NotOneRoot [1; 2])
  ∧ validate (mkToQ [(1, mkToQNode 1 "Q1?" (Some 99))] 1) = Raise (MissingParent 1 99)
  ∧ validate (mkToQ [(1, mkToQNode 99 "Bad id?" None)] 1) = Raise (KeyMismatch 1 99).
Proof. split_and!; vm_compute; reflexivity. Qed.

Example children_and_leaves :
  children toq_three = [(1, []); (2, []); (3, [1; 2])]
  ∧ leaves toq_three = [1; 2] ∧ postorder toq_five = Ok [1; 2; 3; 4; 5].
Proof. split_and!; vm_compute; reflexivity. Qed.

Example evaluate_three :
  evaluate_toq (recording_answerer toy_answerer) None None toq_three (tt, [])
  = (Ok (mkEvalTrace
           [(1, "Q1?"); (2, "Q2?"); (3, "Q3(ANS(Q1?),ANS(Q2?))")]
           [(1, mkAnswer "ANS(Q1?)" None); (2, mkAnswer "ANS(Q2?)" None);
            (3, mkAnswer "ANS(Q3(ANS(Q1?),ANS(Q2?)))" None)]),
     (tt, [("Q1?", None); ("Q2?", None); ("Q3(ANS(Q1?),ANS(Q2?))", None)])).
Proof. vm_compute. reflexivity. Qed.

Example evaluate_custom_substituter :
  (evaluate_toq (recording_answerer toy_answerer) (Some summary_substituter)
     (Some "CTX")
     (mkToQ [(1, mkToQNode 1 "Q1?" (Some 2)); (2, mkToQNode 2 "Q2?" None)] 2)
     (tt, [])).2.2
  = [("Q1?", Some "CTX"); ("Q2? CHILDREN: 1=ANS(Q1?)", Some "CTX")].
Proof. vm_compute. reflexivity. Qed.

Example json_examples :
  toq_from_json int_of_decimal json_no_root = Raise JsonMissingKeys
  ∧ toq_from_json int_of_decimal
      (mkJsonToQ (Some 1)
         (Some (JNodes [("1", JEntry (mkJsonFields (Some 1) (Some "Root?") (Some None)));
                        ("2", JEntry (mkJsonFields (Some 2) (Some "Child?")
                                        (Some (Some 99))))])))
    = Raise (MissingParent 2 99)
  ∧ toq_from_json int_of_decimal
      (mkJsonToQ (Some 1)
         (Some (JNodes [("1", JEntry (mkJsonFields (Some 99) (Some "Q?") (Some None)))])))
    = Raise (KeyMismatch 1 99)
  ∧ (PyDict.keys <$> (match j_nodes (toq_to_json toq_single) with
                      | Some (JNodes entries) => Some entries
                      | _ => None
                      end)) = Some ["1"].
Proof. split_and!; vm_compute; reflexivity. Qed.

Example plans_of_the_chain :
  cut_edges <$> enumerate_collapse_plans toq_chain true = [[]; [1]]
  ∧ cut_edges <$> enumerate_collapse_plans toq_three true = [[]; [1]; [1; 2]; [2]]
  ∧ length (enumerate_collapse_plans toq_five true) = 16%nat.
Proof. split_and!; vm_compute; reflexivity. Qed.

Example quotient_examples :
  (nodes <$> (collapsed_toq <$>
     match apply_collapse_plan toq_three (mkCollapsePlan [1]) [(3, "C(3)"); (1, "C(1)")]
     with Ok c => Some c | Raise _ => None end))
  = Some [(3, mkToQNode 3 "C(3)" None); (1, mkToQNode 1 "C(1)" (Some 3))]
  ∧ apply_collapse_plan toq_three (mkCollapsePlan [1]) [(3, "C(3)")]
    = Raise (PlanMissingQuestion 1)
  ∧ apply_collapse_plan toq_three (mkCollapsePlan [3]) [(3, "C(3)")] = Raise PlanRootCut
  ∧ apply_collapse_plan toq_three (mkCollapsePlan [99]) [(3, "C(3)"); (99, "C(99)")]
    = Raise (PlanNodeMissing 99).
Proof. split_and!; vm_compute; reflexivity. Qed.


(** * Part III: further properties of the code *)


(** * Further properties of [toq_types.py] *)

Lemma keys_children_step ch item :
  PyDict.keys (children_step ch item) = PyDict.keys ch.
Proof.
  unfold children_step. destruct (node_parent item.2) as [p|]; [|done].
  destruct (PyDict.get ch p) as [l|] eqn:Hg; [|done].
  apply keys_set_old. by eapply get_in_keys.
Qed.

Lemma keys_children t : PyDict.wf (nodes t) → PyDict.keys (children t) = node_ids t.
Proof.
  intros Hwf. unfold children.
  assert (∀ items ch, PyDict.keys (fold_left children_step items ch) = PyDict.keys ch)
    as Hfold.
  { induction items as [|item items IH]; intros ch; simpl; [done|].
    by rewrite IH, keys_children_step. }
  rewrite Hfold, of_list_nodup.
  - unfold PyDict.keys. rewrite <-list_fmap_compose. simpl. by rewrite list_fmap_id.
  - rewrite <-list_fmap_compose. simpl. by rewrite list_fmap_id.
Qed.

(** X1.  [ToQ.children] returns a dictionary with the node ids as keys, in the
    order of the dictionary of nodes; the list under [u] holds the nodes whose
    parent is [u], in that order and each once; a node whose parent id is not a
    key of the tree is in no list, and the lookup of an id that is not a key
    finds nothing. *)
Theorem children_adjacency (t : ToQ) :
  PyDict.wf (nodes t) →
  PyDict.keys (children t) = node_ids t
  ∧ (∀ u, u ∈ node_ids t → PyDict.get (children t) u = Some (kids_of (nodes t) u))
  ∧ (∀ u, u ∉ node_ids t → PyDict.get (children t) u = None)
  ∧ (∀ u v, v ∈ get_children (children t) u
            ↔ u ∈ node_ids t ∧ parent_of t v = Some u)
  ∧ (∀ u, NoDup (get_children (children t) u))
  ∧ (∀ u u' v, v ∈ get_children (children t) u → v ∈ get_children (children t) u' →
               u = u').
Proof.
  intros Hwf. pose proof (keys_children t Hwf) as Hkeys.
  assert (∀ u v, v ∈ get_children (children t) u
                 ↔ u ∈ node_ids t ∧ parent_of t v = Some u) as Hkid.
  { intros u v. rewrite get_children_spec by done. case_decide as Hu.
    - rewrite elem_kids_of by done. naive_solver.
    - rewrite elem_of_nil. naive_solver. }
  split_and!; [done| | |done| |].
  - intros u Hu. pose proof (get_children_spec t u Hwf) as Hg.
    rewrite decide_True in Hg by done. unfold get_children in Hg.
    destruct (PyDict.get (children t) u) as [l|] eqn:El; [simpl in Hg; by subst|].
    apply get_None in El. by rewrite Hkeys in El.
  - intros u Hu. apply get_None. by rewrite Hkeys.
  - intros u. rewrite get_children_spec by done. case_decide; [|constructor].
    by apply NoDup_kids_of.
  - intros u u' v [_ Hu]%Hkid [_ Hu']%Hkid. congruence.
Qed.

Lemma children_adjacency_witness :
  PyDict.keys (children toq_five) = node_ids toq_five
  ∧ PyDict.get (children toq_five) 3 = Some [1; 2].
Proof.
  destruct (children_adjacency toq_five) as (Hk & Hget & _); [by_compute|].
  split; [exact Hk|]. apply Hget. by_compute.
Defined.

Lemma elem_of_leaves t l :
  PyDict.wf (nodes t) →
  l ∈ leaves t ↔ l ∈ node_ids t ∧ ∀ v, parent_of t v ≠ Some l.
Proof.
  intros Hwf. unfold leaves. rewrite list_elem_of_filter. fold (node_ids t).
  split.
  - intros [Hlen Hl]. split; [done|]. intros v Hv.
    rewrite get_children_spec, decide_True in Hlen by done.
    apply (elem_kids_of t v l Hwf) in Hv.
    destruct (kids_of (nodes t) l); [by apply elem_of_nil in Hv|done].
  - intros [Hl Hno]. split; [|done].
    rewrite get_children_spec, decide_True by done.
    destruct (kids_of (nodes t) l) as [|v vs] eqn:Hk; [done|].
    exfalso. apply (Hno v), (elem_kids_of t v l Hwf). rewrite Hk. left.
Qed.

(** X2.  [ToQ.leaves] lists, in the order of the dictionary of nodes and each
    once, the node ids that are the parent of no node. *)
Theorem leaves_are_childless (t : ToQ) :
  PyDict.wf (nodes t) →
  sublist (leaves t) (node_ids t)
  ∧ NoDup (leaves t)
  ∧ ∀ l, l ∈ leaves t ↔ l ∈ node_ids t ∧ ∀ v, parent_of t v ≠ Some l.
Proof.
  intros Hwf. split_and!.
  - apply sublist_filter.
  - apply NoDup_filter, Hwf.
  - intros l. by apply elem_of_leaves.
Qed.

Lemma leaves_are_childless_witness :
  sublist (leaves toq_five) (node_ids toq_five) ∧ 4 ∈ leaves toq_five.
Proof.
  destruct (leaves_are_childless toq_five) as (Hs & _ & Hin); [by_compute|].
  split; [exact Hs|]. apply Hin. split; [by_compute|].
  intros v. apply (bool_decide_unpack _).
  destruct (decide (v = 1)) as [->|]; [vm_compute; reflexivity|].
  destruct (decide (v = 2)) as [->|]; [vm_compute; reflexivity|].
  destruct (decide (v = 3)) as [->|]; [vm_compute; reflexivity|].
  destruct (decide (v = 4)) as [->|]; [vm_compute; reflexivity|].
  destruct (decide (v = 5)) as [->|]; [vm_compute; reflexivity|].
  apply bool_decide_pack. unfold parent_of, toq_five. simpl.
  repeat (rewrite decide_False by congruence). done.
Defined.

Section LeavesBelow.
Variable t : ToQ.
Hypothesis Hwf : PyDict.wf (nodes t).
Hypothesis Hck : checked t.

Lemma leaf_or_deeper d w :
  w ∈ node_ids t →
  (∃ l, l ∈ leaves t ∧ descends t w l) ∨ ∃ x, ancestor t d x = Some w.
Proof.
  intros Hw. induction d as [|d IH].
  - right. by exists w.
  - destruct IH as [?|[x Hx]]; [by left|].
    assert (x ∈ node_ids t) as Hxin.
    { destruct d; simpl in Hx; [congruence|].
      destruct (parent_of t x) eqn:Hp; [|done]. by eapply parent_in_keys. }
    destruct (kids_of (nodes t) x) as [|v vs] eqn:Hk.
    + left. exists x. split; [|by exists d].
      apply elem_of_leaves; [done|]. split; [done|].
      intros v Hv. apply (elem_kids_of t v x Hwf) in Hv. rewrite Hk in Hv.
      by apply elem_of_nil in Hv.
    + right. exists v. simpl.
      assert (parent_of t v = Some x) as ->; [|done].
      apply (elem_kids_of t v x Hwf). rewrite Hk. left.
Qed.

Lemma leaf_below w :
  descends t (root_id t) w → ∃ l, l ∈ leaves t ∧ descends t w l.
Proof.
  intros [k Hk].
  destruct (leaf_or_deeper (length (nodes t)) w) as [?|[x Hx]]; [|done|].
  - apply (descends_in_keys t Hck). by exists k.
  - exfalso.
    assert (ancestor t (length (nodes t) + k) x = Some (root_id t)) as Hd.
    { by rewrite ancestor_add, Hx. }
    apply (depth_bound t Hck) in Hd. lia.
Qed.
End LeavesBelow.

(** X3.  On a tree that passes validation, every node has a leaf of
    [ToQ.leaves] in the sub-tree below it, so there is at least one leaf; and
    the root is a leaf exactly when it is the only node. *)
Theorem leaves_of_valid_tree (t : ToQ) :
  PyDict.wf (nodes t) → validate t = Ok tt →
  (∀ w, w ∈ node_ids t → ∃ l, l ∈ leaves t ∧ descends t w l)
  ∧ leaves t ≠ []
  ∧ (root_id t ∈ leaves t ↔ node_ids t = [root_id t]).
Proof.
  intros Hwf Hv. apply validate_ok_iff in Hv as [Hck Hreach]; [|done].
  assert (∀ w, w ∈ node_ids t → ∃ l, l ∈ leaves t ∧ descends t w l) as Hbelow.
  { intros w Hw. by apply leaf_below, Hreach. }
  split_and!; [done| |].
  - destruct (Hbelow (root_id t) (ck_root_in t Hck)) as (l & Hl & _).
    intros Hnil. rewrite Hnil in Hl. by apply elem_of_nil in Hl.
  - rewrite elem_of_leaves by done. split.
    + intros [_ Hno].
      assert (∀ w, w ∈ node_ids t → w = root_id t) as Hall.
      { intros w Hw. destruct (Hreach w Hw) as [[|k] Hk]; [simpl in Hk; congruence|].
        exfalso. rewrite ancestor_S_r in Hk.
        destruct (ancestor t k w) as [v|]; [|done]. simpl in Hk. by eapply Hno. }
      pose proof (ck_root_in t Hck) as Hr. unfold PyDict.wf in Hwf.
      fold (node_ids t) in Hwf.
      destruct (node_ids t) as [|a l]; [by apply elem_of_nil in Hr|].
      assert (a = root_id t) as -> by (apply Hall; left).
      destruct l as [|b l]; [done|].
      assert (b = root_id t) as -> by (apply Hall; right; left).
      apply NoDup_cons in Hwf as [Hn _]. exfalso. apply Hn. left.
    + intros Hone. split; [apply (ck_root_in t Hck)|].
      intros v Hv. pose proof (parent_in_keys _ _ _ Hv) as Hin.
      rewrite Hone in Hin. apply list_elem_of_singleton in Hin. subst v.
      by rewrite (ck_root t Hck) in Hv.
Qed.

Lemma leaves_of_valid_tree_witness :
  leaves toq_five ≠ [] ∧ (root_id toq_five ∈ leaves toq_five ↔ node_ids toq_five = [root_id toq_five]).
Proof.
  destruct (leaves_of_valid_tree toq_five) as (_ & Hne & Hroot);
    [by_compute|vm_compute; reflexivity|].
  split; [exact Hne|exact Hroot].
Defined.


(** * Further properties of [serialization.py] *)

Lemma from_json_to_json_any int_of_str t :
  (∀ z, int_of_str (str_of_int z) = Some z) →
  PyDict.wf (nodes t) →
  toq_from_json int_of_str (toq_to_json t) = (_ ← validate t; Ok t).
Proof.
  intros Hint Hwf. unfold toq_from_json, toq_to_json. simpl.
  rewrite of_list_nodup.
  2:{ rewrite json_of_node_keys. apply NoDup_fmap_2; [|exact Hwf].
      intros z1 z2. apply str_of_int_inj. }
  rewrite (from_json_nodes_decoded _ _ _ _ (decode_encoded int_of_str Hint (nodes t))).
  simpl. fold (PyDict.of_list (nodes t)). rewrite of_list_nodup by exact Hwf.
  by destruct t as [ns r].
Qed.

(** X4.  For every tree, valid or not, parsing its serialized form does what
    [validate] does on the tree itself: it returns the tree when the tree
    passes validation, and raises the exception of [validate] when it does
    not.  [int()] is any reading of integers that inverts [str()]. *)
Theorem json_round_trip_or_same_error (int_of_str : string → option Z) (t : ToQ) :
  (∀ z, int_of_str (str_of_int z) = Some z) →
  PyDict.wf (nodes t) →
  (validate t = Ok tt → toq_from_json int_of_str (toq_to_json t) = Ok t)
  ∧ (∀ e, validate t = Raise e → toq_from_json int_of_str (toq_to_json t) = Raise e).
Proof.
  intros Hint Hwf. rewrite from_json_to_json_any by done.
  split; [intros ->|intros e ->]; reflexivity.
Qed.

Lemma json_round_trip_or_same_error_witness :
  toq_from_json int_of_decimal (toq_to_json toq_cycle) = Raise (RootHasParent 1).
Proof.
  apply (json_round_trip_or_same_error int_of_decimal toq_cycle).
  - exact int_of_decimal_str.
  - by_compute.
  - vm_compute. reflexivity.
Defined.

Lemma json_of_node_inj : Inj (=) (=) json_of_node.
Proof.
  intros [n1 [i1 t1 p1]] [n2 [i2 t2 p2]]. unfold json_of_node. simpl.
  intros [= Hk -> -> ->]. apply str_of_int_inj in Hk. by subst.
Qed.

(** X5.  [toq_to_json] loses nothing: two trees have the same serialized form
    only if they are the same tree (same root id, same nodes in the same
    order). *)
Theorem toq_to_json_injective (t1 t2 : ToQ) :
  PyDict.wf (nodes t1) → PyDict.wf (nodes t2) →
  toq_to_json t1 = toq_to_json t2 ↔ t1 = t2.
Proof.
  intros Hwf1 Hwf2. split; [|by intros ->].
  unfold toq_to_json. intros [= Hr He].
  rewrite !of_list_nodup in He.
  2,3: rewrite json_of_node_keys; (apply NoDup_fmap_2; [|done]);
       intros z1 z2; apply str_of_int_inj.
  pose proof json_of_node_inj as Hinj. apply (inj (fmap json_of_node)) in He.
  destruct t1, t2. simpl in *. by subst.
Qed.

Lemma toq_to_json_injective_witness :
  toq_to_json toq_three = toq_to_json toq_five ↔ toq_three = toq_five.
Proof.
  apply (toq_to_json_injective toq_three toq_five); by_compute.
Defined.

Lemma get_fold_set_last {V} (l1 l2 acc : list (NodeId * V)) k v :
  k ∉ l2.*1 →
  PyDict.get (fold_left (fun d kv => PyDict.set d kv.1 kv.2) (l1 ++ (k, v) :: l2) acc) k
  = Some v.
Proof.
  intros Hk. rewrite fold_left_app. simpl.
  generalize (fold_left (fun d kv => PyDict.set d kv.1 kv.2) l1 acc). intros d.
  assert (PyDict.get (PyDict.set d k v) k = Some v) as Hd
    by (by rewrite get_set, decide_True).
  revert Hd. generalize (PyDict.set d k v). clear d.
  induction l2 as [|[k' v'] l2 IH]; intros d Hd; simpl; [done|].
  apply not_elem_of_cons in Hk as [Hne Hk]. apply IH; [done|].
  by rewrite get_set, decide_False.
Qed.

Lemma mapM_app_inv {A B} (f : A → option B) l1 l2 r :
  mapM f (l1 ++ l2) = Some r →
  ∃ r1 r2, r = r1 ++ r2 ∧ mapM f l1 = Some r1 ∧ mapM f l2 = Some r2.
Proof.
  revert r. induction l1 as [|a l1 IH]; intros r; simpl.
  - intros H. by exists [], r.
  - destruct (f a) as [b|]; [|done]. simpl.
    destruct (mapM f (l1 ++ l2)) as [r'|] eqn:Hr'; [|done]. simpl.
    intros [= <-]. destruct (IH r' eq_refl) as (r1 & r2 & -> & -> & ->).
    by exists (b :: r1), r2.
Qed.

(** X6.  When two keys of the [nodes] mapping are read by [int()] as the same
    node id, [toq_from_json] keeps one node for that id, built from the last
    such entry: the earlier ones are overwritten without an error. *)
Theorem from_json_last_entry_wins (int_of_str : string → option Z) (obj : JsonToQ)
    (t : ToQ) (pre post : list (string * JsonEntry)) (k : string) (f : JsonFields)
    (nid : NodeId) :
  toq_from_json int_of_str obj = Ok t →
  j_nodes obj = Some (JNodes (pre ++ (k, JEntry f) :: post)) →
  int_of_str k = Some nid →
  (∀ k' v, (k', v) ∈ post → int_of_str k' ≠ Some nid) →
  ∃ tx, j_id f = Some nid ∧ j_text f = Some tx
        ∧ PyDict.get (nodes t) nid = Some (mkToQNode nid tx (mjoin (j_parent f))).
Proof.
  intros Hok Hn Hk Hpost.
  apply from_json_ok_inv in Hok as [Hres Hv].
  unfold resulting_tree in Hres. rewrite Hn in Hres.
  destruct (j_root_id obj) as [root|]; [|done]. simpl in Hres.
  destruct (mapM _ _) as [ns|] eqn:Hm; [|done]. simpl in Hres.
  injection Hres as <-.
  apply mapM_app_inv in Hm as (r1 & r2 & -> & H1 & H2). simpl in H2.
  destruct (decode_entry int_of_str (k, JEntry f)) as [[n node]|] eqn:Hd; [|done].
  simpl in H2. destruct (mapM _ post) as [r3|] eqn:H3; [|done]. simpl in H2.
  injection H2 as <-.
  unfold decode_entry in Hd. simpl in Hd. rewrite Hk in Hd. simpl in Hd.
  destruct (j_id f) as [i|] eqn:Hi; [|done]. simpl in Hd.
  destruct (j_text f) as [tx|] eqn:Htx; [|done]. simpl in Hd.
  injection Hd as <- <-.
  assert (nid ∉ r3.*1) as Hfresh.
  { intros Hin. apply list_elem_of_fmap in Hin as ([n' node'] & Hn' & Hin).
    simpl in Hn'. subst n'.
    assert (∀ es rs, mapM (decode_entry int_of_str) es = Some rs →
              ∀ x, x ∈ rs → ∃ kv, kv ∈ es ∧ decode_entry int_of_str kv = Some x) as Hsrc.
    { clear. induction es as [|e es IH]; intros rs; simpl.
      - intros [= <-] x Hx. by apply elem_of_nil in Hx.
      - destruct (decode_entry int_of_str e) as [y|] eqn:Hy; [|done]. simpl.
        destruct (mapM _ es) as [rs'|]; [|done]. simpl. intros [= <-] x Hx.
        apply elem_of_cons in Hx as [->|Hx].
        + exists e. split; [left|done].
        + destruct (IH rs' eq_refl x Hx) as (kv & ? & ?). exists kv. split; [by right|done]. }
    destruct (Hsrc _ _ H3 _ Hin) as ([k' v] & Hkv & Hdec).
    apply (Hpost k' v Hkv). unfold decode_entry in Hdec. simpl in Hdec.
    destruct (int_of_str k') as [n'|]; [|done]. simpl in Hdec.
    destruct v as [|f']; [done|].
    destruct (j_id f'); [|done]. destruct (j_text f'); [|done]. simpl in Hdec.
    by injection Hdec as -> _. }
  assert (PyDict.get (PyDict.of_list (r1 ++ (nid, mkToQNode i tx (mjoin (j_parent f))) :: r3))
            nid = Some (mkToQNode i tx (mjoin (j_parent f)))) as Hget.
  { unfold PyDict.of_list. by apply get_fold_set_last. }
  assert (i = nid) as ->.
  { pose proof (of_list_wf (r1 ++ (nid, mkToQNode i tx (mjoin (j_parent f))) :: r3)) as Hwf.
    apply (validate_ok_iff (mkToQ _ root) Hwf) in Hv as [Hck _].
    apply get_Some_elem in Hget. by apply (ck_ids _ Hck) in Hget. }
  exists tx. by split_and!.
Qed.

Lemma from_json_last_entry_wins_witness :
  ∃ tx, j_id (mkJsonFields (Some 1) (Some "b") (Some None)) = Some 1
        ∧ j_text (mkJsonFields (Some 1) (Some "b") (Some None)) = Some tx
        ∧ PyDict.get (nodes (mkToQ [(1, mkToQNode 1 "b" None)] 1)) 1
          = Some (mkToQNode 1 tx None).
Proof.
  apply (from_json_last_entry_wins int_of_decimal
           (mkJsonToQ (Some 1)
              (Some (JNodes [("1", JEntry (mkJsonFields (Some 1) (Some "a") None));
                             ("01", JEntry (mkJsonFields (Some 1) (Some "b") (Some None)))])))
           (mkToQ [(1, mkToQNode 1 "b" None)] 1)
           [("1", JEntry (mkJsonFields (Some 1) (Some "a") None))] [] "01"
           (mkJsonFields (Some 1) (Some "b") (Some None)) 1).
  - vm_compute. reflexivity.
  - reflexivity.
  - vm_compute. reflexivity.
  - intros k' v Hin. by apply elem_of_nil in Hin.
Defined.

(** X7.  A tree returned by [toq_from_json] round-trips: serializing it and
    parsing the result gives the same tree again, whatever the spelling of the
    keys of the document it was first read from. *)
Theorem parsed_tree_round_trips (int_of_str : string → option Z) (obj : JsonToQ) (t : ToQ) :
  (∀ z, int_of_str (str_of_int z) = Some z) →
  toq_from_json int_of_str obj = Ok t →
  toq_from_json int_of_str (toq_to_json t) = Ok t.
Proof.
  intros Hint Hok. apply from_json_ok_inv in Hok as [Hres Hv].
  apply from_json_to_json; [done| |done].
  unfold resulting_tree in Hres.
  destruct (j_root_id obj) as [root|]; [|done]. simpl in Hres.
  destruct (j_nodes obj) as [[|entries]|]; [done| |done].
  destruct (mapM _ _) as [ns|]; [|done]. simpl in Hres. injection Hres as <-.
  apply of_list_wf.
Qed.

Lemma parsed_tree_round_trips_witness :
  toq_from_json int_of_decimal (toq_to_json (mkToQ [(1, mkToQNode 1 "b" None)] 1))
  = Ok (mkToQ [(1, mkToQNode 1 "b" None)] 1).
Proof.
  apply (parsed_tree_round_trips int_of_decimal
           (mkJsonToQ (Some 1)
              (Some (JNodes [("1", JEntry (mkJsonFields (Some 1) (Some "a") None));
                             ("01", JEntry (mkJsonFields (Some 1) (Some "b") (Some None)))])))).
  - exact int_of_decimal_str.
  - vm_compute. reflexivity.
Defined.


(** * Further properties of [consistency.py]: malformed trees *)

Lemma violation_raises t :
  PyDict.wf (nodes t) → violation t → ∃ e, validate t = Raise e ∧ reported t e.
Proof.
  intros Hwf Hviol. destruct (validate t) as [[]|e] eqn:Hv.
  - apply validate_ok_iff in Hv; [|done]. by apply well_formed_no_violation in Hv.
  - exists e. split; [done|]. by apply validate_raise_reported.
Qed.

Lemma run_consistency_check_raise {W} enumerate_plans comp_roots extract_open apply_plan
    (answerer : string → option string → W → Answer * W) collapser normalizer
    substituter context t plan_opts cache w e :
  validate t = Raise e →
  run_consistency_check enumerate_plans comp_roots extract_open apply_plan
    answerer collapser normalizer substituter context t plan_opts cache w
  = (Raise e, (w, default ∅ cache)).
Proof.
  intros Hv. unfold run_consistency_check, mbind, M_bind, lift. by rewrite Hv.
Qed.

(** X8.  On a structurally malformed tree [run_consistency_check] raises the
    exception of [validate] before anything else is done: the answerer, the
    collapser and the normalizer, instrumented to record their calls, are not
    called, and the cache is as it was supplied. *)
Theorem run_consistency_check_rejects_malformed {W : Type}
    (enumerate_plans : ToQ → bool → list CollapsePlan)
    (comp_roots : ToQ → CollapsePlan → result (list NodeId))
    (extract_open : ToQ → CollapsePlan → NodeId → result OpenToQ)
    (apply_plan : ToQ → CollapsePlan → list (NodeId * string) → result CollapsedToQ)
    (answerer : string → option string → W → Answer * W)
    (collapser : OpenToQ → option string → W → string * W)
    (normalizer : option (string → W → string * W))
    (substituter : option (string → list (NodeId * string) → string))
    (context : option string) (t : ToQ)
    (plan_opts : option (list (string * bool)))
    (cache : option (gmap CacheKey string)) (p : Probe W) :
  PyDict.wf (nodes t) → violation t →
  ∃ e, validate t = Raise e ∧ reported t e
       ∧ run_consistency_check enumerate_plans comp_roots extract_open apply_plan
           (probe_answerer answerer) (probe_collapser collapser)
           (probe_normalizer normalizer) substituter context t plan_opts cache p
         = (Raise e, (p, default ∅ cache)).
Proof.
  intros Hwf Hviol. destruct (violation_raises t Hwf Hviol) as (e & Hv & Hrep).
  exists e. split_and!; [done..|]. by apply run_consistency_check_raise.
Qed.

Lemma run_consistency_check_rejects_malformed_witness :
  ∃ e, validate toq_orphan_cycle = Raise e ∧ reported toq_orphan_cycle e
       ∧ run_consistency_check enumerate_collapse_plans component_roots
           extract_open_toq apply_collapse_plan
           (probe_answerer toy_answerer) (probe_collapser toy_collapser)
           (probe_normalizer None) None None toq_orphan_cycle None None
           (mkProbe tt [] [] [])
         = (Raise e, (mkProbe tt [] [] [], ∅)).
Proof.
  apply (run_consistency_check_rejects_malformed enumerate_collapse_plans
           component_roots extract_open_toq apply_collapse_plan
           toy_answerer toy_collapser None None None toq_orphan_cycle None None
           (mkProbe tt [] [] [])).
  - by_compute.
  - do 5 right. left. exists 2, 2%nat. split_and!; [by_compute|lia|reflexivity].
Defined.

(** X9.  [run_consistency_check_from_question] calls the decomposer once, with
    the question and the context, and then does what [run_consistency_check]
    does on the tree the decomposer returned, from the world the decomposer
    left: same report or same exception, same final world of the oracles, same
    cache.  Its own call of [validate] changes nothing; when the decomposed
    tree fails validation, the exception of [validate] is raised with the
    world as the decomposer left it. *)
Theorem from_question_is_decompose_then_check {W : Type}
    (enumerate_plans : ToQ → bool → list CollapsePlan)
    (comp_roots : ToQ → CollapsePlan → result (list NodeId))
    (extract_open : ToQ → CollapsePlan → NodeId → result OpenToQ)
    (apply_plan : ToQ → CollapsePlan → list (NodeId * string) → result CollapsedToQ)
    (decomposer : string → option string → W → ToQ * W)
    (answerer : string → option string → W → Answer * W)
    (collapser : OpenToQ → option string → W → string * W)
    (normalizer : option (string → W → string * W))
    (substituter : option (string → list (NodeId * string) → string))
    (context : option string) (question : string)
    (plan_opts : option (list (string * bool)))
    (cache : option (gmap CacheKey string)) (w : W) :
  let toq := (decomposer question context w).1 in
  let w1 := (decomposer question context w).2 in
  run_consistency_check_from_question enumerate_plans comp_roots extract_open
    apply_plan decomposer answerer collapser normalizer substituter context
    question plan_opts cache w
  = run_consistency_check enumerate_plans comp_roots extract_open apply_plan
      answerer collapser normalizer substituter context toq plan_opts cache w1
  ∧ (∀ e, validate toq = Raise e →
       run_consistency_check_from_question enumerate_plans comp_roots extract_open
         apply_plan decomposer answerer collapser normalizer substituter context
         question plan_opts cache w
       = (Raise e, (w1, default ∅ cache))).
Proof.
  unfold run_consistency_check_from_question.
  destruct (decomposer question context w) as [t w1]. simpl. split.
  - destruct (validate t) as [[]|e] eqn:Hv; [done|].
    by rewrite (run_consistency_check_raise _ _ _ _ _ _ _ _ _ _ _ _ _ e Hv).
  - by intros e ->.
Qed.


(** * Further properties of [consistency.py]: the cache *)

Lemma agree_refl {St A} (P : St → Prop) (R : St → St → Prop) (m : M St A) :
  (∀ st st', P st → R st st' → P st') → steps R m → agree P m m.
Proof. intros HPR Hm st HP. split; [done|]. by eapply HPR. Qed.

Lemma agree_bind {St A B} (P : St → Prop) (m1 m2 : M St A) (f1 f2 : A → M St B) :
  agree P m1 m2 → (∀ a, agree P (f1 a) (f2 a)) → agree P (m1 ≫= f1) (m2 ≫= f2).
Proof.
  intros Hm Hf st HP. unfold mbind, M_bind. destruct (Hm st HP) as [Heq HP1].
  rewrite <-Heq. destruct (m1 st) as [[a|e] st1]; simpl in *; [|done].
  by apply Hf.
Qed.

Lemma agree_lift_ok {St A B} (P : St → Prop) (a : A) (f1 f2 : A → M St B) :
  agree P (f1 a) (f2 a) → agree P (lift (Ok a) ≫= f1) (lift (Ok a) ≫= f2).
Proof. intros H st HP. exact (H st HP). Qed.

Lemma agree_lift_raise {St A B} (P : St → Prop) e (f1 f2 : A → M St B) :
  agree P (lift (Raise e) ≫= f1) (lift (Raise e) ≫= f2).
Proof. by intros st HP. Qed.

Lemma cache_and_calls_kept_refl {W} (st : Probe W * gmap CacheKey string) :
  cache_and_calls_kept st st.
Proof. done. Qed.

Lemma cache_and_calls_kept_trans {W} (st1 st2 st3 : Probe W * gmap CacheKey string) :
  cache_and_calls_kept st1 st2 → cache_and_calls_kept st2 st3 →
  cache_and_calls_kept st1 st3.
Proof. intros [? ?] [? ?]. split; congruence. Qed.

Section WarmCache.
Context {W : Type}.
Variable comp_roots : ToQ → CollapsePlan → result (list NodeId).
Variable extract_open : ToQ → CollapsePlan → NodeId → result OpenToQ.
Variable apply_plan : ToQ → CollapsePlan → list (NodeId * string) → result CollapsedToQ.
Variable answerer : string → option string → W → Answer * W.
Variable collapser1 collapser2 : OpenToQ → option string → W → string * W.
Variable normalizer : option (string → W → string * W).
Variable substituter : option (string → list (NodeId * string) → string).
Variable context : option string.
Variable t : ToQ.
Variable cache0 : gmap CacheKey string.
Variable log0 : list OpenToQ.

Local Abbreviation warm :=
  (fun st : Probe W * gmap CacheKey string =>
     st.2 = cache0 ∧ collapsed_calls st.1 = log0).

Lemma warm_kept (st st' : Probe W * gmap CacheKey string) :
  warm st → cache_and_calls_kept st st' → warm st'.
Proof. intros [? ?] [? ?]. split; congruence. Qed.

Lemma probe_answerer_kept (q : string) (c : option string)
    (st : Probe W * gmap CacheKey string) :
  cache_and_calls_kept st (on_world (probe_answerer answerer q c) st).2.
Proof.
  destruct st as [p cache]. unfold on_world, probe_answerer. simpl.
  by destruct (answerer q c (probe_world p)).
Qed.

Lemma agree_cached_collapse r o :
  is_Some (cache0 !! cache_key r o) →
  agree warm (cached_collapse (probe_collapser collapser1) context r o)
             (cached_collapse (probe_collapser collapser2) context r o).
Proof.
  intros [cq Hcq] st [Hc Hl]. unfold cached_collapse. rewrite Hc, Hcq. done.
Qed.

Lemma agree_collapse_components plan rs acc :
  (∀ r o, r ∈ rs → extract_open t plan r = Ok o →
          is_Some (cache0 !! cache_key r o)) →
  agree warm
    (collapse_components extract_open (probe_collapser collapser1) context t plan rs acc)
    (collapse_components extract_open (probe_collapser collapser2) context t plan rs acc).
Proof.
  revert acc. induction rs as [|r rs IH]; intros acc Hcov; simpl.
  - by intros st HP.
  - apply agree_bind.
    + unfold collapse_component. destruct (extract_open t plan r) as [o|e] eqn:Ho.
      * apply agree_lift_ok. apply agree_bind; [|by intros cq st' HP'].
        apply agree_cached_collapse. apply Hcov; [left|done].
      * apply agree_lift_raise.
    + intros acc'. apply IH. intros r' o Hr'. apply Hcov. by right.
Qed.

Lemma agree_run_plan plan :
  (∀ roots r o, comp_roots t plan = Ok roots → r ∈ roots →
                extract_open t plan r = Ok o → is_Some (cache0 !! cache_key r o)) →
  agree warm
    (run_plan comp_roots extract_open apply_plan (probe_answerer answerer)
       (probe_collapser collapser1) (probe_normalizer normalizer) substituter context
       t plan)
    (run_plan comp_roots extract_open apply_plan (probe_answerer answerer)
       (probe_collapser collapser2) (probe_normalizer normalizer) substituter context
       t plan).
Proof.
  intros Hcov. unfold run_plan.
  destruct (comp_roots t plan) as [roots|e] eqn:Hroots; [|apply agree_lift_raise].
  apply agree_lift_ok.
  apply agree_bind; [apply agree_collapse_components; by eauto|].
  intros by_root. apply (agree_refl _ cache_and_calls_kept); [apply warm_kept|].
  apply steps_bind; [apply cache_and_calls_kept_trans|by apply steps_lift|].
  intros collapsed.
  apply steps_bind; [apply cache_and_calls_kept_trans| |].
  { apply steps_evaluate_toq; [done|apply cache_and_calls_kept_trans|].
    apply probe_answerer_kept. }
  intros trace.
  apply steps_bind; [apply cache_and_calls_kept_trans|by apply steps_lift|].
  intros root_answer.
  apply steps_bind; [apply cache_and_calls_kept_trans| |by intros; apply steps_ret].
  unfold probe_normalizer. destruct normalizer as [f|]; simpl; [|by apply steps_ret].
  apply steps_bind; [apply cache_and_calls_kept_trans| |by intros; apply steps_ret].
  apply steps_call. intros [p cache]. unfold on_world. simpl.
  by destruct (f (answer_text root_answer) (probe_world p)).
Qed.

Lemma agree_run_plans plans acc :
  (∀ plan roots r o, plan ∈ plans → comp_roots t plan = Ok roots → r ∈ roots →
                     extract_open t plan r = Ok o →
                     is_Some (cache0 !! cache_key r o)) →
  agree warm
    (run_plans comp_roots extract_open apply_plan (probe_answerer answerer)
       (probe_collapser collapser1) (probe_normalizer normalizer) substituter context
       t plans acc)
    (run_plans comp_roots extract_open apply_plan (probe_answerer answerer)
       (probe_collapser collapser2) (probe_normalizer normalizer) substituter context
       t plans acc).
Proof.
  revert acc. induction plans as [|plan plans IH]; intros acc Hcov; simpl.
  - by intros st HP.
  - apply agree_bind.
    + apply agree_run_plan. intros roots r o. apply Hcov. left.
    + intros r. apply IH. intros plan' roots r' o Hin. apply Hcov. by right.
Qed.
End WarmCache.

(** X10.  When the supplied cache holds an entry for every (component root,
    inputs) pair that the enumerated plans induce on the tree, the collapser
    is not called: its log of calls is unchanged, the cache is returned as it
    was supplied, and the outcome (report or exception, and the final world)
    is the same whatever the collapser is.  The collapsed questions are the
    cached ones. *)
Theorem warm_cache_bypasses_collapser {W : Type}
    (enumerate_plans : ToQ → bool → list CollapsePlan)
    (comp_roots : ToQ → CollapsePlan → result (list NodeId))
    (extract_open : ToQ → CollapsePlan → NodeId → result OpenToQ)
    (apply_plan : ToQ → CollapsePlan → list (NodeId * string) → result CollapsedToQ)
    (answerer : string → option string → W → Answer * W)
    (collapser collapser' : OpenToQ → option string → W → string * W)
    (normalizer : option (string → W → string * W))
    (substituter : option (string → list (NodeId * string) → string))
    (context : option string) (t : ToQ)
    (plan_opts : option (list (string * bool)))
    (cache : gmap CacheKey string) (p : Probe W) :
  cache_covers enumerate_plans comp_roots extract_open t (include_empty_of plan_opts)
    cache →
  let out := run_consistency_check enumerate_plans comp_roots extract_open apply_plan
               (probe_answerer answerer) (probe_collapser collapser)
               (probe_normalizer normalizer) substituter context
               t plan_opts (Some cache) p in
  let out' := run_consistency_check enumerate_plans comp_roots extract_open apply_plan
                (probe_answerer answerer) (probe_collapser collapser')
                (probe_normalizer normalizer) substituter context
                t plan_opts (Some cache) p in
  collapsed_calls out.2.1 = collapsed_calls p
  ∧ out.2.2 = cache
  ∧ out = out'.
Proof.
  intros Hcov. simpl.
  assert (agree (fun st : Probe W * gmap CacheKey string =>
                   st.2 = cache ∧ collapsed_calls st.1 = collapsed_calls p)
            (_ ← lift (validate t);
             base ← evaluate_toq (fun q c => on_world (probe_answerer answerer q c))
                      substituter context t;
             base_root ← lift (subscript (answer base) (root_id t));
             rs ← run_plans comp_roots extract_open apply_plan (probe_answerer answerer)
                    (probe_collapser collapser) (probe_normalizer normalizer)
                    substituter context t
                    (enumerate_plans t (include_empty_of plan_opts)) [];
             mret (mkConsistencyReport base base_root rs []))
            (_ ← lift (validate t);
             base ← evaluate_toq (fun q c => on_world (probe_answerer answerer q c))
                      substituter context t;
             base_root ← lift (subscript (answer base) (root_id t));
             rs ← run_plans comp_roots extract_open apply_plan (probe_answerer answerer)
                    (probe_collapser collapser') (probe_normalizer normalizer)
                    substituter context t
                    (enumerate_plans t (include_empty_of plan_opts)) [];
             mret (mkConsistencyReport base base_root rs []))) as Hagree.
  { apply agree_bind.
    { apply (agree_refl _ cache_and_calls_kept); [apply warm_kept|by apply steps_lift]. }
    intros _. apply agree_bind.
    { apply (agree_refl _ cache_and_calls_kept); [apply warm_kept|].
      apply steps_evaluate_toq; [done|apply cache_and_calls_kept_trans|].
      apply probe_answerer_kept. }
    intros base. apply agree_bind.
    { apply (agree_refl _ cache_and_calls_kept); [apply warm_kept|by apply steps_lift]. }
    intros base_root. apply agree_bind.
    { apply agree_run_plans. intros plan roots r o. apply Hcov. }
    by intros rs st HP. }
  destruct (Hagree (p, cache)) as [Heq [Hc Hl]]; [done|].
  unfold run_consistency_check. simpl. split_and!; done.
Qed.

Lemma cache_grown_refl {W} (st : W * gmap CacheKey string) : cache_grown st st.
Proof. unfold cache_grown. done. Qed.

Lemma cache_grown_trans {W} (st1 st2 st3 : W * gmap CacheKey string) :
  cache_grown st1 st2 → cache_grown st2 st3 → cache_grown st1 st3.
Proof. unfold cache_grown. intros ? ?. by etrans. Qed.

Section CacheFilled.
Context {W : Type}.
Variable extract_open : ToQ → CollapsePlan → NodeId → result OpenToQ.
Variable collapser : OpenToQ → option string → W → string * W.
Variable context : option string.
Variable t : ToQ.

Lemma cached_collapse_filled r o st cq st' :
  cached_collapse collapser context r o st = (Ok cq, st') →
  cache_grown st st' ∧ st'.2 !! cache_key r o = Some cq.
Proof.
  unfold cached_collapse, cache_grown.
  destruct (st.2 !! cache_key r o) as [cq'|] eqn:Hhit.
  - by intros [= <- <-].
  - destruct (collapser o context st.1) as [cq' w']. intros [= <- <-]. simpl.
    split; [by apply insert_subseteq|by rewrite lookup_insert_eq].
Qed.

Lemma collapse_components_filled plan rs acc st res st' :
  collapse_components extract_open collapser context t plan rs acc st = (Ok res, st') →
  cache_grown st st'
  ∧ (∀ x, x ∈ res.2.*1 ↔ x ∈ acc.2.*1 ∨ x ∈ rs)
  ∧ (∀ r, r ∉ rs → PyDict.get res.1 r = PyDict.get acc.1 r
                   ∧ PyDict.get res.2 r = PyDict.get acc.2 r)
  ∧ ∀ r, r ∈ rs →
      ∃ o cq, extract_open t plan r = Ok o ∧ st'.2 !! cache_key r o = Some cq
              ∧ PyDict.get res.1 r = Some o ∧ PyDict.get res.2 r = Some cq.
Proof.
  revert acc st. induction rs as [|r rs IH]; intros acc st; simpl.
  - intros [= <- <-]. split_and!; [apply cache_grown_refl| |done|].
    + intros x. rewrite elem_of_nil. naive_solver.
    + intros r Hr. by apply elem_of_nil in Hr.
  - intros H. apply bind_ok_inv in H as (acc' & st1 & Hc & H).
    unfold collapse_component in Hc.
    apply bind_ok_inv in Hc as (o & st0 & Ho & Hc).
    apply lift_ok_inv in Ho as [Ho ->].
    apply bind_ok_inv in Hc as (cq & st2 & Hcq & Hc).
    injection Hc as <- <-.
    apply cached_collapse_filled in Hcq as [Hg1 Hkey].
    apply IH in H as (Hg2 & Hkeys & Hold & Hnew). simpl in *.
    split_and!.
    + by eapply cache_grown_trans.
    + intros x. rewrite Hkeys. fold (PyDict.keys (PyDict.set acc.2 r cq)).
      rewrite keys_set. fold (PyDict.keys acc.2). rewrite elem_of_cons.
      case_decide; [|rewrite elem_of_app, list_elem_of_singleton]; naive_solver.
    + intros r' Hn. apply not_elem_of_cons in Hn as [Hne Hn].
      destruct (Hold r' Hn) as [-> ->]. by rewrite !get_set, !decide_False.
    + intros r' Hr'. destruct (decide (r' ∈ rs)) as [Hin|Hn].
      * by apply Hnew.
      * apply elem_of_cons in Hr' as [->|?]; [|done].
        exists o, cq. destruct (Hold r Hn) as [-> ->].
        rewrite !get_set, !decide_True by done.
        split_and!; [done| |done..]. by eapply lookup_weaken.
Qed.
End CacheFilled.

Section Anatomy.
Context {W : Type}.
Variable enumerate_plans : ToQ → bool → list CollapsePlan.
Variable comp_roots : ToQ → CollapsePlan → result (list NodeId).
Variable extract_open : ToQ → CollapsePlan → NodeId → result OpenToQ.
Variable apply_plan : ToQ → CollapsePlan → list (NodeId * string) → result CollapsedToQ.
Variable answerer : string → option string → W → Answer * W.
Variable collapser : OpenToQ → option string → W → string * W.
Variable normalizer : option (string → W → string * W).
Variable substituter : option (string → list (NodeId * string) → string).
Variable context : option string.
Variable t : ToQ.

Local Abbreviation run_plan' :=
  (run_plan comp_roots extract_open apply_plan answerer collapser normalizer
     substituter context).
Local Abbreviation run_plans' :=
  (run_plans comp_roots extract_open apply_plan answerer collapser normalizer
     substituter context).

(** The steps of one run, with the states in between. *)
Lemma run_plan_anatomy plan st r st' :
  run_plan' t plan st = (Ok r, st') →
  ∃ roots by_root c st1 st2,
    rec_plan r = plan
    ∧ comp_roots t plan = Ok roots
    ∧ collapse_components extract_open collapser context t plan roots ([], []) st
      = (Ok by_root, st1)
    ∧ apply_plan t plan by_root.2 = Ok c
    ∧ rec_collapsed r = with_open_toqs c by_root.1
    ∧ evaluate_toq (fun q c => on_world (answerer q c)) substituter context
        (collapsed_toq c) st1 = (Ok (rec_trace r), st2)
    ∧ subscript (answer (rec_trace r)) (root_id (collapsed_toq c))
      = Ok (rec_root_answer r)
    ∧ match normalizer with
      | Some f =>
          ∃ n, on_world (f (answer_text (rec_root_answer r))) st2 = (n, st')
               ∧ rec_normalized_root r = Some n
      | None => st' = st2 ∧ rec_normalized_root r = None
      end.
Proof.
  unfold run_plan. intros H.
  apply bind_ok_inv in H as (roots & st0 & Hroots & H).
  apply lift_ok_inv in Hroots as [Hroots ->].
  apply bind_ok_inv in H as (by_root & st1 & Hcc & H).
  apply bind_ok_inv in H as (c & st1' & Hc & H).
  apply lift_ok_inv in Hc as [Hc ->].
  apply bind_ok_inv in H as (trace & st2 & Hev & H).
  apply bind_ok_inv in H as (root_answer & st2' & Hra & H).
  apply lift_ok_inv in Hra as [Hra ->].
  apply bind_ok_inv in H as (normalized & st3 & Hn & H).
  injection H as <- <-. simpl.
  exists roots, by_root, c, st1, st2. split_and!; try done.
  destruct normalizer as [f|].
  - apply bind_ok_inv in Hn as (n & st4 & Hcall & Hn). injection Hn as <- <-.
    unfold call in Hcall. exists n.
    destruct (on_world (f (answer_text root_answer)) st2) as [n' st4'].
    by injection Hcall as -> ->.
  - by injection Hn as <- <-.
Qed.

Lemma steps_run_plan_grown plan : steps cache_grown (run_plan' t plan).
Proof.
  unfold run_plan.
  apply steps_bind; [apply cache_grown_trans|apply steps_lift, cache_grown_refl|].
  intros roots. apply steps_bind; [apply cache_grown_trans| |].
  { generalize (@nil (NodeId * OpenToQ), @nil (NodeId * string)).
    induction roots as [|r roots IH]; intros acc; simpl.
    - apply steps_ret, cache_grown_refl.
    - apply steps_bind; [apply cache_grown_trans| |done].
      unfold collapse_component.
      apply steps_bind; [apply cache_grown_trans|apply steps_lift, cache_grown_refl|].
      intros o. apply steps_bind; [apply cache_grown_trans| |].
      + intros st. unfold cached_collapse, cache_grown.
        destruct (st.2 !! cache_key r o) eqn:Hhit; simpl; [done|].
        destruct (collapser o context st.1). simpl. by apply insert_subseteq.
      + intros cq. apply steps_ret, cache_grown_refl. }
  intros by_root.
  apply steps_bind; [apply cache_grown_trans|apply steps_lift, cache_grown_refl|].
  intros c. apply steps_bind; [apply cache_grown_trans| |].
  { apply steps_evaluate_toq; [apply cache_grown_refl|apply cache_grown_trans|].
    intros q c' [w cache]. unfold on_world, cache_grown. simpl.
    by destruct (answerer q c' w). }
  intros trace.
  apply steps_bind; [apply cache_grown_trans|apply steps_lift, cache_grown_refl|].
  intros root_answer.
  apply steps_bind; [apply cache_grown_trans| |intros; apply steps_ret, cache_grown_refl].
  destruct normalizer as [f|]; [|apply steps_ret, cache_grown_refl].
  apply steps_bind; [apply cache_grown_trans| |intros; apply steps_ret, cache_grown_refl].
  apply steps_call. intros [w cache]. unfold on_world, cache_grown. simpl.
  by destruct (f (answer_text root_answer) w).
Qed.

Lemma steps_run_plans_grown plans acc : steps cache_grown (run_plans' t plans acc).
Proof.
  revert acc. induction plans as [|plan plans IH]; intros acc; simpl.
  - apply steps_ret, cache_grown_refl.
  - apply steps_bind; [apply cache_grown_trans|apply steps_run_plan_grown|done].
Qed.

Lemma run_made_of_grown cache1 cache2 r :
  cache1 ⊆ cache2 →
  run_made_of comp_roots extract_open apply_plan t cache1 r →
  run_made_of comp_roots extract_open apply_plan t cache2 r.
Proof.
  intros Hsub (roots & opens & cqs & c & ? & ? & ? & ? & Hall).
  exists roots, opens, cqs, c. split_and!; try done.
  intros root Hroot. destruct (Hall root Hroot) as (o & cq & ? & ? & ? & ?).
  exists o, cq. split_and!; try done. by eapply lookup_weaken.
Qed.

Lemma run_plan_made_of plan st r st' :
  run_plan' t plan st = (Ok r, st') →
  rec_plan r = plan ∧ st.2 ⊆ st'.2
  ∧ run_made_of comp_roots extract_open apply_plan t st'.2 r.
Proof.
  intros Hrun. pose proof (steps_run_plan_grown plan st) as Hg.
  rewrite Hrun in Hg. unfold cache_grown in Hg. simpl in Hg.
  apply run_plan_anatomy in Hrun
    as (roots & by_root & c & st1 & st2 & Hplan & Hroots & Hcc & Hc & Hrec & Hev & _ & Hn).
  split_and!; [done..|].
  apply collapse_components_filled in Hcc as (_ & Hkeys & _ & Hall).
  assert (st1.2 ⊆ st'.2) as Hsub.
  { pose proof (steps_evaluate_toq cache_grown cache_grown_refl cache_grown_trans
                  (fun q c => on_world (answerer q c)) substituter context
                  (collapsed_toq c)) as Hs.
    specialize (Hs (fun q c' st => ltac:(destruct st as [w cache];
      unfold on_world, cache_grown; simpl; by destruct (answerer q c' w))) st1).
    rewrite Hev in Hs. unfold cache_grown in Hs. simpl in Hs.
    etrans; [exact Hs|]. destruct normalizer as [f|].
    - destruct Hn as (n & Hcall & _). destruct st2 as [w2 cache2].
      unfold on_world in Hcall. simpl in *.
      destruct (f (answer_text (rec_root_answer r)) w2). by injection Hcall as _ <-.
    - by destruct Hn as [-> _]. }
  subst plan. exists roots, by_root.1, by_root.2, c. split_and!; try done.
  - intros x. unfold PyDict.keys. rewrite Hkeys. simpl. rewrite elem_of_nil. naive_solver.
  - intros root Hroot. destruct (Hall root Hroot) as (o & cq & ? & ? & ? & ?).
    exists o, cq. split_and!; try done. by eapply lookup_weaken.
Qed.

Lemma run_plans_made_of plans acc st rs st' :
  run_plans' t plans acc st = (Ok rs, st') →
  st.2 ⊆ st'.2
  ∧ ∃ new, rs = acc ++ new ∧ rec_plan <$> new = plans
           ∧ Forall (run_made_of comp_roots extract_open apply_plan t st'.2) new.
Proof.
  revert acc st. induction plans as [|plan plans IH]; intros acc st; simpl.
  - intros [= <- <-]. split; [done|]. exists []. by rewrite app_nil_r.
  - intros H. apply bind_ok_inv in H as (r & st1 & Hr & H).
    apply run_plan_made_of in Hr as (Hplan & Hsub1 & Hmade).
    apply IH in H as (Hsub2 & new & -> & Hplans & Hall).
    split; [by etrans|]. exists (r :: new). rewrite <-app_assoc.
    split_and!; [done|by rewrite fmap_cons, Hplan, Hplans|].
    constructor; [|done]. by eapply run_made_of_grown.
Qed.

Lemma run_consistency_check_made_of plan_opts cache w report st' :
  run_consistency_check enumerate_plans comp_roots extract_open apply_plan
    answerer collapser normalizer substituter context t plan_opts cache w
  = (Ok report, st') →
  rec_plan <$> runs report = enumerate_plans t (include_empty_of plan_opts)
  ∧ Forall (run_made_of comp_roots extract_open apply_plan t st'.2) (runs report).
Proof.
  unfold run_consistency_check. intros H.
  apply bind_ok_inv in H as (? & st1 & _ & H).
  apply bind_ok_inv in H as (base & st2 & _ & H).
  apply bind_ok_inv in H as (base_root & st3 & _ & H).
  apply bind_ok_inv in H as (rs & st4 & Hrs & H).
  injection H as <- <-. simpl.
  by apply run_plans_made_of in Hrs as (_ & new & -> & Hplans & Hall).
Qed.
End Anatomy.


Lemma run_consistency_check_covers {W : Type} enumerate_plans comp_roots extract_open
    apply_plan (answerer : string → option string → W → Answer * W) collapser
    normalizer substituter context t plan_opts cache w report st' :
  run_consistency_check enumerate_plans comp_roots extract_open apply_plan
    answerer collapser normalizer substituter context t plan_opts cache w
  = (Ok report, st') →
  cache_covers enumerate_plans comp_roots extract_open t (include_empty_of plan_opts)
    st'.2.
Proof.
  intros Hrun. apply run_consistency_check_made_of in Hrun as [Hplans Hall].
  intros plan roots root o Hplan Hroots Hroot Ho.
  rewrite <-Hplans in Hplan. apply list_elem_of_fmap in Hplan as (r & -> & Hr).
  rewrite Forall_forall in Hall.
  destruct (Hall r Hr) as (roots' & opens & cqs & c & Hroots' & _ & _ & _ & Hkeys).
  assert (roots' = roots) as -> by congruence.
  destruct (Hkeys root Hroot) as (o' & cq & Ho' & Hcq & _).
  assert (o' = o) as -> by congruence. by eexists.
Qed.

(** X11.  When [run_consistency_check] returns a report, the cache it leaves
    holds an entry for every (component root, inputs) pair that the enumerated
    plans induce on the tree; and in every run the collapsed question handed
    to [apply_collapse_plan] for a component root is the entry of that cache
    for the component's key, so that two runs with a component of the same
    key are given the same collapsed question for it. *)
Theorem successful_run_fills_cache {W : Type}
    (enumerate_plans : ToQ → bool → list CollapsePlan)
    (comp_roots : ToQ → CollapsePlan → result (list NodeId))
    (extract_open : ToQ → CollapsePlan → NodeId → result OpenToQ)
    (apply_plan : ToQ → CollapsePlan → list (NodeId * string) → result CollapsedToQ)
    (answerer : string → option string → W → Answer * W)
    (collapser : OpenToQ → option string → W → string * W)
    (normalizer : option (string → W → string * W))
    (substituter : option (string → list (NodeId * string) → string))
    (context : option string) (t : ToQ)
    (plan_opts : option (list (string * bool)))
    (cache : option (gmap CacheKey string)) (w : W)
    (report : ConsistencyReport) (st' : W * gmap CacheKey string) :
  run_consistency_check enumerate_plans comp_roots extract_open apply_plan
    answerer collapser normalizer substituter context t plan_opts cache w
  = (Ok report, st') →
  cache_covers enumerate_plans comp_roots extract_open t (include_empty_of plan_opts)
    st'.2
  ∧ Forall (run_made_of comp_roots extract_open apply_plan t st'.2) (runs report).
Proof.
  intros Hrun. split; [by eapply run_consistency_check_covers|].
  by apply run_consistency_check_made_of in Hrun as [_ ?].
Qed.

Lemma successful_run_fills_cache_witness :
  ∃ report st',
    run_consistency_check enumerate_collapse_plans component_roots extract_open_toq
      apply_collapse_plan toy_answerer toy_collapser None None None
      toq_chain None None tt = (Ok report, st')
    ∧ cache_covers enumerate_collapse_plans component_roots extract_open_toq
        toq_chain true st'.2
    ∧ Forall (run_made_of component_roots extract_open_toq apply_collapse_plan
                toq_chain st'.2) (runs report).
Proof.
  destruct (run_consistency_check enumerate_collapse_plans component_roots
              extract_open_toq apply_collapse_plan toy_answerer toy_collapser
              None None None toq_chain None None tt) as [[report|e] st'] eqn:Hrun.
  - exists report, st'. split; [reflexivity|].
    exact (successful_run_fills_cache _ _ _ _ _ _ _ _ _ _ _ _ _ _ _ Hrun).
  - exfalso. apply (f_equal (fun out => returned out.1)) in Hrun.
    vm_compute in Hrun. discriminate.
Defined.

Lemma warm_cache_bypasses_collapser_witness :
  let cache :=
    (run_consistency_check enumerate_collapse_plans component_roots extract_open_toq
       apply_collapse_plan toy_answerer toy_collapser None None None
       toq_chain None None tt).2.2 in
  let out := run_consistency_check enumerate_collapse_plans component_roots
               extract_open_toq apply_collapse_plan
               (probe_answerer toy_answerer) (probe_collapser toy_collapser)
               (probe_normalizer None) None None
               toq_chain None (Some cache) (mkProbe tt [] [] []) in
  let out' := run_consistency_check enumerate_collapse_plans component_roots
                extract_open_toq apply_collapse_plan
                (probe_answerer toy_answerer)
                (probe_collapser (fun _ _ w => ("anything", w)))
                (probe_normalizer None) None None
                toq_chain None (Some cache) (mkProbe tt [] [] []) in
  collapsed_calls out.2.1 = []
  ∧ out.2.2 = cache
  ∧ out = out'.
Proof.
  destruct (run_consistency_check enumerate_collapse_plans component_roots
              extract_open_toq apply_collapse_plan toy_answerer toy_collapser
              None None None toq_chain None None tt) as [[report|e] st'] eqn:Hrun.
  - apply (warm_cache_bypasses_collapser enumerate_collapse_plans component_roots
             extract_open_toq apply_collapse_plan toy_answerer toy_collapser
             (fun _ _ w => ("anything", w)) None None None toq_chain None st'.2
             (mkProbe tt [] [] [])).
    exact (run_consistency_check_covers _ _ _ _ _ _ _ _ _ _ _ _ _ _ _ Hrun).
  - exfalso. apply (f_equal (fun out => returned out.1)) in Hrun.
    vm_compute in Hrun. discriminate.
Defined.


(** * Further properties of [consistency.py]: what the oracles are asked *)

(** An evaluation inside the orchestrator is the evaluation alone, with the
    cache carried along. *)
Lemma evaluate_loop_on_world {W C} (answerer : string → option string → W → Answer * W)
    context t ch sub order tr (w : W) (c : C) :
  evaluate_loop (fun q c' => on_world (answerer q c')) context t ch sub order tr (w, c)
  = ((evaluate_loop answerer context t ch sub order tr w).1,
     ((evaluate_loop answerer context t ch sub order tr w).2, c)).
Proof.
  revert tr w. induction order as [|n order IH]; intros tr w; simpl; [done|].
  unfold evaluate_node, mbind, M_bind, lift, call, mret, M_ret, on_world. simpl.
  destruct (subscript (nodes t) n) as [node|e]; simpl; [|done].
  destruct (child_answer_texts (answer tr) (get_children ch n) []) as [cat|e]; simpl;
    [|done].
  match goal with |- context [answerer ?q context w] =>
    destruct (answerer q context w) as [a w1] end. simpl.
  apply IH.
Qed.

Lemma evaluate_toq_on_world {W C} (answerer : string → option string → W → Answer * W)
    substituter context t (w : W) (c : C) :
  evaluate_toq (fun q c' => on_world (answerer q c')) substituter context t (w, c)
  = ((evaluate_toq answerer substituter context t w).1,
     ((evaluate_toq answerer substituter context t w).2, c)).
Proof.
  unfold evaluate_toq, mbind, M_bind, lift.
  destruct (validate t) as [[]|e]; simpl; [|done].
  destruct (postorder t) as [order|e]; simpl; [|done].
  apply evaluate_loop_on_world.
Qed.

Lemma answer_all_probe {W} (answerer : string → option string → W → Answer * W)
    context qs (p : Probe W) :
  answer_all (probe_answerer answerer) context qs p
  = ((answer_all answerer context qs (probe_world p)).1,
     mkProbe (answer_all answerer context qs (probe_world p)).2
       (asked p ++ ((fun q => (q, context)) <$> qs))
       (collapsed_calls p) (normalized_calls p)).
Proof.
  revert p. induction qs as [|q qs IH]; intros p; simpl.
  - rewrite app_nil_r. by destruct p.
  - unfold probe_answerer at 1.
    destruct (answerer q context (probe_world p)) as [a w1]. rewrite IH. simpl.
    destruct (answer_all answerer context qs w1) as [rest w2]. simpl.
    by rewrite <-app_assoc.
Qed.

(** The questions that a trace records, in the order they were asked. *)
Lemma evaluate_toq_probe {W} (answerer : string → option string → W → Answer * W)
    substituter context t (p : Probe W) trace p' :
  PyDict.wf (nodes t) →
  evaluate_toq (probe_answerer answerer) substituter context t p = (Ok trace, p') →
  asked p' = asked p ++ ((fun q => (q, context)) <$> (rendered_question trace).*2)
  ∧ collapsed_calls p' = collapsed_calls p
  ∧ normalized_calls p' = normalized_calls p
  ∧ length (rendered_question trace) = length (nodes t).
Proof.
  intros Hwf Hrun. pose proof (evaluate_toq_ok_valid _ _ _ _ _ _ _ Hrun) as Hv.
  destruct (evaluate_toq_spec (probe_answerer answerer) substituter context t p Hwf Hv)
    as (order & trace' & p'' & Hord & Hpo & Hrun' & Hkr & _ & Hall & _).
  rewrite Hrun in Hrun'. injection Hrun' as <- <-.
  rewrite answer_all_probe in Hall. injection Hall as _ <-. simpl.
  split_and!; [done..|].
  apply validate_ok_iff in Hv as Hwft; [|done].
  pose proof (well_formed_order t order Hwf Hwft Hpo) as Hperm.
  apply Permutation_length in Hperm. rewrite <-Hkr in Hperm.
  unfold PyDict.keys, node_ids, PyDict.keys in Hperm. by rewrite !length_fmap in Hperm.
Qed.

Section Asked.
Context {W : Type}.
Variable enumerate_plans : ToQ → bool → list CollapsePlan.
Variable comp_roots : ToQ → CollapsePlan → result (list NodeId).
Variable extract_open : ToQ → CollapsePlan → NodeId → result OpenToQ.
Variable apply_plan : ToQ → CollapsePlan → list (NodeId * string) → result CollapsedToQ.
Variable answerer : string → option string → W → Answer * W.
Variable collapser : OpenToQ → option string → W → string * W.
Variable normalizer : option (string → W → string * W).
Variable substituter : option (string → list (NodeId * string) → string).
Variable context : option string.
Variable t : ToQ.

Local Abbreviation probed_plan :=
  (run_plan comp_roots extract_open apply_plan (probe_answerer answerer)
     (probe_collapser collapser) (probe_normalizer normalizer) substituter context).
Local Abbreviation probed_plans :=
  (run_plans comp_roots extract_open apply_plan (probe_answerer answerer)
     (probe_collapser collapser) (probe_normalizer normalizer) substituter context).
Local Abbreviation questions := (fun tr : EvalTrace => (rendered_question tr).*2).
Local Abbreviation tagged :=
  (fun qs : list string => (fun q : string => (q, context)) <$> qs).

(** The collapser leaves the two other logs alone. *)
Lemma collapse_components_logs (plan : CollapsePlan) (rs : list NodeId)
    (acc : list (NodeId * OpenToQ) * list (NodeId * string))
    (st : Probe W * gmap CacheKey string) :
  let st' := (collapse_components extract_open (probe_collapser collapser) context
                t plan rs acc st).2 in
  asked st'.1 = asked st.1 ∧ normalized_calls st'.1 = normalized_calls st.1.
Proof.
  revert acc st. induction rs as [|r rs IH]; intros acc st; simpl; [done|].
  unfold mbind at 1 2, M_bind at 1 2. unfold collapse_component.
  unfold mbind at 1 3, M_bind at 1 3, lift.
  destruct (extract_open t plan r) as [o|e]; simpl; [|done].
  unfold mbind at 1 2, M_bind at 1 2.
  assert (∀ st1, (cached_collapse (probe_collapser collapser) context r o st).2 = st1 →
                 asked st1.1 = asked st.1
                 ∧ normalized_calls st1.1 = normalized_calls st.1) as Hcc.
  { intros st1 <-. unfold cached_collapse.
    destruct (st.2 !! cache_key r o); simpl; [done|].
    unfold probe_collapser. by destruct (collapser o context (probe_world st.1)). }
  destruct (cached_collapse (probe_collapser collapser) context r o st)
    as [[cq|e] st1]; simpl.
  - destruct (Hcc st1 eq_refl) as [<- <-]. apply IH.
  - by apply Hcc.
Qed.

Lemma probed_plan_logs (plan : CollapsePlan) (st : Probe W * gmap CacheKey string)
    (r : RunRecord) (st' : Probe W * gmap CacheKey string) :
  (∀ cqs c, apply_plan t plan cqs = Ok c → PyDict.wf (nodes (collapsed_toq c))) →
  probed_plan t plan st = (Ok r, st') →
  asked st'.1 = asked st.1 ++ tagged (questions (rec_trace r))
  ∧ length (questions (rec_trace r)) = length (nodes (collapsed_toq (rec_collapsed r))).
Proof.
  intros Hdict Hrun.
  apply run_plan_anatomy in Hrun
    as (roots & by_root & c & st1 & st2 & _ & _ & Hcc & Hc & Hrec & Hev & _ & Hn).
  pose proof (collapse_components_logs plan roots ([], []) st) as Hlogs.
  rewrite Hcc in Hlogs. simpl in Hlogs. destruct Hlogs as [Hasked _].
  destruct st1 as [p1 cache1]. rewrite evaluate_toq_on_world in Hev.
  destruct (evaluate_toq (probe_answerer answerer) substituter context
              (collapsed_toq c) p1) as [res p2] eqn:Hev'.
  simpl in Hev. injection Hev as -> <-.
  apply evaluate_toq_probe in Hev' as (Hq & _ & _ & Hlen); [|by eapply Hdict].
  assert (asked st'.1 = asked p2) as ->.
  { unfold probe_normalizer in Hn. destruct normalizer as [f|]; simpl in Hn.
    - destruct Hn as (n & Hcall & _). unfold on_world in Hcall. simpl in Hcall.
      destruct (f (answer_text (rec_root_answer r)) (probe_world p2)).
      by injection Hcall as _ <-.
    - by destruct Hn as [-> _]. }
  simpl in Hasked. rewrite Hq, Hasked, Hrec. simpl.
  by rewrite length_fmap.
Qed.

Lemma probed_plans_logs (plans : list CollapsePlan) (acc : list RunRecord)
    (st : Probe W * gmap CacheKey string) (rs : list RunRecord)
    (st' : Probe W * gmap CacheKey string) :
  (∀ plan cqs c, apply_plan t plan cqs = Ok c → PyDict.wf (nodes (collapsed_toq c))) →
  probed_plans t plans acc st = (Ok rs, st') →
  ∃ new, rs = acc ++ new
    ∧ asked st'.1 = asked st.1 ++ tagged (concat (questions ∘ rec_trace <$> new))
    ∧ ∀ r, r ∈ new →
        length (questions (rec_trace r)) = length (nodes (collapsed_toq (rec_collapsed r))).
Proof.
  intros Hdict. revert acc st. induction plans as [|plan plans IH]; intros acc st; simpl.
  - intros [= <- <-]. exists []. simpl. rewrite !app_nil_r. split_and!; [done..|].
    intros r Hr. by apply elem_of_nil in Hr.
  - intros H. apply bind_ok_inv in H as (r & st1 & Hr & H).
    apply probed_plan_logs in Hr as [Hasked Hlen]; [|by apply Hdict].
    apply IH in H as (new & -> & Hasked' & Hall).
    exists (r :: new). rewrite <-app_assoc. split_and!; [done| |].
    + rewrite Hasked', Hasked, fmap_cons. simpl.
      by rewrite fmap_app, <-app_assoc.
    + intros r' Hr'. apply elem_of_cons in Hr' as [->|?]; [done|by apply Hall].
Qed.
End Asked.

(** X12.  In a run of [run_consistency_check] that returns a report, the
    answerer is asked exactly the rendered questions that the traces of the
    report record, each with the shared context: first those of the baseline
    trace, then those of each run in turn, in the order of the runs.  There
    is one question per node of the tree, and one per node of each quotient
    tree, so the number of answerer calls is the number of nodes of the tree
    plus the sizes of the quotient trees. *)
Theorem answerer_asked_the_rendered_questions {W : Type}
    (enumerate_plans : ToQ → bool → list CollapsePlan)
    (comp_roots : ToQ → CollapsePlan → result (list NodeId))
    (extract_open : ToQ → CollapsePlan → NodeId → result OpenToQ)
    (apply_plan : ToQ → CollapsePlan → list (NodeId * string) → result CollapsedToQ)
    (answerer : string → option string → W → Answer * W)
    (collapser : OpenToQ → option string → W → string * W)
    (normalizer : option (string → W → string * W))
    (substituter : option (string → list (NodeId * string) → string))
    (context : option string) (t : ToQ)
    (plan_opts : option (list (string * bool)))
    (cache : option (gmap CacheKey string)) (p : Probe W)
    (report : ConsistencyReport) (st' : Probe W * gmap CacheKey string) :
  PyDict.wf (nodes t) →
  (∀ plan cqs c, apply_plan t plan cqs = Ok c → PyDict.wf (nodes (collapsed_toq c))) →
  run_consistency_check enumerate_plans comp_roots extract_open apply_plan
    (probe_answerer answerer) (probe_collapser collapser)
    (probe_normalizer normalizer) substituter context t plan_opts cache p
  = (Ok report, st') →
  asked st'.1
  = asked p
    ++ ((fun q => (q, context))
        <$> ((rendered_question (base_trace report)).*2
             ++ concat ((fun r => (rendered_question (rec_trace r)).*2) <$> runs report)))
  ∧ length (rendered_question (base_trace report)) = length (nodes t)
  ∧ ∀ r, r ∈ runs report →
      length (rendered_question (rec_trace r))
      = length (nodes (collapsed_toq (rec_collapsed r))).
Proof.
  intros Hwf Hdict Hrun. unfold run_consistency_check in Hrun.
  apply bind_ok_inv in Hrun as (? & st1 & Hv & H).
  apply lift_ok_inv in Hv as [_ ->].
  apply bind_ok_inv in H as (base & st2 & Hbase & H).
  apply bind_ok_inv in H as (base_root & st3 & Hroot & H).
  apply lift_ok_inv in Hroot as [_ ->].
  apply bind_ok_inv in H as (rs & st4 & Hrs & H).
  injection H as <- <-. simpl.
  rewrite evaluate_toq_on_world in Hbase.
  destruct (evaluate_toq (probe_answerer answerer) substituter context t p)
    as [res p2] eqn:Hev.
  simpl in Hbase. injection Hbase as -> <-.
  apply evaluate_toq_probe in Hev as (Hq & _ & _ & Hlen); [|done].
  apply probed_plans_logs in Hrs as (new & -> & Hasked & Hall); [|done].
  simpl in *. split_and!.
  - rewrite Hasked, Hq, fmap_app, <-app_assoc. done.
  - done.
  - intros r Hr. specialize (Hall r Hr). by rewrite length_fmap in Hall.
Qed.

Lemma quotient_nodes_wf t all cq rs acc ns :
  PyDict.wf acc → quotient_nodes t all cq rs acc = Ok ns → PyDict.wf ns.
Proof.
  revert acc. induction rs as [|r rs IH]; intros acc Hwf; simpl.
  - by intros [= <-].
  - destruct (PyDict.get cq r) as [q|]; [|done]. apply IH. by apply set_wf.
Qed.

Lemma apply_collapse_plan_wf t plan cqs c :
  apply_collapse_plan t plan cqs = Ok c → PyDict.wf (nodes (collapsed_toq c)).
Proof.
  unfold apply_collapse_plan. destruct (component_roots t plan) as [roots|]; [|done].
  simpl. destruct (quotient_nodes t roots cqs roots []) as [ns|] eqn:Hns; [|done].
  simpl. intros [= <-]. simpl. eapply quotient_nodes_wf; [|exact Hns]. constructor.
Qed.

Lemma answerer_asked_the_rendered_questions_witness :
  ∃ report st',
    run_consistency_check enumerate_collapse_plans component_roots extract_open_toq
      apply_collapse_plan (probe_answerer toy_answerer) (probe_collapser toy_collapser)
      (probe_normalizer None) None None toq_chain None None (mkProbe tt [] [] [])
    = (Ok report, st')
    ∧ asked st'.1
      = [] ++ ((fun q => (q, None))
               <$> ((rendered_question (base_trace report)).*2
                    ++ concat ((fun r => (rendered_question (rec_trace r)).*2)
                               <$> runs report)))
    ∧ length (rendered_question (base_trace report)) = length (nodes toq_chain)
    ∧ ∀ r, r ∈ runs report →
        length (rendered_question (rec_trace r))
        = length (nodes (collapsed_toq (rec_collapsed r))).
Proof.
  destruct (run_consistency_check enumerate_collapse_plans component_roots
              extract_open_toq apply_collapse_plan (probe_answerer toy_answerer)
              (probe_collapser toy_collapser) (probe_normalizer None) None None
              toq_chain None None (mkProbe tt [] [] []))
    as [[report|e] st'] eqn:Hrun.
  - exists report, st'. split; [reflexivity|].
    apply (answerer_asked_the_rendered_questions enumerate_collapse_plans
             component_roots extract_open_toq apply_collapse_plan toy_answerer
             toy_collapser None None None toq_chain None None (mkProbe tt [] [] [])
             report st').
    + by_compute.
    + intros plan cqs c. apply apply_collapse_plan_wf.
    + exact Hrun.
  - exfalso. apply (f_equal (fun out => returned out.1)) in Hrun.
    vm_compute in Hrun. discriminate.
Defined.

Section Normalized.
Context {W : Type}.
Variable enumerate_plans : ToQ → bool → list CollapsePlan.
Variable comp_roots : ToQ → CollapsePlan → result (list NodeId).
Variable extract_open : ToQ → CollapsePlan → NodeId → result OpenToQ.
Variable apply_plan : ToQ → CollapsePlan → list (NodeId * string) → result CollapsedToQ.
Variable answerer : string → option string → W → Answer * W.
Variable collapser : OpenToQ → option string → W → string * W.
Variable normalizer : option (string → W → string * W).
Variable substituter : option (string → list (NodeId * string) → string).
Variable context : option string.
Variable t : ToQ.

Local Abbreviation probed_plan :=
  (run_plan comp_roots extract_open apply_plan (probe_answerer answerer)
     (probe_collapser collapser) (probe_normalizer normalizer) substituter context).
Local Abbreviation probed_plans :=
  (run_plans comp_roots extract_open apply_plan (probe_answerer answerer)
     (probe_collapser collapser) (probe_normalizer normalizer) substituter context).

(** The texts that one run hands to the normalizer. *)
Local Abbreviation normalized_of :=
  (fun r : RunRecord =>
     match normalizer with
     | Some _ => [answer_text (rec_root_answer r)]
     | None => []
     end).

Lemma evaluate_toq_keeps_normalized (t0 : ToQ) (st : Probe W * gmap CacheKey string) :
  normalized_calls
    (evaluate_toq (fun q c => on_world (probe_answerer answerer q c)) substituter
       context t0 st).2.1
  = normalized_calls st.1.
Proof.
  pose proof (steps_evaluate_toq
                (fun st st' : Probe W * gmap CacheKey string =>
                   normalized_calls st'.1 = normalized_calls st.1)
                (fun _ => eq_refl)
                (fun st1 st2 st3 H12 H23 => eq_trans H23 H12)
                (fun q c => on_world (probe_answerer answerer q c)) substituter
                context t0) as Hs.
  apply Hs. intros q c [p cache]. unfold on_world, probe_answerer. simpl.
  by destruct (answerer q c (probe_world p)).
Qed.

Lemma probed_plan_normalized (plan : CollapsePlan)
    (st : Probe W * gmap CacheKey string) (r : RunRecord)
    (st' : Probe W * gmap CacheKey string) :
  probed_plan t plan st = (Ok r, st') →
  normalized_calls st'.1 = normalized_calls st.1 ++ normalized_of r
  ∧ (is_Some (rec_normalized_root r) ↔ is_Some normalizer)
  ∧ ∀ f g, normalizer = Some f → (∀ s w, (f s w).1 = g s) →
           rec_normalized_root r = Some (g (answer_text (rec_root_answer r))).
Proof.
  intros Hrun.
  apply run_plan_anatomy in Hrun
    as (roots & by_root & c & st1 & st2 & _ & _ & Hcc & Hc & Hrec & Hev & _ & Hn).
  pose proof (collapse_components_logs extract_open collapser context t plan roots
                ([], []) st) as Hlogs.
  rewrite Hcc in Hlogs. simpl in Hlogs. destruct Hlogs as [_ Hnorm1].
  pose proof (evaluate_toq_keeps_normalized (collapsed_toq c) st1) as Hnorm2.
  rewrite Hev in Hnorm2. simpl in Hnorm2.
  unfold probe_normalizer in Hn. destruct normalizer as [f|]; simpl in Hn.
  - destruct Hn as (n & Hcall & Hnr). unfold on_world in Hcall. simpl in Hcall.
    destruct (f (answer_text (rec_root_answer r)) (probe_world st2.1)) as [n' w']
      eqn:Hf.
    injection Hcall as -> <-. simpl. rewrite Hnorm2, Hnorm1, Hnr.
    split_and!; [done|by split; eauto|].
    intros f' g [= <-] Hg.
    by rewrite <-(Hg _ (probe_world st2.1)), Hf.
  - destruct Hn as [-> Hnr]. rewrite Hnorm2, Hnorm1, Hnr, app_nil_r.
    split_and!; [done| |done]. split; by intros [? ?].
Qed.

Lemma probed_plans_normalized (plans : list CollapsePlan) (acc : list RunRecord)
    (st : Probe W * gmap CacheKey string) (rs : list RunRecord)
    (st' : Probe W * gmap CacheKey string) :
  probed_plans t plans acc st = (Ok rs, st') →
  ∃ new, rs = acc ++ new
    ∧ normalized_calls st'.1 = normalized_calls st.1 ++ concat (normalized_of <$> new)
    ∧ ∀ r, r ∈ new →
        (is_Some (rec_normalized_root r) ↔ is_Some normalizer)
        ∧ ∀ f g, normalizer = Some f → (∀ s w, (f s w).1 = g s) →
                 rec_normalized_root r = Some (g (answer_text (rec_root_answer r))).
Proof.
  revert acc st. induction plans as [|plan plans IH]; intros acc st; simpl.
  - intros [= <- <-]. exists []. simpl. rewrite !app_nil_r. split_and!; [done..|].
    intros r Hr. by apply elem_of_nil in Hr.
  - intros H. apply bind_ok_inv in H as (r & st1 & Hr & H).
    apply probed_plan_normalized in Hr as (Hnorm & Hsome & Hval).
    apply IH in H as (new & -> & Hnorm' & Hall).
    exists (r :: new). rewrite <-app_assoc. split_and!; [done| |].
    + rewrite Hnorm', Hnorm, fmap_cons. simpl. by rewrite <-app_assoc.
    + intros r' Hr'. apply elem_of_cons in Hr' as [->|?]; [done|by apply Hall].
Qed.
End Normalized.

(** X13.  In a run of [run_consistency_check] that returns a report, the
    normalizer, when one is given, is called once per run, in the order of the
    runs, on the text of the run's root answer, and never on the baseline
    answer; every [normalized_root] is then present, and it is the normalizer's
    result on that text when the normalizer is a function of the text alone.
    Without a normalizer every [normalized_root] is [None]. *)
Theorem normalizer_applied_to_root_answers {W : Type}
    (enumerate_plans : ToQ → bool → list CollapsePlan)
    (comp_roots : ToQ → CollapsePlan → result (list NodeId))
    (extract_open : ToQ → CollapsePlan → NodeId → result OpenToQ)
    (apply_plan : ToQ → CollapsePlan → list (NodeId * string) → result CollapsedToQ)
    (answerer : string → option string → W → Answer * W)
    (collapser : OpenToQ → option string → W → string * W)
    (normalizer : option (string → W → string * W))
    (substituter : option (string → list (NodeId * string) → string))
    (context : option string) (t : ToQ)
    (plan_opts : option (list (string * bool)))
    (cache : option (gmap CacheKey string)) (p : Probe W)
    (report : ConsistencyReport) (st' : Probe W * gmap CacheKey string) :
  run_consistency_check enumerate_plans comp_roots extract_open apply_plan
    (probe_answerer answerer) (probe_collapser collapser)
    (probe_normalizer normalizer) substituter context t plan_opts cache p
  = (Ok report, st') →
  normalized_calls st'.1
  = normalized_calls p
    ++ match normalizer with
       | Some _ => (fun r => answer_text (rec_root_answer r)) <$> runs report
       | None => []
       end
  ∧ (∀ r, r ∈ runs report → is_Some (rec_normalized_root r) ↔ is_Some normalizer)
  ∧ ∀ f g, normalizer = Some f → (∀ s w, (f s w).1 = g s) →
      ∀ r, r ∈ runs report →
        rec_normalized_root r = Some (g (answer_text (rec_root_answer r))).
Proof.
  intros Hrun. unfold run_consistency_check in Hrun.
  apply bind_ok_inv in Hrun as (? & st1 & Hv & H).
  apply lift_ok_inv in Hv as [_ ->].
  apply bind_ok_inv in H as (base & st2 & Hbase & H).
  apply bind_ok_inv in H as (base_root & st3 & Hroot & H).
  apply lift_ok_inv in Hroot as [_ ->].
  apply bind_ok_inv in H as (rs & st4 & Hrs & H).
  injection H as <- <-. simpl.
  pose proof (evaluate_toq_keeps_normalized answerer substituter context t
                (p, default ∅ cache)) as Hnorm.
  rewrite Hbase in Hnorm. simpl in Hnorm.
  apply probed_plans_normalized in Hrs as (new & -> & Hnorm' & Hall). simpl.
  split_and!.
  - rewrite Hnorm', Hnorm. f_equal. destruct normalizer as [f|].
    + clear. induction new as [|r new IH]; [done|].
      rewrite !fmap_cons. cbn [concat app]. by rewrite IH.
    + clear. induction new as [|r new IH]; [done|].
      rewrite !fmap_cons. cbn [concat app]. by rewrite IH.
  - intros r Hr. by apply Hall.
  - intros f g Hf Hg r Hr. destruct (Hall r Hr) as [_ Hval]. by eapply Hval.
Qed.

Lemma normalizer_applied_to_root_answers_witness :
  ∃ report st',
    run_consistency_check enumerate_collapse_plans component_roots extract_open_toq
      apply_collapse_plan (probe_answerer toy_answerer) (probe_collapser toy_collapser)
      (probe_normalizer (Some (fun s w => (String.append "n:" s, w)))) None None
      toq_chain None None (mkProbe tt [] [] [])
    = (Ok report, st')
    ∧ normalized_calls st'.1
      = [] ++ ((fun r => answer_text (rec_root_answer r)) <$> runs report)
    ∧ (∀ r, r ∈ runs report →
         is_Some (rec_normalized_root r)
         ↔ is_Some (Some (fun (s : string) (w : unit) => (String.append "n:" s, w))))
    ∧ ∀ f g, Some (fun (s : string) (w : unit) => (String.append "n:" s, w)) = Some f →
        (∀ s w, (f s w).1 = g s) →
        ∀ r, r ∈ runs report →
          rec_normalized_root r = Some (g (answer_text (rec_root_answer r))).
Proof.
  destruct (run_consistency_check enumerate_collapse_plans component_roots
              extract_open_toq apply_collapse_plan (probe_answerer toy_answerer)
              (probe_collapser toy_collapser)
              (probe_normalizer (Some (fun s w => (String.append "n:" s, w)))) None None
              toq_chain None None (mkProbe tt [] [] []))
    as [[report|e] st'] eqn:Hrun.
  - exists report, st'. split; [reflexivity|].
    exact (normalizer_applied_to_root_answers _ _ _ _ _ _ _ _ _ _ _ _ _ _ _ Hrun).
  - exfalso. apply (f_equal (fun out => returned out.1)) in Hrun.
    vm_compute in Hrun. discriminate.
Defined.

Lemma subscript_ok_get {V} (d : list (NodeId * V)) k v :
  subscript d k = Ok v → PyDict.get d k = Some v.
Proof. unfold subscript. destruct (PyDict.get d k); [by intros [= ->]|done]. Qed.

Lemma run_plans_traces {W : Type}
    (comp_roots : ToQ → CollapsePlan → result (list NodeId))
    (extract_open : ToQ → CollapsePlan → NodeId → result OpenToQ)
    (apply_plan : ToQ → CollapsePlan → list (NodeId * string) → result CollapsedToQ)
    (answerer : string → option string → W → Answer * W)
    (collapser : OpenToQ → option string → W → string * W)
    (normalizer : option (string → W → string * W))
    (substituter : option (string → list (NodeId * string) → string))
    (context : option string)
    (t : ToQ) (plans : list CollapsePlan) (acc : list RunRecord)
    (st : W * gmap CacheKey string) (rs : list RunRecord)
    (st' : W * gmap CacheKey string) :
  run_plans comp_roots extract_open apply_plan answerer collapser normalizer
    substituter context t plans acc st = (Ok rs, st') →
  ∃ new, rs = acc ++ new
    ∧ ∀ r, r ∈ new →
        PyDict.get (answer (rec_trace r)) (root_id (collapsed_toq (rec_collapsed r)))
        = Some (rec_root_answer r)
        ∧ is_Some (open_toq_by_root (rec_collapsed r))
        ∧ ∃ w1 w2, evaluate_toq answerer substituter context
                     (collapsed_toq (rec_collapsed r)) w1 = (Ok (rec_trace r), w2).
Proof.
  revert acc st. induction plans as [|plan plans IH]; intros acc st; simpl.
  - intros [= <- <-]. exists []. rewrite app_nil_r. split; [done|].
    intros r Hr. by apply elem_of_nil in Hr.
  - intros H. apply bind_ok_inv in H as (r & st1 & Hr & H).
    apply IH in H as (new & -> & Hall).
    exists (r :: new). rewrite <-app_assoc. split; [done|].
    intros r' Hr'. apply elem_of_cons in Hr' as [->|?]; [|by apply Hall].
    apply run_plan_anatomy in Hr
      as (roots & by_root & c & [w1 c1] & [w2 c2] & _ & _ & _ & _ & Hrec & Hev & Hra & _).
    rewrite Hrec. simpl. split_and!; [by apply subscript_ok_get|by eexists|].
    rewrite evaluate_toq_on_world in Hev. exists w1, w2.
    destruct (evaluate_toq answerer substituter context (collapsed_toq c) w1).
    simpl in Hev. by injection Hev as -> -> _.
Qed.

(** X14.  The baseline of a report is the plain evaluation of the tree: its
    trace is the one [evaluate_toq] returns on the tree from the world the
    call starts in, before any plan is looked at, and [base_root_answer] is
    the answer that trace holds for the root.  In every run, the trace is an
    evaluation of the run's quotient tree, [root_answer] is the answer that
    trace holds for the quotient's root, and the open sub-trees are attached;
    [summary] is empty. *)
Theorem report_holds_plain_evaluations {W : Type}
    (enumerate_plans : ToQ → bool → list CollapsePlan)
    (comp_roots : ToQ → CollapsePlan → result (list NodeId))
    (extract_open : ToQ → CollapsePlan → NodeId → result OpenToQ)
    (apply_plan : ToQ → CollapsePlan → list (NodeId * string) → result CollapsedToQ)
    (answerer : string → option string → W → Answer * W)
    (collapser : OpenToQ → option string → W → string * W)
    (normalizer : option (string → W → string * W))
    (substituter : option (string → list (NodeId * string) → string))
    (context : option string) (t : ToQ)
    (plan_opts : option (list (string * bool)))
    (cache : option (gmap CacheKey string)) (w : W)
    (report : ConsistencyReport) (st' : W * gmap CacheKey string) :
  run_consistency_check enumerate_plans comp_roots extract_open apply_plan
    answerer collapser normalizer substituter context t plan_opts cache w
  = (Ok report, st') →
  (∃ w1, evaluate_toq answerer substituter context t w = (Ok (base_trace report), w1))
  ∧ PyDict.get (answer (base_trace report)) (root_id t) = Some (base_root_answer report)
  ∧ summary report = []
  ∧ ∀ r, r ∈ runs report →
      PyDict.get (answer (rec_trace r)) (root_id (collapsed_toq (rec_collapsed r)))
      = Some (rec_root_answer r)
      ∧ is_Some (open_toq_by_root (rec_collapsed r))
      ∧ ∃ w1 w2, evaluate_toq answerer substituter context
                   (collapsed_toq (rec_collapsed r)) w1 = (Ok (rec_trace r), w2).
Proof.
  intros Hrun. unfold run_consistency_check in Hrun.
  apply bind_ok_inv in Hrun as (? & st1 & Hv & H).
  apply lift_ok_inv in Hv as [_ ->].
  apply bind_ok_inv in H as (base & [w2 c2] & Hbase & H).
  apply bind_ok_inv in H as (base_root & st3 & Hroot & H).
  apply lift_ok_inv in Hroot as [Hroot ->].
  apply bind_ok_inv in H as (rs & st4 & Hrs & H).
  injection H as <- <-. simpl.
  rewrite evaluate_toq_on_world in Hbase.
  apply run_plans_traces in Hrs as (new & -> & Hall). simpl.
  split_and!; [|by apply subscript_ok_get|done|done].
  exists w2. destruct (evaluate_toq answerer substituter context t w).
  simpl in Hbase. by injection Hbase as -> -> _.
Qed.

Lemma report_holds_plain_evaluations_witness :
  ∃ report st',
    run_consistency_check enumerate_collapse_plans component_roots extract_open_toq
      apply_collapse_plan toy_answerer toy_collapser None None None
      toq_chain None None tt = (Ok report, st')
    ∧ (∃ w1, evaluate_toq toy_answerer None None toq_chain tt
             = (Ok (base_trace report), w1))
    ∧ PyDict.get (answer (base_trace report)) (root_id toq_chain)
      = Some (base_root_answer report)
    ∧ summary report = []
    ∧ ∀ r, r ∈ runs report →
        PyDict.get (answer (rec_trace r)) (root_id (collapsed_toq (rec_collapsed r)))
        = Some (rec_root_answer r)
        ∧ is_Some (open_toq_by_root (rec_collapsed r))
        ∧ ∃ w1 w2, evaluate_toq toy_answerer None None
                     (collapsed_toq (rec_collapsed r)) w1 = (Ok (rec_trace r), w2).
Proof.
  destruct (run_consistency_check enumerate_collapse_plans component_roots
              extract_open_toq apply_collapse_plan toy_answerer toy_collapser
              None None None toq_chain None None tt)
    as [[report|e] st'] eqn:Hrun.
  - exists report, st'. split; [reflexivity|].
    exact (report_holds_plain_evaluations _ _ _ _ _ _ _ _ _ _ _ _ _ _ _ Hrun).
  - exfalso. apply (f_equal (fun out => returned out.1)) in Hrun.
    vm_compute in Hrun. discriminate.
Defined.


(** * The collapsers of [model_interface] *)

Lemma postorder_dfs_visited b ch u (st : gset Z * list NodeId) :
  u ∈ st.1 → postorder_dfs b ch u st = Ok st.
Proof. intros Hu. destruct b; simpl; by rewrite bool_decide_eq_true_2. Qed.

Lemma postorder_dfs_mono b ch :
  ∀ u st r, postorder_dfs b ch u st = Ok r → postorder_dfs (S b) ch u st = Ok r.
Proof.
  induction b as [|b IH]; intros u st r.
  - simpl. destruct (bool_decide (u ∈ st.1)); [done|discriminate].
  - intros H. change (postorder_dfs (S (S b)) ch u st)
      with (if bool_decide (u ∈ st.1) then Ok st
            else st2 ← postorder_dfs_loop (postorder_dfs (S b) ch) (get_children ch u)
                         ({[u]} ∪ st.1, st.2);
                 Ok (st2.1, st2.2 ++ [u])).
    change (postorder_dfs (S b) ch u st)
      with (if bool_decide (u ∈ st.1) then Ok st
            else st2 ← postorder_dfs_loop (postorder_dfs b ch) (get_children ch u)
                         ({[u]} ∪ st.1, st.2);
                 Ok (st2.1, st2.2 ++ [u])) in H.
    destruct (bool_decide (u ∈ st.1)); [done|].
    assert (∀ cs st0 r0,
              postorder_dfs_loop (postorder_dfs b ch) cs st0 = Ok r0 →
              postorder_dfs_loop (postorder_dfs (S b) ch) cs st0 = Ok r0) as Hloop.
    { induction cs as [|c cs IHcs]; intros st0 r0; [done|].
      cbn [postorder_dfs_loop].
      destruct (postorder_dfs b ch c st0) as [st1|e] eqn:Hc; [|done].
      rewrite (IH _ _ _ Hc). cbn [mbind result_bind]. apply IHcs. }
    destruct (postorder_dfs_loop (postorder_dfs b ch) (get_children ch u)
                ({[u]} ∪ st.1, st.2)) as [st2|e] eqn:Hl; [|done].
    by rewrite (Hloop _ _ _ Hl).
Qed.

(** The second traversal of [_compose_open_toq] visits the nodes as the
    closure of [_postorder] does. *)
Lemma post_order_eq b ch :
  ∀ u (st : gset Z * list NodeId), u ∉ st.1 →
    post_order b ch u st = postorder_dfs b ch u st.
Proof.
  induction b as [|b IH]; intros u st Hu; simpl.
  - by rewrite bool_decide_eq_false_2.
  - rewrite bool_decide_eq_false_2 by done.
    assert (∀ cs st0, post_order_loop (post_order b ch) cs st0
                      = postorder_dfs_loop (postorder_dfs b ch) cs st0) as Hloop.
    { induction cs as [|c cs IHcs]; intros st0; [done|].
      cbn [post_order_loop postorder_dfs_loop].
      destruct (decide (c ∈ st0.1)) as [Hc|Hc].
      - rewrite bool_decide_eq_true_2, postorder_dfs_visited by done.
        cbn [mbind result_bind]. apply IHcs.
      - rewrite bool_decide_eq_false_2, IH by done.
        destruct (postorder_dfs b ch c st0); cbn [mbind result_bind]; [apply IHcs|done]. }
    by rewrite Hloop.
Qed.

Lemma answer_all_echo context qs w :
  answer_all echo_answerer context qs w
  = ((fun q => mkAnswer (strip_q q) None) <$> qs, w).
Proof.
  induction qs as [|q qs IH]; simpl; [done|]. by rewrite IH.
Qed.

Lemma get_zip_keys {A B} (d : list (NodeId * A)) (d' : list (NodeId * B)) (f : A → B) k :
  d'.*1 = d.*1 → d'.*2 = f <$> d.*2 → PyDict.get d' k = f <$> PyDict.get d k.
Proof.
  revert d'. induction d as [|[k0 a] d IH]; intros [|[k1 b] d']; simpl; try done.
  intros [= -> Hk] [= -> Hv]. destruct (decide (k0 = k)); [done|]. by apply IH.
Qed.

(** Inlining the resolved texts of the children is the default substitution
    of their stripped texts. *)
Lemma compose_inline_substitutes ext resolved cs text :
  (∀ c, c ∈ cs → c ∉ ext) → (∀ c, c ∈ cs → c ∈ PyDict.keys resolved) →
  compose_inline ext resolved cs text
  = Ok (default_substituter text
          (omap (fun c => r ← PyDict.get resolved c; Some (c, strip_q r)) cs)).
Proof.
  revert text. induction cs as [|c cs IH]; intros text Hext Hres; [done|].
  cbn [compose_inline omap list_omap].
  rewrite bool_decide_eq_false_2 by (apply Hext; left).
  destruct (in_keys_get resolved c) as [r Hr]; [apply Hres; left|].
  unfold subscript. rewrite Hr. cbn [mbind result_bind option_bind].
  rewrite IH; [done|..]; intros c' Hc'; [apply Hext|apply Hres]; by right.
Qed.

Lemma omap_ext_in {A B} (f g : A → option B) (l : list A) :
  (∀ x, x ∈ l → f x = g x) → omap f l = omap g l.
Proof.
  induction l as [|x l IH]; intros Hfg; [done|]. cbn [omap list_omap].
  rewrite (Hfg x) by left. rewrite IH; [done|]. intros y Hy. apply Hfg. by right.
Qed.

Lemma split_at_unique (a b a' b' : list Z) n :
  NoDup (a ++ n :: b) → a ++ n :: b = a' ++ n :: b' → a = a'.
Proof.
  revert a'. induction a as [|x a IH]; intros [|y a'] Hnd Heq; simpl in *.
  - done.
  - injection Heq as -> ->. apply NoDup_cons in Hnd as [Hn _].
    exfalso. apply Hn. set_solver.
  - injection Heq as -> _. apply NoDup_cons in Hnd as [Hn _].
    exfalso. apply Hn. set_solver.
  - injection Heq as -> Heq. apply NoDup_cons in Hnd as [_ Hnd].
    f_equal. by apply IH.
Qed.

Lemma before_in_prefix (a b : list Z) c n :
  NoDup (a ++ n :: b) → before (a ++ n :: b) c n → c ∈ a.
Proof.
  intros Hnd (l1 & l2 & l3 & Heq).
  replace (l1 ++ c :: l2 ++ n :: l3) with ((l1 ++ c :: l2) ++ n :: l3) in Heq
    by (by rewrite <-app_assoc).
  apply split_at_unique in Heq as ->; [|done]. set_solver.
Qed.

Section Compose.
Variable t : ToQ.
Variable ext : list NodeId.
Hypothesis Hwf : PyDict.wf (nodes t).
Hypothesis Hck : checked t.
Hypothesis Hext : ∀ x, x ∈ ext → x ∉ node_ids t.
Variable trace : EvalTrace.
Hypothesis Hkeys : PyDict.keys (rendered_question trace) = PyDict.keys (answer trace).
Hypothesis Hans :
  (answer trace).*2 = (fun q => mkAnswer (strip_q q) None) <$> (rendered_question trace).*2.
Hypothesis Hq : ∀ n, n ∈ node_ids t →
  PyDict.get (rendered_question trace) n
  = question_at t default_substituter (answer trace) n.
Hypothesis Hnd : NoDup (PyDict.keys (rendered_question trace)).
Hypothesis Hin : ∀ n, n ∈ PyDict.keys (rendered_question trace) → n ∈ node_ids t.
Hypothesis Hbefore : ∀ c p, parent_of t c = Some p →
  c ∈ PyDict.keys (rendered_question trace) →
  p ∈ PyDict.keys (rendered_question trace) →
  before (PyDict.keys (rendered_question trace)) c p.
Hypothesis Hall : ∀ n, n ∈ node_ids t → n ∈ PyDict.keys (rendered_question trace).

Lemma compose_loop_rendered done_ rest :
  rendered_question trace = done_ ++ rest →
  compose_loop t (children t) ext rest.*1 done_ = Ok (rendered_question trace).
Proof.
  revert done_. induction rest as [|[n q] rest IH]; intros done_ Hsplit.
  - simpl. by rewrite Hsplit, app_nil_r.
  - cbn [fmap list_fmap compose_loop fst].
    assert (n ∈ PyDict.keys (rendered_question trace)) as Hn.
    { rewrite Hsplit. unfold PyDict.keys. rewrite fmap_app. set_solver. }
    assert (NoDup (done_.*1 ++ n :: rest.*1)) as Hnd'.
    { unfold PyDict.keys in Hnd. by rewrite Hsplit, fmap_app in Hnd. }
    assert (n ∉ done_.*1) as Hfresh.
    { apply NoDup_app in Hnd' as (_ & Hd & _). intros Hx. apply (Hd n Hx). left. }
    destruct (in_keys_get (nodes t) n (Hin n Hn)) as [node Hnode].
    unfold subscript at 1. rewrite Hnode. cbn [mbind result_bind].
    assert (∀ c, c ∈ get_children (children t) n → c ∈ done_.*1) as Hkids.
    { intros c Hc. apply (kids_parent t Hwf) in Hc.
      assert (c ∈ PyDict.keys (rendered_question trace)) as Hcin.
      { apply Hall. by eapply parent_in_keys. }
      pose proof (Hbefore c n Hc Hcin Hn) as Hb.
      unfold PyDict.keys in Hb. rewrite Hsplit, fmap_app in Hb.
      by apply before_in_prefix in Hb. }
    rewrite compose_inline_substitutes.
    2:{ intros c Hc Hx. apply (Hext c Hx). apply (kids_parent t Hwf) in Hc.
        by eapply parent_in_keys. }
    2:{ intros c Hc. by apply Hkids. }
    cbn [mbind result_bind].
    assert (PyDict.get (rendered_question trace) n = Some q) as Hgq.
    { rewrite Hsplit, get_app_r by done. simpl. by rewrite decide_True. }
    rewrite Hq in Hgq by (by apply Hin). unfold question_at in Hgq.
    rewrite Hnode in Hgq. simpl in Hgq. injection Hgq as Hgq.
    assert (default_substituter (node_text node)
              (omap (fun c => r ← PyDict.get done_ c; Some (c, strip_q r))
                 (get_children (children t) n)) = q) as ->.
    { rewrite <-Hgq. case_bool_decide as Hlen.
      - apply length_zero_iff_nil in Hlen. by rewrite Hlen.
      - f_equal. unfold child_answers_of. apply omap_ext_in. intros c Hc.
        assert (c ∈ done_.*1) as Hcd by by apply Hkids.
        rewrite (get_zip_keys (rendered_question trace) (answer trace)
                   (fun q => mkAnswer (strip_q q) None)); [|done..].
        rewrite Hsplit, get_app_l by done.
        by destruct (PyDict.get done_ c). }
    rewrite set_fresh by done. apply IH. by rewrite Hsplit, <-app_assoc.
Qed.
End Compose.

Lemma compose_open_toq_echo (o : OpenToQ) (original_question : string) :
  PyDict.wf (nodes (open_toq o)) → validate (open_toq o) = Ok tt →
  open_root_id o = root_id (open_toq o) →
  (∀ x, x ∈ open_inputs o → x ∉ node_ids (open_toq o)) →
  ∃ trace q,
    evaluate_toq echo_answerer None None (open_toq o) tt = (Ok trace, tt)
    ∧ PyDict.get (rendered_question trace) (root_id (open_toq o)) = Some q
    ∧ compose_open_toq o original_question = Ok q.
Proof.
  intros Hwf Hv Hroot Hext.
  pose proof (proj1 (validate_ok_iff _ Hwf) Hv) as Hwft.
  pose proof Hwft as [Hck Hreach].
  destruct (evaluate_toq_spec echo_answerer None None (open_toq o) tt Hwf Hv)
    as (order & trace & [] & Hord & Hpo & Hrun & Hkr & Hka & Hall & Hqs).
  pose proof (well_formed_order _ _ Hwf Hwft Hpo) as Hperm.
  pose proof Hpo as (Hnd & _ & Hbef & _).
  rewrite answer_all_echo in Hall. injection Hall as Hall.
  assert (root_id (open_toq o) ∈ PyDict.keys (rendered_question trace)) as Hrin.
  { rewrite Hkr, Hperm. apply (ck_root_in _ Hck). }
  destruct (in_keys_get _ _ Hrin) as [q Hq].
  exists trace, q. split_and!; [done..|].
  unfold postorder in Hord.
  destruct (postorder_dfs (length (nodes (open_toq o))) (children (open_toq o))
              (root_id (open_toq o)) (∅, [])) as [st|] eqn:Hdfs; [|done].
  simpl in Hord. injection Hord as Hord.
  apply postorder_dfs_mono in Hdfs.
  unfold compose_open_toq. rewrite Hroot.
  rewrite post_order_eq by set_solver. rewrite Hdfs. cbn [mbind result_bind].
  rewrite Hord, <-Hkr.
  assert (compose_loop (open_toq o) (children (open_toq o)) (open_inputs o)
            (rendered_question trace).*1 [] = Ok (rendered_question trace)) as Hloop.
  { apply (compose_loop_rendered (open_toq o) (open_inputs o) Hwf Hck Hext trace);
      try done.
    - by rewrite Hkr, Hka.
    - by rewrite Hkr.
    - intros n Hn. rewrite Hkr, Hperm in Hn. done.
    - intros c p Hp Hc Hpin. rewrite Hkr in *. by apply Hbef.
    - intros n Hn. by rewrite Hkr, Hperm. }
  unfold PyDict.keys. rewrite Hloop.
  cbn [mbind result_bind]. unfold subscript. by rewrite Hq.
Qed.

(** X15.  [_compose_open_toq] is evaluation by a model that answers every
    question with the question itself: on an open sub-tree whose tree passes
    validation, whose [root_id] is the root of that tree and whose inputs are
    not nodes of it, it returns the question that [evaluate_toq] renders at
    the root when the answerer gives each rendered question back, stripped by
    [_strip_q], and the substituter is the default one.  In particular it
    returns, without a [KeyError]. *)
Theorem compose_is_echo_evaluation (o : OpenToQ) (original_question : string) :
  PyDict.wf (nodes (open_toq o)) → validate (open_toq o) = Ok tt →
  open_root_id o = root_id (open_toq o) →
  (∀ x, x ∈ open_inputs o → x ∉ node_ids (open_toq o)) →
  ∃ trace q,
    evaluate_toq echo_answerer None None (open_toq o) tt = (Ok trace, tt)
    ∧ PyDict.get (rendered_question trace) (root_id (open_toq o)) = Some q
    ∧ compose_open_toq o original_question = Ok q.
Proof. apply compose_open_toq_echo. Qed.

Lemma compose_is_echo_evaluation_witness :
  ∃ trace q,
    evaluate_toq echo_answerer None None toq_chain tt = (Ok trace, tt)
    ∧ PyDict.get (rendered_question trace) (root_id toq_chain) = Some q
    ∧ compose_open_toq (mkOpenToQ toq_chain [] 2) "Who was President when WW2 ended?"
      = Ok q.
Proof.
  apply (compose_is_echo_evaluation (mkOpenToQ toq_chain [] 2)
           "Who was President when WW2 ended?").
  - by_compute.
  - vm_compute. reflexivity.
  - reflexivity.
  - intros x Hx. by apply elem_of_nil in Hx.
Defined.

(** The example of the docstring: the chain 2 -> 3 with node 1 cut. *)
Example compose_chain_with_cut_leaf :
  compose_open_toq
    (mkOpenToQ (mkToQ [(2, mkToQNode 2 "Who managed [A1]?" (Some 3));
                       (3, mkToQNode 3 "When was [A2] born?" None)] 3) [1] 3)
    "When was the manager of Monticello born?"
  = Ok "When was Who managed [A1] born?".
Proof. vm_compute. reflexivity. Qed.

(** X16.  [HotpotCollapser] raises exactly when [root_id] is not a node of the
    open sub-tree, with a [KeyError] for that id, also on a closed component
    of several nodes, whose answer does not use the root node.  On an open
    sub-tree whose tree passes validation, with [root_id] its root and inputs
    that are not nodes of it, [HotpotCollapser3Step] returns a question; and
    on a component of one node the two collapsers do the same. *)
Theorem hotpot_collapsers_on_components (original_question : string) (o : OpenToQ)
    (context : option string) :
  (raises (hotpot_collapser original_question o context)
   ↔ open_root_id o ∉ node_ids (open_toq o))
  ∧ (∀ e, hotpot_collapser original_question o context = Raise e →
          e = KeyError (open_root_id o))
  ∧ (PyDict.wf (nodes (open_toq o)) → validate (open_toq o) = Ok tt →
     open_root_id o = root_id (open_toq o) →
     (∀ x, x ∈ open_inputs o → x ∉ node_ids (open_toq o)) →
     ∃ q, hotpot_collapser_3step original_question o context = Ok q)
  ∧ (length (nodes (open_toq o)) = 1%nat →
     hotpot_collapser_3step original_question o context
     = hotpot_collapser original_question o context).
Proof.
  split_and!.
  - unfold hotpot_collapser, subscript, node_ids.
    destruct (PyDict.get (nodes (open_toq o)) (open_root_id o)) as [node|] eqn:Hg.
    + apply get_in_keys in Hg.
      destruct (open_inputs o); simpl; [case_bool_decide|]; simpl; naive_solver.
    + apply get_None in Hg. destruct (open_inputs o); simpl; naive_solver.
  - intros e. unfold hotpot_collapser, subscript.
    destruct (PyDict.get (nodes (open_toq o)) (open_root_id o)) as [node|];
      destruct (open_inputs o); simpl; try case_bool_decide; simpl; congruence.
  - intros Hwf Hv Hroot Hext.
    destruct (compose_open_toq_echo o original_question Hwf Hv Hroot Hext)
      as (trace & q & _ & _ & Hq).
    assert (∃ node, subscript (nodes (open_toq o)) (open_root_id o) = Ok node)
      as [node Hnode].
    { apply validate_ok_iff in Hv as [Hck _]; [|done].
      destruct (in_keys_get _ _ (ck_root_in _ Hck)) as [node Hnode].
      exists node. unfold subscript. by rewrite Hroot, Hnode. }
    unfold hotpot_collapser_3step. rewrite Hnode, Hq.
    destruct (open_inputs o); repeat case_bool_decide; simpl; eauto.
  - intros Hlen. unfold hotpot_collapser_3step, hotpot_collapser. rewrite Hlen.
    destruct (open_inputs o); simpl; [|done].
    by destruct (subscript (nodes (open_toq o)) (open_root_id o)).
Qed.


(** * The loaders of [model_interface] *)

(** ** The trees that the builders make *)

Lemma two_step_tree_valid (text1 text2 : string) :
  let t := mkToQ [(1, mkToQNode 1 text1 (Some 2)); (2, mkToQNode 2 text2 None)] 2 in
  validate t = Ok tt ∧ leaves t = [1] ∧ children t = [(1, []); (2, [1])].
Proof. vm_compute. done. Qed.

Lemma chain_tree_valid (text1 text2 text3 : string) :
  let t := mkToQ [(1, mkToQNode 1 text1 (Some 2)); (2, mkToQNode 2 text2 (Some 3));
                  (3, mkToQNode 3 text3 None)] 3 in
  validate t = Ok tt ∧ leaves t = [1] ∧ children t = [(1, []); (2, [1]); (3, [2])].
Proof. vm_compute. done. Qed.

Lemma fan_in_tree_valid (text1 text2 text3 : string) :
  let t := mkToQ [(1, mkToQNode 1 text1 (Some 3)); (2, mkToQNode 2 text2 (Some 3));
                  (3, mkToQNode 3 text3 None)] 3 in
  validate t = Ok tt ∧ leaves t = [1; 2] ∧ children t = [(1, []); (2, []); (3, [1; 2])].
Proof. vm_compute. done. Qed.

(** X17.  The builders of the loaders never fail validation: whatever the
    steps are, [_to_toq] returns a tree of two nodes that passes [validate],
    with node 1 the only leaf below the root 2, as soon as there are two
    steps, and raises [IndexError] otherwise; [_chain_to_toq] and
    [_tree_to_toq] return a valid chain 1 -> 2 -> 3 and a valid fan-in tree
    of 1 and 2 below 3 as soon as there are three steps.  Steps beyond those
    are not read. *)
Theorem builders_return_valid_trees (steps : list string) :
  (if bool_decide (2 ≤ length steps)%nat then
     ∃ t, to_toq steps = Built t ∧ validate t = Ok tt
          ∧ node_ids t = [1; 2] ∧ root_id t = 2
          ∧ leaves t = [1] ∧ children t = [(1, []); (2, [1])]
   else to_toq steps = IndexError)
  ∧ (if bool_decide (3 ≤ length steps)%nat then
       (∃ t, chain_to_toq steps = Built t ∧ validate t = Ok tt
             ∧ node_ids t = [1; 2; 3] ∧ root_id t = 3
             ∧ leaves t = [1] ∧ children t = [(1, []); (2, [1]); (3, [2])])
       ∧ (∃ t, tree_to_toq steps = Built t ∧ validate t = Ok tt
               ∧ node_ids t = [1; 2; 3] ∧ root_id t = 3
               ∧ leaves t = [1; 2] ∧ children t = [(1, []); (2, []); (3, [1; 2])])
     else chain_to_toq steps = IndexError ∧ tree_to_toq steps = IndexError).
Proof.
  destruct steps as [|s1 [|s2 [|s3 rest]]]; (split; [|try done]); try done.
  - destruct (two_step_tree_valid (naturalize s1) (naturalize s2)) as (Hv & Hl & Hc).
    simpl. eexists. unfold to_toq, validated. simpl. rewrite Hv. done.
  - destruct (two_step_tree_valid (naturalize s1) (naturalize s2)) as (Hv & Hl & Hc).
    simpl. eexists. unfold to_toq, validated. simpl. rewrite Hv. done.
  - destruct (chain_tree_valid (naturalize s1) (naturalize s2) (naturalize s3))
      as (Hv & Hl & Hc).
    destruct (fan_in_tree_valid (naturalize s1) (naturalize s2) (naturalize s3))
      as (Hv' & Hl' & Hc').
    simpl. split; eexists; unfold chain_to_toq, tree_to_toq, validated; simpl.
    + rewrite Hv. done.
    + rewrite Hv'. done.
Qed.

(** ** [_naturalize] *)

(** The text holds a reference [#N]. *)
Lemma find_refs_Some_cons ds s : find_refs (Some ds) s ≠ [].
Proof.
  revert ds. induction s as [|c s IH]; intros ds; simpl; [done|].
  destruct (is_digit c); [apply IH|done].
Qed.

Lemma find_refs_nil s : find_refs None s = [] ↔ has_ref s = false.
Proof.
  induction s as [|c s IH]; simpl; [done|].
  destruct (Ascii.eqb c "#" && starts_with_digit s); simpl; [|done].
  split; [|done]. intros H. by apply find_refs_Some_cons in H.
Qed.

Lemma starts_with_digit_sub_refs s :
  starts_with_digit (sub_refs false s) = true → starts_with_digit s = true.
Proof.
  destruct s as [|c s]; simpl; [done|].
  destruct (Ascii.eqb c "#" && starts_with_digit s); simpl; done.
Qed.

Lemma is_digit_not_hash c : is_digit c = true → Ascii.eqb c "#" = false.
Proof.
  destruct c as [[] [] [] [] [] [] [] []]; vm_compute; congruence.
Qed.

Lemma has_ref_sub_refs b s : has_ref (sub_refs b s) = false.
Proof.
  revert b. induction s as [|c s IH]; intros b; simpl.
  - by destruct b.
  - destruct (b && is_digit c) eqn:Hbd.
    + apply andb_true_iff in Hbd as [_ Hd]. simpl.
      by rewrite (is_digit_not_hash c Hd), IH.
    + assert (has_ref (if Ascii.eqb c "#" && starts_with_digit s
                       then String.append "[A" (sub_refs true s)
                       else String c (sub_refs false s)) = false) as Hbody.
      { destruct (Ascii.eqb c "#" && starts_with_digit s) eqn:Href.
        - simpl. apply IH.
        - simpl. rewrite IH, orb_false_r.
          destruct (Ascii.eqb c "#") eqn:Hc; [|done]. simpl in *.
          destruct (starts_with_digit (sub_refs false s)) eqn:Hs; [|done].
          apply starts_with_digit_sub_refs in Hs. congruence. }
      destruct b; [|done]. simpl. exact Hbody.
Qed.

Lemma upper_char_hash c : Ascii.eqb (upper_char c) "#" = Ascii.eqb c "#".
Proof. destruct c as [[] [] [] [] [] [] [] []]; vm_compute; reflexivity. Qed.

Lemma has_ref_capitalize s : has_ref (capitalize s) = has_ref s.
Proof. destruct s as [|c s]; simpl; [done|]. by rewrite upper_char_hash. Qed.

Lemma has_ref_append_mark s : has_ref (String.append s "?") = has_ref s.
Proof.
  induction s as [|c s IH]; [done|]. rewrite append_cons. cbn [has_ref].
  rewrite IH. destruct s; [by rewrite append_nil_l|by rewrite append_cons].
Qed.

Lemma last_char_append_mark s c : last_char (String.append s (String c "")) = Some c.
Proof.
  induction s as [|c' s IH]; [done|]. rewrite append_cons. cbn [last_char].
  rewrite IH. destruct s; [by rewrite append_nil_l|by rewrite append_cons].
Qed.

Lemma sub_refs_empty s : sub_refs false s = "" → s = "".
Proof.
  destruct s as [|c s]; [done|]. simpl.
  by destruct (Ascii.eqb c "#" && starts_with_digit s).
Qed.

Lemma last_char_rstrip f s c :
  last_char (rstrip_with f s) = Some c → f c = false.
Proof.
  induction s as [|c' s IH]; [done|]. cbn [rstrip_with].
  destruct (rstrip_with f s) as [|c'' r] eqn:Hr.
  - destruct (f c') eqn:Hf; simpl; [done|]. by intros [= <-].
  - cbn [last_char]. exact IH.
Qed.

Lemma lstrip_all s f : lstrip_with f s = "" → Forall (fun c => f c = true) (chars s).
Proof.
  induction s as [|c s IH]; simpl; [constructor|].
  destruct (f c) eqn:Hf; [|done]. intros H. constructor; [done|by apply IH].
Qed.

Lemma last_char_Forall (P : ascii → Prop) s c :
  Forall P (chars s) → last_char s = Some c → P c.
Proof.
  induction s as [|c' s IH]; [done|]. cbn [chars last_char].
  intros [Hc Hs]%Forall_cons. destruct s as [|c'' s]; [by intros [= <-]|].
  by apply IH.
Qed.

Lemma after_prefix_last p s c rest :
  after_prefix_nocase p s = Some (String c rest) →
  last_char s = last_char (String c rest).
Proof.
  revert s. induction p as [|a p IH]; intros s H.
  - destruct s; cbn [after_prefix_nocase] in H; congruence.
  - destruct s as [|b s]; cbn [after_prefix_nocase] in H; [done|].
    destruct (Ascii.eqb (upper_char a) (upper_char b)); [|done].
    rewrite <-(IH _ H). destruct s as [|b' s]; [|done].
    by destruct p.
Qed.

Lemma last_char_Some s : s ≠ "" → is_Some (last_char s).
Proof.
  induction s as [|c s IH]; [done|]. intros _. cbn [last_char].
  destruct s as [|c' s]; [by eexists|]. by apply IH.
Qed.

Lemma drop_return_empty s :
  (∀ c, last_char s = Some c → is_space c = false) → drop_return s = "" → s = "".
Proof.
  intros Hlast. unfold drop_return.
  destruct (after_prefix_nocase "return" s) as [[|c rest]|] eqn:Hp; try done.
  destruct (is_space c) eqn:Hc; [|done]. intros Hstrip. exfalso.
  apply after_prefix_last in Hp. apply lstrip_all in Hstrip.
  assert (Forall (fun c => is_space c = true) (chars (String c rest))) as Hall
    by (by constructor).
  destruct (last_char_Some (String c rest)) as [l Hl]; [done|].
  pose proof (last_char_Forall _ _ _ Hall Hl) as Hsp. simpl in Hsp.
  rewrite Hl in Hp. apply Hlast in Hp. congruence.
Qed.

Lemma naturalize_cases step :
  let s := capitalize (sub_refs false (drop_return (strip step))) in
  (s = "" ∧ naturalize step = "")
  ∨ (s ≠ "" ∧ last_char s = Some "?"%char ∧ naturalize step = s)
  ∨ (s ≠ "" ∧ naturalize step = String.append s "?").
Proof.
  unfold naturalize.
  destruct (capitalize (sub_refs false (drop_return (strip step)))) as [|c s] eqn:Hs;
    simpl; [by left|].
  case_bool_decide as Hl; right; [left|right]; done.
Qed.

(** X18.  [_naturalize] returns the empty text exactly on a blank step, and
    otherwise a text that ends with a question mark; and no reference [#N] of
    Break is left in what it returns: [_get_refs] finds nothing there. *)
Theorem naturalize_ends_with_mark (step : string) :
  ascii_text step →
  (naturalize step = "" ↔ strip step = "")
  ∧ (naturalize step ≠ "" → last_char (naturalize step) = Some "?"%char)
  ∧ find_refs None (naturalize step) = []
  ∧ get_refs (naturalize step) = ∅.
Proof.
  intros _.
  assert (find_refs None (naturalize step) = []) as Hrefs.
  { apply find_refs_nil.
    destruct (naturalize_cases step) as [[_ ->]|[(_ & _ & ->)|[_ ->]]]; [done| |].
    - by rewrite has_ref_capitalize, has_ref_sub_refs.
    - by rewrite has_ref_append_mark, has_ref_capitalize, has_ref_sub_refs. }
  split_and!; [| |done|].
  - split.
    + intros Hn.
      destruct (naturalize_cases step) as [[Hs _]|[(Hs & _ & Heq)|[Hs Heq]]].
      * destruct (sub_refs false (drop_return (strip step))) as [|c s] eqn:Hsub;
          [|done].
        apply sub_refs_empty in Hsub. apply drop_return_empty in Hsub; [done|].
        intros c. apply last_char_rstrip.
      * congruence.
      * rewrite Hn in Heq.
        by destruct (capitalize (sub_refs false (drop_return (strip step)))).
    + intros Hs. unfold naturalize. by rewrite Hs.
  - intros Hne.
    destruct (naturalize_cases step) as [[_ Heq]|[(_ & Hl & ->)|[_ ->]]]; [done..|].
    apply last_char_append_mark.
  - unfold get_refs. by rewrite Hrefs.
Qed.

Lemma naturalize_ends_with_mark_witness :
  (naturalize "return who managed #1" = "" ↔ strip "return who managed #1" = "")
  ∧ (naturalize "return who managed #1" ≠ "" →
     last_char (naturalize "return who managed #1") = Some "?"%char)
  ∧ find_refs None (naturalize "return who managed #1") = []
  ∧ get_refs (naturalize "return who managed #1") = ∅.
Proof.
  apply (naturalize_ends_with_mark "return who managed #1").
  unfold ascii_text. simpl. repeat constructor.
Defined.

(** The cases of the test-suite. *)
Example naturalize_examples :
  naturalize "return the president of France" = "The president of France?"
  ∧ naturalize "Return who managed #1" = "Who managed [A1]?"
  ∧ naturalize "return #1 or #2" = "[A1] or [A2]?"
  ∧ naturalize "return who is it?" = "Who is it?"
  ∧ naturalize "return" = "Return?"
  ∧ is_valid_2step ["return something"; "return who managed #1"] = true
  ∧ is_valid_2step ["return something"] = false
  ∧ is_valid_2step ["a"; "b #1"; "c #2"] = false
  ∧ is_valid_2step ["return something"; "return other thing"] = false.
Proof. vm_compute. done. Qed.


(** * The loops of the loaders of [model_interface] *)

Lemma take_bound_app {A} (acc new : list A) (m : Z) :
  (m ≤ Z.of_nat (length acc))%Z →
  take (Z.to_nat (Z.max (Z.of_nat (length acc)) m)) (acc ++ new) = acc.
Proof.
  intros Hm. rewrite Z.max_l by lia. rewrite Nat2Z.id. by rewrite take_app_length.
Qed.

Lemma to_toq_two step1 step2 :
  ∃ t, to_toq [step1; step2] = Built t ∧ validate t = Ok tt
       ∧ node_ids t = [1; 2] ∧ root_id t = 2.
Proof.
  destruct (two_step_tree_valid (naturalize step1) (naturalize step2)) as (Hv & _).
  eexists. unfold to_toq, validated. simpl. rewrite Hv. done.
Qed.

Lemma is_valid_2step_two steps :
  is_valid_2step steps = true → ∃ step1 step2, steps = [step1; step2].
Proof. destruct steps as [|s1 [|s2 [|s3 rest]]]; try done. by eexists _, _. Qed.

Section Loops.
Variable literal_tuple : string → option (list string).
Variable operators : option (list string).

Lemma load_2step_loop_spec (ds : list BreakRow) :
  ∀ acc : list BreakToQExample,
    ∃ new,
      load_2step_loop literal_tuple operators None ds acc = Built (acc ++ new)
      ∧ (length new ≤ length ds)%nat
      ∧ Forall (fun ex : BreakToQExample =>
                  validate (ex_toq ex) = Ok tt ∧ node_ids (ex_toq ex) = [1; 2]
                  ∧ root_id (ex_toq ex) = 2
                  ∧ String.prefix "HOTPOT" (ex_question_id ex) = true
                  ∧ ∀ wanted, operators = Some wanted → ex_operators ex = wanted) new
      ∧ ∀ m, load_2step_loop literal_tuple operators (Some m) ds acc
             = Built (take (Z.to_nat (Z.max (Z.of_nat (length acc) + 1) m))
                        (acc ++ new)).
Proof.
  induction ds as [|row rest IH]; intros acc.
  - exists []. rewrite app_nil_r. split_and!; [done..|].
    intros m. simpl. rewrite take_ge; [done|lia].
  - cbn [load_2step_loop].
    assert (∃ new,
              load_2step_loop literal_tuple operators None rest acc = Built (acc ++ new)
              ∧ (length new ≤ length (row :: rest))%nat
              ∧ Forall (fun ex : BreakToQExample =>
                  validate (ex_toq ex) = Ok tt ∧ node_ids (ex_toq ex) = [1; 2]
                  ∧ root_id (ex_toq ex) = 2
                  ∧ String.prefix "HOTPOT" (ex_question_id ex) = true
                  ∧ ∀ wanted, operators = Some wanted → ex_operators ex = wanted) new
              ∧ ∀ m, load_2step_loop literal_tuple operators (Some m) rest acc
                     = Built (take (Z.to_nat (Z.max (Z.of_nat (length acc) + 1) m))
                                (acc ++ new))) as Hskip.
    { destruct (IH acc) as (new & ? & ? & ? & ?). exists new.
      split_and!; [done|simpl; lia|done..]. }
    destruct (String.prefix "HOTPOT" (row_question_id row)) eqn:Hid; simpl;
      [|exact Hskip].
    destruct (is_valid_2step (strip <$> split_on ";" (row_decomposition row)))
      eqn:Hvalid; simpl; [|exact Hskip].
    destruct (match operators with
              | Some wanted =>
                  negb (bool_decide (parse_operators literal_tuple (row_operators row)
                                     = wanted))
              | None => false
              end) eqn:Hops; [exact Hskip|].
    clear Hskip.
    destruct (is_valid_2step_two _ Hvalid) as (step1 & step2 & ->).
    destruct (to_toq_two step1 step2) as (t & -> & Hv & Hids & Hroot).
    set (ex := mkBreakToQExample (row_question_id row) (row_question_text row) t
                 (parse_operators literal_tuple (row_operators row))).
    destruct (IH (acc ++ [ex])) as (new & Hall & Hlen & Hgood & Hcap).
    exists (ex :: new). rewrite <-app_assoc in Hall. simpl in Hall.
    split_and!; [done|simpl; lia| |].
    + constructor; [|done]. split_and!; [done..|].
      intros wanted ->. apply negb_false_iff, bool_decide_eq_true in Hops. done.
    + intros m. unfold cap_reached. rewrite length_app. simpl.
      case_bool_decide as Hm.
      * replace (acc ++ ex :: new) with ((acc ++ [ex]) ++ new)
          by (by rewrite <-app_assoc).
        replace (Z.of_nat (length acc) + 1) with (Z.of_nat (length (acc ++ [ex])))
          by (rewrite length_app; simpl; lia).
        rewrite take_bound_app; [done|]. rewrite length_app. simpl. lia.
      * rewrite Hcap. rewrite <-app_assoc. simpl. do 2 f_equal.
        rewrite length_app. simpl. lia.
Qed.

(** The same for the loop of the two loaders of three steps. *)
Lemma load_3step_loop_spec (is_valid : list string → bool)
    (build : list string → built ToQ) (structure : string)
    (good : ToQ → Prop) (ds : list BreakRow) :
  (∀ steps, is_valid steps = true → ∃ t, build steps = Built t ∧ good t) →
  ∀ acc : list BreakToQExample3,
    ∃ new,
      load_3step_loop literal_tuple is_valid build structure None ds acc
      = Built (acc ++ new)
      ∧ (length new ≤ length ds)%nat
      ∧ Forall (fun ex => good (ex3_toq ex) ∧ ex3_structure ex = structure
                          ∧ String.prefix "HOTPOT" (ex3_question_id ex) = true) new
      ∧ ∀ m, load_3step_loop literal_tuple is_valid build structure (Some m) ds acc
             = Built (take (Z.to_nat (Z.max (Z.of_nat (length acc) + 1) m))
                        (acc ++ new)).
Proof.
  intros Hbuild. induction ds as [|row rest IH]; intros acc.
  - exists []. rewrite app_nil_r. split_and!; [done..|].
    intros m. simpl. rewrite take_ge; [done|lia].
  - cbn [load_3step_loop].
    assert (∃ new,
              load_3step_loop literal_tuple is_valid build structure None rest acc
              = Built (acc ++ new)
              ∧ (length new ≤ length (row :: rest))%nat
              ∧ Forall (fun ex => good (ex3_toq ex) ∧ ex3_structure ex = structure
                          ∧ String.prefix "HOTPOT" (ex3_question_id ex) = true) new
              ∧ ∀ m, load_3step_loop literal_tuple is_valid build structure (Some m)
                       rest acc
                     = Built (take (Z.to_nat (Z.max (Z.of_nat (length acc) + 1) m))
                                (acc ++ new))) as Hskip.
    { destruct (IH acc) as (new & ? & ? & ? & ?). exists new.
      split_and!; [done|simpl; lia|done..]. }
    destruct (String.prefix "HOTPOT" (row_question_id row)) eqn:Hid; simpl;
      [|exact Hskip].
    destruct (is_valid (split_steps (row_decomposition row))) eqn:Hvalid; simpl;
      [|exact Hskip].
    clear Hskip. destruct (Hbuild _ Hvalid) as (t & -> & Hgood).
    set (ex := mkBreakToQExample3 (row_question_id row) (row_question_text row) t
                 (parse_operators literal_tuple (row_operators row)) structure).
    destruct (IH (acc ++ [ex])) as (new & Hall & Hlen & Hgoods & Hcap).
    exists (ex :: new). rewrite <-app_assoc in Hall. simpl in Hall.
    split_and!; [done|simpl; lia|by constructor|].
    intros m. unfold cap_reached. rewrite length_app. simpl.
    case_bool_decide as Hm.
    + replace (acc ++ ex :: new) with ((acc ++ [ex]) ++ new)
        by (by rewrite <-app_assoc).
      replace (Z.of_nat (length acc) + 1) with (Z.of_nat (length (acc ++ [ex])))
        by (rewrite length_app; simpl; lia).
      rewrite take_bound_app; [done|]. rewrite length_app. simpl. lia.
    + rewrite Hcap. rewrite <-app_assoc. simpl. do 2 f_equal.
      rewrite length_app. simpl. lia.
Qed.
End Loops.

(** X19.  [load_hotpot_2step] never raises, whatever the rows are: every
    decomposition it accepts is built into a tree without an [IndexError] and
    without a validation error.  Every example it returns holds a tree of two
    nodes that passes [validate], comes from a row whose id starts with
    [HOTPOT], and has the wanted operators when a filter is given.  With a
    bound [max_examples] the result is the start of the unbounded result, of
    [max_examples] examples, but of one example when the bound is zero or
    negative, since the bound is tested only after an example is added. *)
Theorem load_hotpot_2step_bounded (literal_tuple : string → option (list string))
    (ds : list BreakRow) (operators : option (list string)) :
  ∃ all,
    load_hotpot_2step literal_tuple ds None operators = Built all
    ∧ (length all ≤ length ds)%nat
    ∧ Forall (fun ex => validate (ex_toq ex) = Ok tt ∧ node_ids (ex_toq ex) = [1; 2]
                        ∧ root_id (ex_toq ex) = 2
                        ∧ String.prefix "HOTPOT" (ex_question_id ex) = true
                        ∧ ∀ wanted, operators = Some wanted → ex_operators ex = wanted)
        all
    ∧ ∀ m, load_hotpot_2step literal_tuple ds (Some m) operators
           = Built (take (Z.to_nat (Z.max 1 m)) all).
Proof.
  destruct (load_2step_loop_spec literal_tuple operators ds [])
    as (new & Hall & Hlen & Hgood & Hcap).
  exists new. unfold load_hotpot_2step. split_and!; try done.
Qed.

Lemma is_valid_chain_three steps :
  is_valid_chain steps = true →
  ∃ t, chain_to_toq steps = Built t
       ∧ (validate t = Ok tt ∧ node_ids t = [1; 2; 3] ∧ root_id t = 3
          ∧ children t = [(1, []); (2, [1]); (3, [2])]).
Proof.
  destruct steps as [|s1 [|s2 [|s3 [|s4 rest]]]]; try done. intros _.
  destruct (chain_tree_valid (naturalize s1) (naturalize s2) (naturalize s3))
    as (Hv & _ & Hc).
  eexists. unfold chain_to_toq, validated. simpl. rewrite Hv. done.
Qed.

Lemma is_valid_tree_three steps :
  is_valid_tree steps = true →
  ∃ t, tree_to_toq steps = Built t
       ∧ (validate t = Ok tt ∧ node_ids t = [1; 2; 3] ∧ root_id t = 3
          ∧ children t = [(1, []); (2, []); (3, [1; 2])]).
Proof.
  destruct steps as [|s1 [|s2 [|s3 [|s4 rest]]]]; try done. intros _.
  destruct (fan_in_tree_valid (naturalize s1) (naturalize s2) (naturalize s3))
    as (Hv & _ & Hc).
  eexists. unfold tree_to_toq, validated. simpl. rewrite Hv. done.
Qed.

(** X20.  [load_hotpot_3step_chains] and [load_hotpot_3step_trees] never
    raise, whatever the rows are.  Every example they return holds a tree of
    three nodes that passes [validate], a chain 1 -> 2 -> 3 for the first and
    a fan-in of 1 and 2 below 3 for the second, names its structure, and comes
    from a row whose id starts with [HOTPOT].  With a bound [max_examples]
    the result is the start of the unbounded result, of [max_examples]
    examples, but of one example when the bound is zero or negative. *)
Theorem load_hotpot_3step_bounded (literal_tuple : string → option (list string))
    (ds : list BreakRow) :
  (∃ all,
     load_hotpot_3step_chains literal_tuple ds None = Built all
     ∧ (length all ≤ length ds)%nat
     ∧ Forall (fun ex =>
                 (validate (ex3_toq ex) = Ok tt ∧ node_ids (ex3_toq ex) = [1; 2; 3]
                  ∧ root_id (ex3_toq ex) = 3
                  ∧ children (ex3_toq ex) = [(1, []); (2, [1]); (3, [2])])
                 ∧ ex3_structure ex = "chain"
                 ∧ String.prefix "HOTPOT" (ex3_question_id ex) = true) all
     ∧ ∀ m, load_hotpot_3step_chains literal_tuple ds (Some m)
            = Built (take (Z.to_nat (Z.max 1 m)) all))
  ∧ (∃ all,
       load_hotpot_3step_trees literal_tuple ds None = Built all
       ∧ (length all ≤ length ds)%nat
       ∧ Forall (fun ex =>
                   (validate (ex3_toq ex) = Ok tt ∧ node_ids (ex3_toq ex) = [1; 2; 3]
                    ∧ root_id (ex3_toq ex) = 3
                    ∧ children (ex3_toq ex) = [(1, []); (2, []); (3, [1; 2])])
                   ∧ ex3_structure ex = "tree"
                   ∧ String.prefix "HOTPOT" (ex3_question_id ex) = true) all
       ∧ ∀ m, load_hotpot_3step_trees literal_tuple ds (Some m)
              = Built (take (Z.to_nat (Z.max 1 m)) all)).
Proof.
  split.
  - destruct (load_3step_loop_spec literal_tuple is_valid_chain chain_to_toq "chain"
                _ ds is_valid_chain_three []) as (new & Hall & Hlen & Hgood & Hcap).
    exists new. unfold load_hotpot_3step_chains. split_and!; done.
  - destruct (load_3step_loop_spec literal_tuple is_valid_tree tree_to_toq "tree"
                _ ds is_valid_tree_three []) as (new & Hall & Hlen & Hgood & Hcap).
    exists new. unfold load_hotpot_3step_trees. split_and!; done.
Qed.

(** Two rows of the data set, and a third that is not of HotpotQA. *)
Example load_two_rows :
  let ds := [mkBreakRow "HOTPOT_dev_1" "Who managed Monticello?"
               "return the estate of Thomas Jefferson ;return who managed #1"
               "['select', 'project']";
             mkBreakRow "CLEVR_dev_1" "How many?" "return cubes ;return number of #1"
               "['select', 'aggregate']";
             mkBreakRow "HOTPOT_dev_2" "Who is older?"
               "return A ;return who is older than #1" "['select', 'project']"] in
  let lit := fun _ : string => Some ["select"; "project"] in
  (ex_question_id <$> match load_hotpot_2step lit ds None None with
                      | Built all => all | _ => [] end)
  = ["HOTPOT_dev_1"; "HOTPOT_dev_2"]
  ∧ (ex_question_id <$> match load_hotpot_2step lit ds (Some 0) None with
                        | Built all => all | _ => [] end)
    = ["HOTPOT_dev_1"].
Proof. vm_compute. done. Qed.
